(** * zipit: static Huffman compression and decompression

    A shallow embedding of [huffman-encode-decode.py] and the properties of
    its coding pipeline: frequency analysis, tree construction on a binary
    heap, code assignment, bit packing, the container format and decoding.

    Conventions of the embedding.
    - A Python [bytes]/[bytearray] value is a [list byte]; a [str] is a
      [list ascii].  The bit strings the program handles are [str] values
      over the characters ['0'] and ['1'].
    - A Python [int] is an [N]: every integer the program computes is a
      count, a length, a byte value or a sum of counts.  List indices and
      lengths are [nat].
    - A [dict] is an association list in insertion order with distinct
      keys; [dict_set] is [d[k] = v].
    - A raised exception is the [Err] case of [result]; methods that
      mutate [self] pass the object explicitly.
    - The two files of [compress] and [decompress] are their contents:
      [compress] maps the bytes read to the bytes written. *)

From Stdlib Require Import List NArith Arith Lia Ascii Bool Permutation.
From Stdlib Require Import Strings.Byte.
Import ListNotations.

Set Implicit Arguments.

(** ** Exceptions

    The exceptions the program can raise, [SystemExit] for [exit(0)], and
    [OutOfFuel] for a [while] loop that would pass the bound on its turns
    (none does). *)

Inductive exn : Type :=
| IndexError
| KeyError
| ValueError
| OverflowError
| SystemExit
| OutOfFuel.

Inductive result (A : Type) : Type :=
| Ok (a : A)
| Err (e : exn).

Arguments Ok {A} a.
Arguments Err {A} e.

Definition bind {A B : Type} (m : result A) (k : A -> result B) : result B :=
  match m with
  | Ok a => k a
  | Err e => Err e
  end.

Notation "x <- m ;; k" := (bind m (fun x => k))
  (at level 61, m at next level, right associativity).
Notation "' p <- m ;; k" := (bind m (fun x => match x with p => k end))
  (at level 61, p pattern, m at next level, right associativity).

(** A [for] loop whose body may raise. *)
Fixpoint for_each {A S : Type} (body : S -> A -> result S) (xs : list A) (s : S)
  : result S :=
  match xs with
  | [] => Ok s
  | x :: xs' => s' <- body s x ;; for_each body xs' s'
  end.

(** ** Python values *)

Definition bytes : Type := list byte.
Definition str : Type := list ascii.

Definition zero : ascii := "0"%char.
Definition one : ascii := "1"%char.

Fixpoint str_eqb (a b : str) : bool :=
  match a, b with
  | [], [] => true
  | x :: a', y :: b' => Ascii.eqb x y && str_eqb a' b'
  | _, _ => false
  end.

(** *** Lists: [l[i]], [l[i] = x], [l.pop()] *)

Definition getitem {A : Type} (l : list A) (i : nat) : result A :=
  match nth_error l i with
  | Some x => Ok x
  | None => Err IndexError
  end.

Fixpoint update {A : Type} (l : list A) (i : nat) (x : A) : list A :=
  match l, i with
  | [], _ => []
  | _ :: l', O => x :: l'
  | y :: l', S i' => y :: update l' i' x
  end.

Definition setitem {A : Type} (l : list A) (i : nat) (x : A) : result (list A) :=
  if i <? length l then Ok (update l i x) else Err IndexError.

Definition pop {A : Type} (l : list A) : result (A * list A) :=
  match rev l with
  | [] => Err IndexError
  | x :: r => Ok (x, rev r)
  end.

(** *** Dictionaries *)

Section Dict.
Variables K V : Type.
Variable eqb : K -> K -> bool.

Definition dict : Type := list (K * V).

Fixpoint dict_get (d : dict) (k : K) : option V :=
  match d with
  | [] => None
  | (k', v) :: d' => if eqb k k' then Some v else dict_get d' k
  end.

Fixpoint dict_set (d : dict) (k : K) (v : V) : dict :=
  match d with
  | [] => [(k, v)]
  | (k', v') :: d' =>
      if eqb k k' then (k', v) :: d' else (k', v') :: dict_set d' k v
  end.

Definition keys (d : dict) : list K := map fst d.
End Dict.

(** *** Integers and their text and byte forms *)

(** [int(s, 2)] on a string of binary digits. *)
Fixpoint int2_digits (acc : N) (s : str) : result N :=
  match s with
  | [] => Ok acc
  | c :: s' =>
      if Ascii.eqb c zero then int2_digits (2 * acc) s'
      else if Ascii.eqb c one then int2_digits (2 * acc + 1) s'
      else Err ValueError
  end.

Definition int2 (s : str) : result N :=
  match s with
  | [] => Err ValueError
  | _ => int2_digits 0 s
  end.

(** [bin(n)[2:]]: the binary digits of [n], most significant first. *)
Fixpoint pos_digits (p : positive) (acc : str) : str :=
  match p with
  | xH => one :: acc
  | xO p' => pos_digits p' (zero :: acc)
  | xI p' => pos_digits p' (one :: acc)
  end.

Definition bin_digits (n : N) : str :=
  match n with
  | N0 => [zero]
  | Npos p => pos_digits p []
  end.

Definition rjust (s : str) (width : nat) (fill : ascii) : str :=
  repeat fill (width - length s) ++ s.

(** ["{0:08b}".format(n)] *)
Definition format_08b (n : N) : str := rjust (bin_digits n) 8 zero.

Definition byte_of_N (v : N) : result byte :=
  match Byte.of_N v with
  | Some b => Ok b
  | None => Err ValueError
  end.

(** [n.to_bytes(len, byteorder='big')] *)
Fixpoint to_bytes_loop (len : nat) (n : N) (acc : bytes) : result bytes :=
  match len with
  | O => Ok acc
  | S len' =>
      b <- byte_of_N (n mod 256) ;;
      to_bytes_loop len' (n / 256) (b :: acc)
  end.

Definition to_bytes (n : N) (len : nat) : result bytes :=
  if (256 ^ N.of_nat len <=? n)%N then Err OverflowError
  else to_bytes_loop len n [].

(** [int.from_bytes(bs, byteorder='big')] *)
Definition from_bytes (bs : bytes) : N :=
  fold_left (fun acc b => (acc * 256 + Byte.to_N b)%N) bs 0%N.

(** [range(0, stop, step)] *)
Fixpoint range_from (count start step : nat) : list nat :=
  match count with
  | O => []
  | S count' => start :: range_from count' (start + step) step
  end.

Definition range_step (stop step : nat) : list nat :=
  range_from ((stop + step - 1) / step) 0 step.

(** [s[i:j]] for [0 <= i <= j] *)
Definition slice {A : Type} (s : list A) (i j : nat) : list A :=
  firstn (j - i) (skipn i s).

(** ** [class HuffmanNode] *)

Unset Elimination Schemes.
Inductive HuffmanNode : Type :=
| mkNode (char : option byte) (freq : N) (left right : option HuffmanNode).
Set Elimination Schemes.

Definition char (n : HuffmanNode) : option byte :=
  match n with mkNode c _ _ _ => c end.
Definition freq (n : HuffmanNode) : N :=
  match n with mkNode _ f _ _ => f end.
Definition left (n : HuffmanNode) : option HuffmanNode :=
  match n with mkNode _ _ l _ => l end.
Definition right (n : HuffmanNode) : option HuffmanNode :=
  match n with mkNode _ _ _ r => r end.

(** [HuffmanNode.__lt__] *)
Definition node_lt (self other : HuffmanNode) : bool :=
  (freq self <? freq other)%N.

(** ** The standard library's [heapq], on a list and a [<]

    [heappush], [heappop] and the two sift loops, as CPython's
    [Lib/heapq.py] has them: the repository imports the module and
    orders the nodes by [HuffmanNode.__lt__].  Each [while] loop carries
    the bound on its turns; [siftdown_spec] and [siftup_spec] below show
    that the bound is never reached. *)

Module heapq.
Section Heap.
Variable A : Type.
Variable lt : A -> A -> bool.

(** The [while pos > startpos] loop of [_siftdown]; it runs at most
    [pos] times. *)
Fixpoint siftdown_loop (fuel : nat) (heap : list A) (startpos pos : nat)
    (newitem : A) : result (list A) :=
  if startpos <? pos then
    match fuel with
    | O => Err OutOfFuel
    | S fuel' =>
        let parentpos := Nat.shiftr (pos - 1) 1 in
        parent <- getitem heap parentpos ;;
        if lt newitem parent then
          heap <- setitem heap pos parent ;;
          siftdown_loop fuel' heap startpos parentpos newitem
        else setitem heap pos newitem
    end
  else setitem heap pos newitem.

Definition _siftdown (heap : list A) (startpos pos : nat) : result (list A) :=
  newitem <- getitem heap pos ;;
  siftdown_loop pos heap startpos pos newitem.

(** The [while childpos < endpos] loop of [_siftup], up to the final
    [heap[pos] = newitem]; it runs at most [endpos] times. *)
Fixpoint siftup_loop (fuel : nat) (heap : list A) (endpos pos : nat)
    (newitem : A) : result (list A * nat) :=
  let childpos := 2 * pos + 1 in
  if childpos <? endpos then
    match fuel with
    | O => Err OutOfFuel
    | S fuel' =>
        let rightpos := childpos + 1 in
        childpos <-
          (if rightpos <? endpos then
             c <- getitem heap childpos ;;
             r <- getitem heap rightpos ;;
             Ok (if negb (lt c r) then rightpos else childpos)
           else Ok childpos) ;;
        child <- getitem heap childpos ;;
        heap <- setitem heap pos child ;;
        siftup_loop fuel' heap endpos childpos newitem
    end
  else
    heap <- setitem heap pos newitem ;;
    Ok (heap, pos).

Definition _siftup (heap : list A) (pos : nat) : result (list A) :=
  let endpos := length heap in
  let startpos := pos in
  newitem <- getitem heap pos ;;
  '(heap, pos) <- siftup_loop endpos heap endpos pos newitem ;;
  _siftdown heap startpos pos.

Definition heappush (heap : list A) (item : A) : result (list A) :=
  let heap := heap ++ [item] in
  _siftdown heap 0 (length heap - 1).

Definition heappop (heap : list A) : result (A * list A) :=
  '(lastelt, heap) <- pop heap ;;
  match heap with
  | _ :: _ =>
      returnitem <- getitem heap 0 ;;
      heap <- setitem heap 0 lastelt ;;
      heap <- _siftup heap 0 ;;
      Ok (returnitem, heap)
  | [] => Ok (lastelt, heap)
  end.
End Heap.
End heapq.

(** ** [class HuffmanEncoder] *)

Module HuffmanEncoder.

Record t : Type := mk {
  codes : dict byte str;
  reverse_mapping : dict str byte
}.

(** [__init__] *)
Definition init : t := mk [] [].

(** [frequency[char] += 1] on a [defaultdict(int)] *)
Definition count_char (frequency : dict byte N) (c : byte) : dict byte N :=
  let old := match dict_get Byte.eqb frequency c with
             | Some n => n
             | None => 0%N
             end in
  dict_set Byte.eqb frequency c (old + 1)%N.

Definition build_frequency_dict (data : bytes) : dict byte N :=
  fold_left count_char data [].

Definition build_heap (frequency : dict byte N) : result (list HuffmanNode) :=
  for_each
    (fun heap '(c, f) =>
       let node := mkNode (Some c) f None None in
       heapq.heappush node_lt heap node)
    frequency [].

(** The [while len(heap) > 1] loop; each turn shortens the heap by one. *)
Fixpoint merge_loop (fuel : nat) (heap : list HuffmanNode)
  : result (list HuffmanNode) :=
  if 1 <? length heap then
    match fuel with
    | O => Err OutOfFuel
    | S fuel' =>
        '(node1, heap) <- heapq.heappop node_lt heap ;;
        '(node2, heap) <- heapq.heappop node_lt heap ;;
        let merged :=
          mkNode None (freq node1 + freq node2)%N (Some node1) (Some node2) in
        heap <- heapq.heappush node_lt heap merged ;;
        merge_loop fuel' heap
    end
  else Ok heap.

Definition build_huffman_tree (heap : list HuffmanNode) : result HuffmanNode :=
  heap <- merge_loop (length heap) heap ;;
  getitem heap 0.

Fixpoint build_codes_helper (self : t) (root : HuffmanNode) (current_code : str)
  : t :=
  match root with
  | mkNode (Some c) _ _ _ =>
      mk (dict_set Byte.eqb (codes self) c current_code)
         (dict_set str_eqb (reverse_mapping self) current_code c)
  | mkNode None _ l r =>
      let self :=
        match l with
        | None => self
        | Some l' => build_codes_helper self l' (current_code ++ [zero])
        end in
      match r with
      | None => self
      | Some r' => build_codes_helper self r' (current_code ++ [one])
      end
  end.

Definition build_codes (self : t) (root : HuffmanNode) : t :=
  build_codes_helper self root [].

Definition get_encoded_text (self : t) (data : bytes) : result str :=
  for_each
    (fun encoded_text c =>
       match dict_get Byte.eqb (codes self) c with
       | Some code => Ok (encoded_text ++ code)
       | None => Err KeyError
       end)
    data [].

Definition pad_encoded_text (encoded_text : str) : str :=
  let extra_padding := 8 - length encoded_text mod 8 in
  let encoded_text :=
    fold_left (fun s _ => s ++ [zero]) (seq 0 extra_padding) encoded_text in
  let padded_info := format_08b (N.of_nat extra_padding) in
  padded_info ++ encoded_text.

Definition get_byte_array (padded_encoded_text : str) : result bytes :=
  if negb (length padded_encoded_text mod 8 =? 0) then Err SystemExit
  else
    for_each
      (fun b i =>
         let byte := slice padded_encoded_text i (i + 8) in
         v <- int2 byte ;;
         x <- byte_of_N v ;;
         Ok (b ++ [x]))
      (range_step (length padded_encoded_text) 8) [].

(** The bytes [compress] writes to [output_path] for the bytes [data]
    read from [input_path]. *)
Definition compress (self : t) (data : bytes) : result (t * bytes) :=
  let frequency := build_frequency_dict data in
  heap <- build_heap frequency ;;
  root <- build_huffman_tree heap ;;
  let self := build_codes self root in
  encoded_text <- get_encoded_text self data ;;
  let padded_encoded_text := pad_encoded_text encoded_text in
  byte_array <- get_byte_array padded_encoded_text ;;
  let freq_dict_size := length frequency in
  output <- to_bytes (N.of_nat freq_dict_size) 2 ;;
  output <-
    for_each
      (fun output '(c, f) =>
         fb <- to_bytes f 4 ;;
         Ok (output ++ [c] ++ fb))
      frequency output ;;
  Ok (self, output ++ byte_array).

End HuffmanEncoder.

(** ** [class HuffmanDecoder] *)

Module HuffmanDecoder.

Record t : Type := mk { reverse_mapping : dict str byte }.

Definition init : t := mk [].

(** [s[:-k]] for [k >= 0]: the index [-0] is [0]. *)
Definition drop_last (s : str) (k : nat) : str :=
  match k with
  | O => []
  | _ => firstn (length s - k) s
  end.

Definition remove_padding (padded_encoded_text : str) : result str :=
  let padded_info := firstn 8 padded_encoded_text in
  extra_padding <- int2 padded_info ;;
  let padded_encoded_text := skipn 8 padded_encoded_text in
  Ok (drop_last padded_encoded_text (N.to_nat extra_padding)).

Definition decode_step (self : t) (st : str * bytes) (bit : ascii)
  : str * bytes :=
  let '(current_code, decoded_text) := st in
  let current_code := current_code ++ [bit] in
  match dict_get str_eqb (reverse_mapping self) current_code with
  | Some c => ([], decoded_text ++ [c])
  | None => (current_code, decoded_text)
  end.

Definition decode_loop (self : t) (encoded_text : str) : str * bytes :=
  fold_left (decode_step self) encoded_text ([], []).

Definition decode_text (self : t) (encoded_text : str) : bytes :=
  snd (decode_loop self encoded_text).

(** [file.read(n)] on the unread rest of the file *)
Definition read (file : bytes) (n : nat) : bytes * bytes :=
  (firstn n file, skipn n file).

(** The [for _ in range(freq_dict_size)] loop *)
Fixpoint read_frequency (count : nat) (file : bytes) (frequency : dict byte N)
  : result (dict byte N * bytes) :=
  match count with
  | O => Ok (frequency, file)
  | S count' =>
      let '(b, file) := read file 1 in
      c <- getitem b 0 ;;
      let '(b, file) := read file 4 in
      let f := from_bytes b in
      read_frequency count' file (dict_set Byte.eqb frequency c f)
  end.

(** The [while byte] loop: every remaining byte as eight binary digits *)
Fixpoint read_bits (file : bytes) (bit_string : str) : str :=
  match file with
  | [] => bit_string
  | byte :: file' =>
      let bits := rjust (bin_digits (Byte.to_N byte)) 8 zero in
      read_bits file' (bit_string ++ bits)
  end.

(** The frequency table and the packed bytes of a container *)
Definition read_header (file : bytes) : result (dict byte N * bytes) :=
  let '(b, file) := read file 2 in
  let freq_dict_size := from_bytes b in
  read_frequency (N.to_nat freq_dict_size) file [].

(** The encoder that [decompress] builds from the stored table *)
Definition rebuild (frequency : dict byte N) : result HuffmanEncoder.t :=
  let encoder := HuffmanEncoder.init in
  heap <- HuffmanEncoder.build_heap frequency ;;
  root <- HuffmanEncoder.build_huffman_tree heap ;;
  Ok (HuffmanEncoder.build_codes encoder root).

(** The bytes [decompress] writes to [output_path] for the bytes [file]
    of [input_path]. *)
Definition decompress (self : t) (file : bytes) : result (t * bytes) :=
  '(frequency, file) <- read_header file ;;
  encoder <- rebuild frequency ;;
  let self := mk (HuffmanEncoder.reverse_mapping encoder) in
  let bit_string := read_bits file [] in
  encoded_text <- remove_padding bit_string ;;
  let decompressed_data := decode_text self encoded_text in
  Ok (self, decompressed_data).

End HuffmanDecoder.

(** [main], choices 1 and 2: a fresh encoder or decoder per file *)
Definition compress (data : bytes) : result bytes :=
  '(_, output) <- HuffmanEncoder.compress HuffmanEncoder.init data ;;
  Ok output.

Definition decompress (file : bytes) : result bytes :=
  '(_, output) <- HuffmanDecoder.decompress HuffmanDecoder.init file ;;
  Ok output.

(** * Notions used to state the properties *)

(** [p] is a prefix of [s]: [s.startswith(p)]. *)
Definition prefix (p s : str) : Prop := exists t, s = p ++ t.

Definition proper_prefix (p s : str) : Prop := prefix p s /\ p <> s.

(** Neither string is a prefix of the other. *)
Definition incomparable (a b : str) : Prop := ~ prefix a b /\ ~ prefix b a.

Definition is_bit (c : ascii) : Prop := c = zero \/ c = one.

(** A string of binary digits *)
Definition bit_string (s : str) : Prop := Forall is_bit s.

(** The node [build_heap] makes for one item of the frequency table *)
Definition leaf_of (item : byte * N) : HuffmanNode :=
  mkNode (Some (fst item)) (snd item) None None.

(** The symbols [build_codes_helper] meets below a node, left to right *)
Fixpoint leaves (root : HuffmanNode) : list byte :=
  match root with
  | mkNode (Some c) _ _ _ => [c]
  | mkNode None _ l r =>
      (match l with None => [] | Some l' => leaves l' end) ++
      (match r with None => [] | Some r' => leaves r' end)
  end.

(** The assignments [build_codes_helper] performs below a node, in order *)
Fixpoint code_list (root : HuffmanNode) (current_code : str)
  : list (byte * str) :=
  match root with
  | mkNode (Some c) _ _ _ => [(c, current_code)]
  | mkNode None _ l r =>
      (match l with
       | None => []
       | Some l' => code_list l' (current_code ++ [zero])
       end) ++
      (match r with
       | None => []
       | Some r' => code_list r' (current_code ++ [one])
       end)
  end.

(** [self.codes[c] = code; self.reverse_mapping[code] = c] *)
Definition assign (self : HuffmanEncoder.t) (item : byte * str)
  : HuffmanEncoder.t :=
  HuffmanEncoder.mk
    (dict_set Byte.eqb (HuffmanEncoder.codes self) (fst item) (snd item))
    (dict_set str_eqb (HuffmanEncoder.reverse_mapping self) (snd item) (fst item)).

(** The code table of a frequency table: the encoder after [build_heap],
    [build_huffman_tree] and [build_codes] *)
Definition code_table (frequency : dict byte N) : result HuffmanEncoder.t :=
  heap <- HuffmanEncoder.build_heap frequency ;;
  root <- HuffmanEncoder.build_huffman_tree heap ;;
  Ok (HuffmanEncoder.build_codes HuffmanEncoder.init root).

(** Induction on nodes, through the optional children *)
Definition opt_all (P : HuffmanNode -> Prop) (o : option HuffmanNode) : Prop :=
  match o with
  | None => True
  | Some n => P n
  end.

Fixpoint HuffmanNode_ind (P : HuffmanNode -> Prop)
    (H : forall c f l r, opt_all P l -> opt_all P r -> P (mkNode c f l r))
    (n : HuffmanNode) : P n :=
  match n with
  | mkNode c f l r =>
      H c f l r
        (match l return opt_all P l with
         | None => I
         | Some l' => HuffmanNode_ind P H l'
         end)
        (match r return opt_all P r with
         | None => I
         | Some r' => HuffmanNode_ind P H r'
         end)
  end.

(** The item of [reverse_mapping] that mirrors an item of [codes] *)
Definition swap_item (item : byte * str) : str * byte := (snd item, fst item).

(** The number of filler bits [pad_encoded_text] computes *)
Definition extra_padding (encoded_text : str) : nat :=
  8 - length encoded_text mod 8.

(** The eight binary digits [decompress] expands a byte to *)
Definition bits_of_byte (x : byte) : str :=
  rjust (bin_digits (Byte.to_N x)) 8 zero.

(** A record of the container: the symbol, then its count in four bytes,
    most significant first *)
Definition is_record (item : byte * N) (rec : bytes) : Prop :=
  exists fb, rec = fst item :: fb /\ length fb = 4 /\ from_bytes fb = snd item.

(** The count a frequency table holds for a symbol, [0] when absent *)
Definition count_of (frequency : dict byte N) (c : byte) : N :=
  match dict_get Byte.eqb frequency c with
  | Some n => n
  | None => 0%N
  end.

(** The data holds at least two distinct byte values. *)
Definition two_distinct (data : bytes) : Prop :=
  exists x y, In x data /\ In y data /\ x <> y.

(** * Notions for the properties of the single functions *)

(** Position [c] of a heap is a child of position [p]. *)
Definition is_child (c p : nat) : Prop := c = 2 * p + 1 \/ c = 2 * p + 2.

(** The order of a heap whose [<] compares a key, as [HuffmanNode.__lt__]
    compares [freq] *)
Section HeapOrder.
Variable A : Type.
Variable key : A -> N.

(** The element at [p], if any, is not above the element at [c], if any. *)
Definition le_at (heap : list A) (p c : nat) : Prop :=
  forall x y,
    nth_error heap p = Some x -> nth_error heap c = Some y ->
    (key x <= key y)%N.

(** The heap invariant of [heapq]: no child is less than its parent. *)
Definition heap_ordered (heap : list A) : Prop :=
  forall p c, is_child c p -> le_at heap p c.

(** The heap invariant but for the pairs that involve position [pos] *)
Definition ordered_except (heap : list A) (pos : nat) : Prop :=
  forall p c, is_child c p -> p <> pos -> c <> pos -> le_at heap p c.

(** A key is not above the children of position [pos]. *)
Definition below_children (heap : list A) (pos : nat) (k : N) : Prop :=
  forall c y, is_child c pos -> nth_error heap c = Some y -> (k <= key y)%N.

(** The parent of [pos] is not above the children of [pos]. *)
Definition grandchildren_ordered (heap : list A) (pos : nat) : Prop :=
  forall g c, is_child pos g -> is_child c pos -> le_at heap g c.
End HeapOrder.

(** The trees [build_huffman_tree] makes: a leaf holds a symbol and no
    children; a merged node holds no symbol, two children, and their
    frequencies added. *)
Inductive huffman_tree : HuffmanNode -> Prop :=
| ht_leaf (c : byte) (f : N) : huffman_tree (mkNode (Some c) f None None)
| ht_node (l r : HuffmanNode) :
    huffman_tree l -> huffman_tree r ->
    huffman_tree (mkNode None (freq l + freq r)%N (Some l) (Some r)).

(** The symbols at the leaves with their frequencies, left to right *)
Fixpoint leaf_items (root : HuffmanNode) : list (byte * N) :=
  match root with
  | mkNode (Some c) f _ _ => [(c, f)]
  | mkNode None _ l r =>
      (match l with None => [] | Some l' => leaf_items l' end) ++
      (match r with None => [] | Some r' => leaf_items r' end)
  end.

(** The sum of the counts of a frequency table *)
Definition total (frequency : list (byte * N)) : N :=
  fold_right (fun item acc => (snd item + acc)%N) 0%N frequency.

(** The code [self.codes] holds for a symbol, empty when it holds none *)
Definition code_of (self : HuffmanEncoder.t) (c : byte) : str :=
  match dict_get Byte.eqb (HuffmanEncoder.codes self) c with
  | Some code => code
  | None => []
  end.

(** [c in self.codes] *)
Definition has_code (self : HuffmanEncoder.t) (c : byte) : bool :=
  match dict_get Byte.eqb (HuffmanEncoder.codes self) c with
  | Some _ => true
  | None => false
  end.

(** The number of records the first two bytes of a container announce *)
Definition announced (file : bytes) : nat :=
  N.to_nat (from_bytes (firstn 2 file)).

(** The number of code bits of a frequency table: every count times the
    length of the code of its symbol *)
Definition weighted_length (frequency : list (byte * N))
    (self : HuffmanEncoder.t) : N :=
  fold_right
    (fun item acc =>
       (snd item * N.of_nat (length (code_of self (fst item))) + acc)%N)
    0%N frequency.

(** * Properties *)

(** ** The error monad *)

Lemma bind_Ok (A B : Type) (m : result A) (k : A -> result B) (y : B) :
  bind m k = Ok y -> exists a, m = Ok a /\ k a = Ok y.
Proof.
  destruct m as [a|e]; simpl; intros H; [eauto | discriminate].
Qed.

(** ** Lists *)

Section ListFacts.
Variable A : Type.
Implicit Types l : list A.

Lemma update_length l i x : length (update l i x) = length l.
Proof.
  revert i; induction l as [|y l IH]; intros [|i]; simpl; auto.
Qed.

Lemma nth_error_update_eq l i x :
  i < length l -> nth_error (update l i x) i = Some x.
Proof.
  revert i; induction l as [|y l IH]; intros [|i]; simpl; intros H;
    try lia; auto.
  apply IH; lia.
Qed.

Lemma nth_error_update_neq l i j x :
  i <> j -> nth_error (update l i x) j = nth_error l j.
Proof.
  revert i j; induction l as [|y l IH]; intros [|i] [|j]; simpl; intros H;
    auto; try congruence.
Qed.

(** Overwriting position [i] trades the old element for the new one. *)
Lemma update_perm l i x old :
  nth_error l i = Some old ->
  Permutation (old :: update l i x) (x :: l).
Proof.
  revert i; induction l as [|y l IH]; intros [|i]; simpl; intros H;
    try discriminate.
  - injection H as ->. apply perm_swap.
  - pose proof (IH i H) as H'.
    eapply perm_trans; [apply perm_swap|].
    eapply perm_trans; [apply perm_skip, H'|]. apply perm_swap.
Qed.

Lemma getitem_Ok l i x : nth_error l i = Some x -> getitem l i = Ok x.
Proof. unfold getitem; intros ->; reflexivity. Qed.

Lemma getitem_lt l i : i < length l -> exists x, nth_error l i = Some x.
Proof.
  intros H. destruct (nth_error l i) eqn:E; eauto.
  apply nth_error_None in E; lia.
Qed.

Lemma setitem_Ok l i x : i < length l -> setitem l i x = Ok (update l i x).
Proof.
  unfold setitem; intros H. apply Nat.ltb_lt in H. now rewrite H.
Qed.

Lemma pop_snoc l x : pop (l ++ [x]) = Ok (x, l).
Proof. unfold pop. rewrite rev_app_distr. simpl. now rewrite rev_involutive. Qed.

Lemma pop_nonempty l :
  l <> [] -> exists x l', l = l' ++ [x] /\ pop l = Ok (x, l').
Proof.
  intros H. destruct (exists_last H) as [l' [x ->]].
  exists x, l'. split; [reflexivity | apply pop_snoc].
Qed.
End ListFacts.

(** ** The heap operations keep the elements *)

Lemma shiftr1_lt (pos : nat) : 0 < pos -> Nat.shiftr (pos - 1) 1 < pos.
Proof.
  intros H. rewrite Nat.shiftr_div_pow2, Nat.pow_1_r.
  apply Nat.le_lt_trans with (pos - 1); [|lia].
  apply Nat.Div0.div_le_upper_bound. lia.
Qed.

Section HeapFacts.
Variable A : Type.
Variable lt : A -> A -> bool.

Lemma siftdown_loop_spec fuel :
  forall (heap : list A) startpos pos newitem old,
    pos <= fuel ->
    nth_error heap pos = Some old ->
    exists heap',
      heapq.siftdown_loop lt fuel heap startpos pos newitem = Ok heap' /\
      length heap' = length heap /\
      Permutation (old :: heap') (newitem :: heap).
Proof.
  induction fuel as [|fuel IH]; intros heap startpos pos newitem old Hf Hold;
    assert (Hlen : pos < length heap)
      by (apply nth_error_Some; congruence);
    cbn [heapq.siftdown_loop]; destruct (startpos <? pos) eqn:Hsp;
    try (rewrite setitem_Ok by assumption; eexists; split; [reflexivity|];
         split; [apply update_length | now apply update_perm]).
  - apply Nat.ltb_lt in Hsp. lia.
  - apply Nat.ltb_lt in Hsp.
    assert (Hpar : Nat.shiftr (pos - 1) 1 < pos) by (apply shiftr1_lt; lia).
    set (parentpos := Nat.shiftr (pos - 1) 1) in *.
    destruct (@getitem_lt _ heap parentpos) as [parent Hp]; [lia|].
    rewrite (getitem_Ok _ _ Hp). simpl.
    destruct (lt newitem parent).
    + rewrite setitem_Ok by assumption. simpl.
      destruct (IH (update heap pos parent) startpos parentpos newitem parent)
        as [heap' [Hr [Hl Hperm]]]; [lia | |].
      { rewrite nth_error_update_neq by lia. exact Hp. }
      exists heap'. split; [exact Hr|]. split.
      { now rewrite Hl, update_length. }
      apply Permutation_cons_inv with (a := parent).
      eapply perm_trans; [apply perm_swap|].
      eapply perm_trans; [apply perm_skip, Hperm|].
      eapply perm_trans; [apply perm_swap|].
      eapply perm_trans;
        [apply perm_skip, (update_perm heap pos parent Hold)|].
      apply perm_swap.
    + rewrite setitem_Ok by assumption. eexists; split; [reflexivity|].
      split; [apply update_length | now apply update_perm].
Qed.

Lemma siftdown_spec (heap : list A) startpos pos :
  pos < length heap ->
  exists heap',
    heapq._siftdown lt heap startpos pos = Ok heap' /\
    length heap' = length heap /\ Permutation heap' heap.
Proof.
  intros Hlen. destruct (getitem_lt heap Hlen) as [x Hx].
  unfold heapq._siftdown. rewrite (getitem_Ok _ _ Hx). simpl.
  destruct (@siftdown_loop_spec pos heap startpos pos x x (Nat.le_refl pos) Hx)
    as [heap' [Hr [Hl Hperm]]].
  exists heap'. repeat split; auto.
  now apply Permutation_cons_inv in Hperm.
Qed.

Lemma siftup_loop_spec fuel :
  forall (heap : list A) pos newitem old,
    length heap - pos <= fuel ->
    nth_error heap pos = Some old ->
    exists heap' pos',
      heapq.siftup_loop lt fuel heap (length heap) pos newitem
        = Ok (heap', pos') /\
      length heap' = length heap /\ pos' < length heap' /\
      Permutation (old :: heap') (newitem :: heap).
Proof.
  induction fuel as [|fuel IH]; intros heap pos newitem old Hf Hold;
    assert (Hlen : pos < length heap)
      by (apply nth_error_Some; congruence);
    cbn [heapq.siftup_loop];
    destruct (2 * pos + 1 <? length heap) eqn:Hc;
    try (rewrite setitem_Ok by assumption; simpl; do 2 eexists;
         split; [reflexivity|]; rewrite update_length;
         repeat split; auto; now apply update_perm).
  - lia.
  - apply Nat.ltb_lt in Hc.
    set (childpos := 2 * pos + 1) in *.
    assert (Hch : exists c,
      (if childpos + 1 <? length heap
       then c0 <- getitem heap childpos ;;
            r <- getitem heap (childpos + 1) ;;
            Ok (if negb (lt c0 r) then childpos + 1 else childpos)
       else Ok childpos) = Ok c /\ pos < c < length heap).
    { destruct (childpos + 1 <? length heap) eqn:Hr.
      - apply Nat.ltb_lt in Hr.
        destruct (@getitem_lt _ heap childpos) as [c0 Hc0]; [lia|].
        destruct (@getitem_lt _ heap (childpos + 1)) as [r0 Hr0]; [lia|].
        rewrite (getitem_Ok _ _ Hc0), (getitem_Ok _ _ Hr0). simpl.
        eexists; split; [reflexivity|].
        destruct (negb (lt c0 r0)); subst childpos; lia.
      - eexists; split; [reflexivity|]. subst childpos; lia. }
    destruct Hch as [c [-> Hcr]]. simpl.
    destruct (@getitem_lt _ heap c) as [child Hchild]; [lia|].
    rewrite (getitem_Ok _ _ Hchild). simpl.
    rewrite setitem_Ok by assumption. simpl.
    destruct (IH (update heap pos child) c newitem child)
      as [heap' [pos' [Hr [Hl [Hp Hperm]]]]].
    { rewrite update_length. lia. }
    { rewrite nth_error_update_neq by lia. exact Hchild. }
    rewrite update_length in Hr, Hl.
    exists heap', pos'. split; [exact Hr|]. repeat split; auto.
    apply Permutation_cons_inv with (a := child).
    eapply perm_trans; [apply perm_swap|].
    eapply perm_trans; [apply perm_skip, Hperm|].
    eapply perm_trans; [apply perm_swap|].
    eapply perm_trans;
      [apply perm_skip, (update_perm heap pos child Hold)|].
    apply perm_swap.
Qed.

Lemma siftup_spec (heap : list A) pos :
  pos < length heap ->
  exists heap',
    heapq._siftup lt heap pos = Ok heap' /\
    length heap' = length heap /\ Permutation heap' heap.
Proof.
  intros Hlen. destruct (getitem_lt heap Hlen) as [x Hx].
  unfold heapq._siftup. rewrite (getitem_Ok _ _ Hx). simpl.
  destruct (@siftup_loop_spec (length heap) heap pos x x)
    as [h1 [pos1 [Hr [Hl [Hp Hperm]]]]]; [lia | exact Hx |].
  rewrite Hr. simpl.
  destruct (@siftdown_spec h1 pos pos1 Hp) as [h2 [Hr2 [Hl2 Hperm2]]].
  exists h2. split; [exact Hr2|]. split; [congruence|].
  apply Permutation_cons_inv in Hperm.
  eapply perm_trans; eassumption.
Qed.

Lemma heappush_spec (heap : list A) item :
  exists heap',
    heapq.heappush lt heap item = Ok heap' /\
    Permutation heap' (item :: heap).
Proof.
  unfold heapq.heappush.
  destruct (@siftdown_spec (heap ++ [item]) 0 (length (heap ++ [item]) - 1))
    as [heap' [Hr [_ Hperm]]].
  { rewrite length_app; simpl; lia. }
  exists heap'. split; [exact Hr|].
  eapply perm_trans; [exact Hperm|].
  apply Permutation_sym, Permutation_cons_append.
Qed.

Lemma heappop_spec (heap : list A) :
  heap <> [] ->
  exists item heap',
    heapq.heappop lt heap = Ok (item, heap') /\
    Permutation (item :: heap') heap.
Proof.
  intros Hne. destruct (pop_nonempty Hne) as [lastelt [rest [-> Hpop]]].
  unfold heapq.heappop. rewrite Hpop. simpl.
  destruct rest as [|top rest].
  - exists lastelt, []. split; reflexivity.
  - simpl.
    destruct (@siftup_spec (lastelt :: rest) 0) as [heap' [Hr [_ Hperm]]].
    { simpl; lia. }
    rewrite Hr. simpl. exists top, heap'. split; [reflexivity|].
    eapply perm_trans; [apply perm_skip, Hperm|].
    eapply perm_trans; [apply perm_swap|].
    change (Permutation ([lastelt] ++ top :: rest) ((top :: rest) ++ [lastelt])).
    apply Permutation_app_comm.
Qed.
End HeapFacts.

(** ** Dictionaries *)

Lemma str_eqb_eq (a b : str) : str_eqb a b = true <-> a = b.
Proof.
  revert b; induction a as [|x a IH]; intros [|y b]; simpl;
    try (split; [discriminate | congruence]); [tauto|].
  rewrite andb_true_iff, Ascii.eqb_eq, IH.
  split; [intros [-> ->]; reflexivity | intros [= -> ->]; auto].
Qed.

Lemma byte_eqb_eq (a b : byte) : Byte.eqb a b = true <-> a = b.
Proof. split; [apply Byte.byte_dec_bl | apply Byte.byte_dec_lb]. Qed.

Section DictFacts.
Variables K V : Type.
Variable eqb : K -> K -> bool.
Hypothesis eqb_eq : forall a b, eqb a b = true <-> a = b.
Implicit Types d : dict K V.

Lemma eqb_refl k : eqb k k = true.
Proof. now apply eqb_eq. Qed.

Lemma eqb_neq a b : a <> b -> eqb a b = false.
Proof.
  intros H. destruct (eqb a b) eqn:E; [|reflexivity].
  apply eqb_eq in E. contradiction.
Qed.

Lemma dict_get_In d k v : dict_get eqb d k = Some v -> In (k, v) d.
Proof.
  induction d as [|[k' v'] d IH]; simpl; [discriminate|].
  destruct (eqb k k') eqn:E.
  - apply eqb_eq in E. intros [= ->]. left; congruence.
  - right; auto.
Qed.

Lemma dict_get_None d k : ~ In k (keys d) -> dict_get eqb d k = None.
Proof.
  induction d as [|[k' v'] d IH]; simpl; [reflexivity|]. intros H.
  rewrite eqb_neq by (intros ->; apply H; now left).
  apply IH. intros Hin; apply H; now right.
Qed.

Lemma In_dict_get d k v :
  NoDup (keys d) -> In (k, v) d -> dict_get eqb d k = Some v.
Proof.
  induction d as [|[k' v'] d IH]; simpl; [contradiction|].
  intros Hnd [[= -> ->]|Hin].
  - now rewrite eqb_refl.
  - inversion Hnd as [|? ? Hk Hd]; subst.
    rewrite eqb_neq; [auto|].
    intros ->. apply Hk. change (In k' (map fst d)).
    apply in_map_iff. exists (k', v); auto.
Qed.

(** [d[k] = v] on a new key appends the item. *)
Lemma dict_set_new d k v :
  ~ In k (keys d) -> dict_set eqb d k v = d ++ [(k, v)].
Proof.
  induction d as [|[k' v'] d IH]; simpl; [reflexivity|]. intros H.
  rewrite eqb_neq by (intros ->; apply H; now left).
  rewrite IH; [reflexivity|]. intros Hin; apply H; now right.
Qed.

Lemma dict_get_set_eq d k v : dict_get eqb (dict_set eqb d k v) k = Some v.
Proof.
  induction d as [|[k' v'] d IH]; simpl.
  - now rewrite eqb_refl.
  - destruct (eqb k k') eqn:E; simpl; rewrite E; auto.
Qed.

Lemma dict_get_set_neq d k k' v :
  k <> k' -> dict_get eqb (dict_set eqb d k v) k' = dict_get eqb d k'.
Proof.
  intros Hne. induction d as [|[k0 v0] d IH]; simpl.
  - now rewrite eqb_neq by congruence.
  - destruct (eqb k k0) eqn:E; simpl; [|now rewrite IH].
    apply eqb_eq in E; subst k0.
    now rewrite eqb_neq by congruence.
Qed.

Lemma keys_dict_set d k v :
  keys (dict_set eqb d k v) = if existsb (eqb k) (keys d) then keys d
                               else keys d ++ [k].
Proof.
  unfold keys. induction d as [|[k' v'] d IH]; simpl; [reflexivity|].
  destruct (eqb k k') eqn:E; simpl; [reflexivity|].
  rewrite IH.
  now destruct (existsb (eqb k) (map fst d)).
Qed.

Lemma existsb_eqb_In k (l : list K) : existsb (eqb k) l = true <-> In k l.
Proof.
  rewrite existsb_exists. split.
  - intros [x [Hin E]]. apply eqb_eq in E. now subst.
  - intros Hin. exists k. split; [assumption | apply eqb_refl].
Qed.

Lemma NoDup_dict_set d k v :
  NoDup (keys d) -> NoDup (keys (dict_set eqb d k v)).
Proof.
  intros H. rewrite keys_dict_set.
  destruct (existsb (eqb k) (keys d)) eqn:E; [assumption|].
  apply NoDup_app; [assumption | repeat constructor; simpl; tauto |].
  intros x Hx [<-|[]].
  apply existsb_eqb_In in Hx. congruence.
Qed.

(** Storing items with distinct new keys in order rebuilds them. *)
Lemma fold_dict_set_new (l : list (K * V)) d :
  NoDup (keys (d ++ l)) ->
  fold_left (fun d kv => dict_set eqb d (fst kv) (snd kv)) l d = d ++ l.
Proof.
  revert d; induction l as [|[k v] l IH]; intros d H; simpl.
  - now rewrite app_nil_r.
  - assert (Hk : ~ In k (keys d)).
    { unfold keys in *. rewrite map_app in H. simpl in H.
      apply NoDup_remove_2 in H. intros Hin. apply H.
      apply in_or_app; now left. }
    rewrite dict_set_new by assumption.
    rewrite IH; rewrite <- app_assoc; [reflexivity | exact H].
Qed.
End DictFacts.

(** ** Codes along the tree *)

Lemma prefix_refl (s : str) : prefix s s.
Proof. exists []. now rewrite app_nil_r. Qed.

Lemma prefix_trans (a b c : str) : prefix a b -> prefix b c -> prefix a c.
Proof. intros [t ->] [u ->]. exists (t ++ u). now rewrite app_assoc. Qed.

Lemma prefix_app (a t : str) : prefix a (a ++ t).
Proof. now exists t. Qed.

(** Two extensions of a code by different bits are incomparable, and so
    are all their extensions. *)
Lemma branches_incomparable (p a b : str) :
  prefix (p ++ [zero]) a -> prefix (p ++ [one]) b -> incomparable a b.
Proof.
  intros [x ->] [y ->]. split; intros [t H];
    repeat rewrite <- app_assoc in H; apply app_inv_head in H;
    simpl in H; discriminate.
Qed.

Lemma incomparable_sym (a b : str) : incomparable a b -> incomparable b a.
Proof. unfold incomparable; tauto. Qed.

Lemma ForallOrdPairs_app (A : Type) (R : A -> A -> Prop) (l1 l2 : list A) :
  ForallOrdPairs R l1 -> ForallOrdPairs R l2 ->
  (forall a b, In a l1 -> In b l2 -> R a b) ->
  ForallOrdPairs R (l1 ++ l2).
Proof.
  induction 1 as [|a l1 Ha H1 IH]; intros H2 Hx; simpl; [assumption|].
  constructor.
  - apply Forall_app. split; [assumption|].
    apply Forall_forall. intros b Hb. apply Hx; [now left | assumption].
  - apply IH; [assumption|]. intros x y Hin. apply Hx. now right.
Qed.

Lemma code_list_leaves (root : HuffmanNode) :
  forall p, map fst (code_list root p) = leaves root.
Proof.
  induction root as [[c|] f l r IHl IHr] using HuffmanNode_ind; intros p;
    simpl; [reflexivity|].
  rewrite map_app. f_equal.
  - destruct l; [apply IHl | reflexivity].
  - destruct r; [apply IHr | reflexivity].
Qed.

(** Every code assigned below a node extends the code of the node. *)
Lemma code_list_prefix (root : HuffmanNode) :
  forall p c s, In (c, s) (code_list root p) -> prefix p s.
Proof.
  induction root as [[c0|] f l r IHl IHr] using HuffmanNode_ind;
    intros p c s; simpl.
  - intros [[= <- <-]|[]]. apply prefix_refl.
  - intros H. apply in_app_or in H. destruct H as [H|H].
    + destruct l as [l'|]; [|contradiction].
      apply IHl in H. eapply prefix_trans; [apply prefix_app | exact H].
    + destruct r as [r'|]; [|contradiction].
      apply IHr in H. eapply prefix_trans; [apply prefix_app | exact H].
Qed.

(** The codes of one tree are pairwise incomparable. *)
Lemma code_list_incomparable (root : HuffmanNode) :
  forall p, ForallOrdPairs incomparable (map snd (code_list root p)).
Proof.
  induction root as [[c0|] f l r IHl IHr] using HuffmanNode_ind;
    intros p; simpl.
  - repeat constructor.
  - rewrite map_app. apply ForallOrdPairs_app.
    + destruct l; [apply IHl | constructor].
    + destruct r; [apply IHr | constructor].
    + intros a b Ha Hb.
      destruct l as [l'|]; [|contradiction].
      destruct r as [r'|]; [|contradiction].
      apply in_map_iff in Ha. destruct Ha as [[ca sa] [<- Ha]].
      apply in_map_iff in Hb. destruct Hb as [[cb sb] [<- Hb]].
      apply code_list_prefix in Ha, Hb.
      eapply branches_incomparable; eassumption.
Qed.

Lemma incomparable_NoDup (l : list str) :
  ForallOrdPairs incomparable l -> NoDup l.
Proof.
  induction 1 as [|a l Ha H IH]; constructor; [|assumption].
  intros Hin. rewrite Forall_forall in Ha.
  destruct (Ha a Hin) as [Hn _]. apply Hn, prefix_refl.
Qed.

Lemma code_list_prefix_eq (root : HuffmanNode) (p a b : str) :
  In a (map snd (code_list root p)) -> In b (map snd (code_list root p)) ->
  prefix a b -> a = b.
Proof.
  intros Ha Hb Hp.
  destruct (ForallOrdPairs_In (code_list_incomparable root p) a b Ha Hb)
    as [H|[[H _]|[_ H]]]; [assumption | contradiction H ..].
Qed.

(** Below an internal node every code is longer than the node's. *)
Lemma code_list_internal (root : HuffmanNode) (p : str) (c : byte) (s : str) :
  char root = None -> In (c, s) (code_list root p) ->
  exists bit t, is_bit bit /\ s = p ++ bit :: t.
Proof.
  destruct root as [[c0|] f l r]; simpl; [discriminate|]. intros _ H.
  apply in_app_or in H. destruct H as [H|H].
  - destruct l as [l'|]; [|contradiction].
    apply code_list_prefix in H. destruct H as [t ->].
    exists zero, t. split; [now left | now rewrite <- app_assoc].
  - destruct r as [r'|]; [|contradiction].
    apply code_list_prefix in H. destruct H as [t ->].
    exists one, t. split; [now right | now rewrite <- app_assoc].
Qed.

(** Codes are strings of binary digits. *)
Lemma code_list_bits (root : HuffmanNode) :
  forall p c s, bit_string p -> In (c, s) (code_list root p) -> bit_string s.
Proof.
  induction root as [[c0|] f l r IHl IHr] using HuffmanNode_ind;
    intros p c s Hp; simpl.
  - intros [[= <- <-]|[]]. assumption.
  - intros H. apply in_app_or in H. destruct H as [H|H].
    + destruct l as [l'|]; [|contradiction].
      apply IHl in H; [assumption|].
      apply Forall_app; split; [assumption | repeat constructor; now left].
    + destruct r as [r'|]; [|contradiction].
      apply IHr in H; [assumption|].
      apply Forall_app; split; [assumption | repeat constructor; now right].
Qed.

(** [build_codes_helper] performs the assignments of [code_list]. *)
Lemma build_codes_helper_fold (root : HuffmanNode) :
  forall self p,
    HuffmanEncoder.build_codes_helper self root p
    = fold_left assign (code_list root p) self.
Proof.
  induction root as [[c0|] f l r IHl IHr] using HuffmanNode_ind;
    intros self p; simpl; [reflexivity|].
  rewrite fold_left_app.
  destruct l as [l'|], r as [r'|]; simpl in *;
    rewrite ?IHl, ?IHr; reflexivity.
Qed.

Section DictFold.
Variables K V : Type.
Variable eqb : K -> K -> bool.
Hypothesis eqb_eq : forall a b, eqb a b = true <-> a = b.

(** Whatever a dictionary holds after a run of stores was stored by the
    run or was there before. *)
Lemma dict_get_fold_set (l : list (K * V)) :
  forall (d : dict K V) k v,
    dict_get eqb
      (fold_left (fun d kv => dict_set eqb d (fst kv) (snd kv)) l d) k
    = Some v ->
    In (k, v) l \/ dict_get eqb d k = Some v.
Proof.
  induction l as [|[k0 v0] l IH]; intros d k v H; simpl in *; [now right|].
  apply IH in H. destruct H as [H|H]; [now left; right|].
  destruct (eqb k0 k) eqn:E.
  - apply eqb_eq in E; subst k0.
    rewrite (dict_get_set_eq eqb eqb_eq) in H. injection H as ->.
    now left; left.
  - rewrite (dict_get_set_neq eqb eqb_eq) in H; [now right|].
    intros ->. rewrite (eqb_refl eqb eqb_eq) in E. discriminate.
Qed.
End DictFold.

Lemma fold_assign_codes (l : list (byte * str)) :
  forall self,
    HuffmanEncoder.codes (fold_left assign l self)
    = fold_left (fun d kv => dict_set Byte.eqb d (fst kv) (snd kv)) l
        (HuffmanEncoder.codes self).
Proof.
  induction l as [|a l IH]; intros self; simpl; [reflexivity|].
  now rewrite IH.
Qed.

Lemma fold_assign_reverse (l : list (byte * str)) :
  forall self,
    HuffmanEncoder.reverse_mapping (fold_left assign l self)
    = fold_left (fun d kv => dict_set str_eqb d (fst kv) (snd kv))
        (map swap_item l) (HuffmanEncoder.reverse_mapping self).
Proof.
  induction l as [|a l IH]; intros self; simpl; [reflexivity|].
  now rewrite IH.
Qed.

(** With distinct symbols at the leaves, the code table of a fresh encoder
    is the list of assignments itself, and the reverse mapping its mirror. *)
Lemma build_codes_codes (root : HuffmanNode) :
  NoDup (leaves root) ->
  HuffmanEncoder.codes (HuffmanEncoder.build_codes HuffmanEncoder.init root)
  = code_list root [].
Proof.
  intros Hnd. unfold HuffmanEncoder.build_codes.
  rewrite build_codes_helper_fold, fold_assign_codes. simpl.
  rewrite (fold_dict_set_new Byte.eqb byte_eqb_eq); [reflexivity|].
  simpl. unfold keys. now rewrite code_list_leaves.
Qed.

Lemma build_codes_reverse (root : HuffmanNode) :
  HuffmanEncoder.reverse_mapping
    (HuffmanEncoder.build_codes HuffmanEncoder.init root)
  = map swap_item (code_list root []).
Proof.
  unfold HuffmanEncoder.build_codes.
  rewrite build_codes_helper_fold, fold_assign_reverse. simpl.
  rewrite (fold_dict_set_new str_eqb str_eqb_eq); [reflexivity|].
  simpl. unfold keys. rewrite map_map. simpl.
  apply incomparable_NoDup, code_list_incomparable.
Qed.

(** ** Building the tree *)

Lemma for_each_Ok (A S : Type) (body : S -> A -> result S)
    (P : S -> list A -> Prop) (xs : list A) :
  forall s0 done,
    P s0 done ->
    (forall s x done, P s done ->
       exists s', body s x = Ok s' /\ P s' (done ++ [x])) ->
    exists s, for_each body xs s0 = Ok s /\ P s (done ++ xs).
Proof.
  induction xs as [|x xs IH]; intros s0 done H0 Hstep; simpl.
  - exists s0. now rewrite app_nil_r.
  - destruct (Hstep s0 x done H0) as [s' [-> H']]. simpl.
    destruct (IH s' (done ++ [x]) H' Hstep) as [s [Hr Hs]].
    exists s. split; [assumption|]. now rewrite <- app_assoc in Hs.
Qed.

Lemma build_heap_spec (frequency : dict byte N) :
  exists heap,
    HuffmanEncoder.build_heap frequency = Ok heap /\
    Permutation heap (map leaf_of frequency).
Proof.
  unfold HuffmanEncoder.build_heap.
  apply (@for_each_Ok _ _
           (fun heap '(c, f) =>
              heapq.heappush node_lt heap (mkNode (Some c) f None None))
           (fun heap done => Permutation heap (map leaf_of done))
           frequency [] []).
  - constructor.
  - intros heap [c f] done Hperm.
    destruct (heappush_spec node_lt heap (mkNode (Some c) f None None))
      as [heap' [Hr Hp]].
    exists heap'. split; [assumption|].
    rewrite map_app. simpl.
    eapply perm_trans; [exact Hp|].
    eapply perm_trans; [apply Permutation_cons_append|].
    apply Permutation_app_tail. assumption.
Qed.

Lemma leaves_leaf_of (frequency : dict byte N) :
  flat_map leaves (map leaf_of frequency) = keys frequency.
Proof.
  induction frequency as [|[c f] d IH]; simpl; [reflexivity|].
  now rewrite IH.
Qed.

(** The merge loop ends with one node that holds the leaves of all the
    nodes it was given. *)
Lemma merge_loop_spec (fuel : nat) :
  forall heap,
    heap <> [] -> length heap <= S fuel ->
    exists root,
      HuffmanEncoder.merge_loop fuel heap = Ok [root] /\
      Permutation (leaves root) (flat_map leaves heap) /\
      (if 1 <? length heap then char root = None else heap = [root]).
Proof.
  induction fuel as [|fuel IH]; intros heap Hne Hlen;
    cbn [HuffmanEncoder.merge_loop]; destruct (1 <? length heap) eqn:H1;
    try (apply Nat.ltb_ge in H1; destruct heap as [|x [|y heap]];
         [congruence | | simpl in H1; lia];
         exists x; simpl; rewrite app_nil_r; repeat split; auto; fail).
  - apply Nat.ltb_lt in H1. lia.
  - apply Nat.ltb_lt in H1.
    destruct (heappop_spec node_lt Hne) as [node1 [h1 [-> Hp1]]].
    cbn [bind].
    assert (Hl1 : S (length h1) = length heap)
      by (apply Permutation_length in Hp1; exact Hp1).
    assert (Hne1 : h1 <> []) by (intros ->; simpl in Hl1; lia).
    destruct (heappop_spec node_lt Hne1) as [node2 [h2 [-> Hp2]]].
    cbn [bind].
    assert (Hl2 : S (length h2) = length h1)
      by (apply Permutation_length in Hp2; exact Hp2).
    set (merged := mkNode None (freq node1 + freq node2)%N
                     (Some node1) (Some node2)).
    destruct (heappush_spec node_lt h2 merged) as [h3 [-> Hp3]].
    cbn [bind].
    assert (Hl3 : length h3 = S (length h2))
      by (apply Permutation_length in Hp3; exact Hp3).
    assert (Hne3 : h3 <> []) by (intros ->; simpl in Hl3; lia).
    destruct (IH h3 Hne3) as [root [Hr [Hperm Hroot]]]; [lia|].
    exists root. split; [exact Hr|]. split.
    + eapply perm_trans; [exact Hperm|].
      eapply perm_trans; [apply Permutation_flat_map, Hp3|].
      eapply perm_trans;
        [|apply Permutation_flat_map, Hp1].
      simpl. rewrite <- app_assoc. apply Permutation_app_head.
      change (Permutation (flat_map leaves (node2 :: h2)) (flat_map leaves h1)).
      apply Permutation_flat_map, Hp2.
    + destruct (1 <? length h3); [assumption|]. subst h3.
      apply Permutation_length_1_inv in Hp3.
      injection Hp3 as Hm _. now rewrite <- Hm.
Qed.

Lemma build_huffman_tree_spec (heap : list HuffmanNode) :
  heap <> [] ->
  exists root,
    HuffmanEncoder.build_huffman_tree heap = Ok root /\
    Permutation (leaves root) (flat_map leaves heap) /\
    (if 1 <? length heap then char root = None else heap = [root]).
Proof.
  intros Hne. unfold HuffmanEncoder.build_huffman_tree.
  destruct (@merge_loop_spec (length heap) heap Hne) as [root [-> H]]; [lia|].
  exists root. split; [reflexivity | exact H].
Qed.

(** A table with at least one item has a tree, whose leaves are the
    symbols of the table. *)
Lemma tree_of_table (frequency : dict byte N) :
  frequency <> [] ->
  exists heap root,
    HuffmanEncoder.build_heap frequency = Ok heap /\
    HuffmanEncoder.build_huffman_tree heap = Ok root /\
    Permutation (leaves root) (keys frequency) /\
    (if 1 <? length frequency then char root = None
     else exists item, frequency = [item] /\ root = leaf_of item).
Proof.
  intros Hne. destruct (build_heap_spec frequency) as [heap [Hh Hp]].
  assert (Hl : length heap = length frequency)
    by (apply Permutation_length in Hp; now rewrite length_map in Hp).
  assert (Hne' : heap <> []).
  { intros ->. destruct frequency; [congruence | discriminate]. }
  destruct (build_huffman_tree_spec Hne') as [root [Hr [Hperm Hroot]]].
  exists heap, root. repeat split; auto.
  - rewrite <- leaves_leaf_of.
    eapply perm_trans; [exact Hperm|]. apply Permutation_flat_map, Hp.
  - rewrite Hl in Hroot. destruct (1 <? length frequency); [assumption|].
    subst heap. destruct frequency as [|item [|]]; try discriminate.
    exists item. split; [reflexivity|].
    apply Permutation_length_1 in Hp. exact Hp.
Qed.

(** ** Padding *)

Lemma firstn_app_exact (A : Type) (a b : list A) :
  firstn (length a) (a ++ b) = a.
Proof.
  rewrite <- (Nat.add_0_r (length a)), firstn_app_2. simpl.
  apply app_nil_r.
Qed.

Lemma skipn_app_exact (A : Type) (a b : list A) :
  skipn (length a) (a ++ b) = b.
Proof.
  rewrite skipn_app, skipn_all, Nat.sub_diag. reflexivity.
Qed.

Lemma fold_append_zero (n : nat) :
  forall a (s : str),
    fold_left (fun s (_ : nat) => s ++ [zero]) (seq a n) s = s ++ repeat zero n.
Proof.
  induction n as [|n IH]; intros a s; simpl.
  - now rewrite app_nil_r.
  - rewrite IH, <- app_assoc. reflexivity.
Qed.

Lemma pad_encoded_text_eq (s : str) :
  HuffmanEncoder.pad_encoded_text s
  = format_08b (N.of_nat (extra_padding s)) ++ s ++ repeat zero (extra_padding s).
Proof.
  unfold HuffmanEncoder.pad_encoded_text. now rewrite fold_append_zero.
Qed.

Lemma extra_padding_range (s : str) : 1 <= extra_padding s <= 8.
Proof.
  unfold extra_padding.
  pose proof (Nat.mod_upper_bound (length s) 8). lia.
Qed.

Lemma bit_string_forallb (s : str) :
  forallb (fun c => Ascii.eqb c zero || Ascii.eqb c one) s = true ->
  bit_string s.
Proof.
  intros H. apply Forall_forall. intros c Hc.
  rewrite forallb_forall in H. specialize (H c Hc).
  apply orb_true_iff in H. destruct H as [H|H]; apply Ascii.eqb_eq in H;
    [now left | now right].
Qed.

Lemma format_08b_small (k : nat) :
  k <= 8 ->
  length (format_08b (N.of_nat k)) = 8 /\
  bit_string (format_08b (N.of_nat k)) /\
  int2 (format_08b (N.of_nat k)) = Ok (N.of_nat k).
Proof.
  intros H.
  do 9 (destruct k as [|k];
        [split; [reflexivity|];
         split; [apply bit_string_forallb|]; reflexivity|]).
  lia.
Qed.

Lemma padded_length (s : str) :
  length (HuffmanEncoder.pad_encoded_text s)
  = 8 + length s + extra_padding s.
Proof.
  rewrite pad_encoded_text_eq, !length_app, repeat_length.
  destruct (format_08b_small (k := extra_padding s)) as [-> _];
    [apply extra_padding_range | lia].
Qed.

Lemma padded_length_mod (s : str) :
  length (HuffmanEncoder.pad_encoded_text s) mod 8 = 0.
Proof.
  rewrite padded_length. unfold extra_padding.
  pose proof (Nat.div_mod_eq (length s) 8) as Hd.
  pose proof (Nat.mod_upper_bound (length s) 8) as Hm.
  replace (8 + length s + (8 - length s mod 8))
    with ((2 + length s / 8) * 8) by lia.
  apply Nat.Div0.mod_mul.
Qed.

Lemma drop_last_app (s t : str) :
  t <> [] -> HuffmanDecoder.drop_last (s ++ t) (length t) = s.
Proof.
  intros Ht. unfold HuffmanDecoder.drop_last.
  destruct (length t) eqn:E.
  - destruct t; [congruence | discriminate].
  - rewrite length_app, E.
    replace (length s + S n - S n) with (length s + 0) by lia.
    rewrite firstn_app_2. simpl. now rewrite app_nil_r.
Qed.

(** The decoder strips exactly what the encoder added. *)
Lemma remove_padding_pad (s : str) :
  HuffmanDecoder.remove_padding (HuffmanEncoder.pad_encoded_text s) = Ok s.
Proof.
  pose proof (extra_padding_range s) as Hk.
  destruct (format_08b_small (k := extra_padding s)) as [Hl [_ Hi]]; [lia|].
  unfold HuffmanDecoder.remove_padding.
  rewrite pad_encoded_text_eq.
  rewrite <- Hl at 1. rewrite firstn_app_exact, Hi. cbn [bind].
  rewrite <- Hl at 1. rewrite skipn_app_exact, Nat2N.id. f_equal.
  rewrite <- (repeat_length zero (extra_padding s)) at 2.
  apply drop_last_app.
  destruct (extra_padding s); [lia | discriminate].
Qed.

(** ** Packing bits into bytes and back *)

Lemma bits_of_byte_length (x : byte) : length (bits_of_byte x) = 8.
Proof. destruct x; reflexivity. Qed.

Lemma int2_bits_of_byte (x : byte) : int2 (bits_of_byte x) = Ok (Byte.to_N x).
Proof. destruct x; reflexivity. Qed.

Lemma bits_of_byte_bits (x : byte) : bit_string (bits_of_byte x).
Proof. apply bit_string_forallb. destruct x; reflexivity. Qed.

(** Eight binary digits are one byte, and the byte expands to them. *)
Lemma byte_of_chunk (chunk : str) :
  length chunk = 8 -> bit_string chunk ->
  exists x, (v <- int2 chunk ;; byte_of_N v) = Ok x /\ bits_of_byte x = chunk.
Proof.
  intros Hl Hb.
  do 8 (destruct chunk as [|? chunk]; [discriminate|]).
  destruct chunk; [|discriminate]. clear Hl.
  repeat match goal with
         | H : bit_string (_ :: _) |- _ => inversion H; subst; clear H
         | H : Forall is_bit (_ :: _) |- _ => inversion H; subst; clear H
         | H : Forall is_bit [] |- _ => clear H
         | H : is_bit _ |- _ => destruct H; subst
         end;
    eexists; split; vm_compute; reflexivity.
Qed.

Lemma read_bits_acc (file : bytes) :
  forall acc,
    HuffmanDecoder.read_bits file acc = acc ++ HuffmanDecoder.read_bits file [].
Proof.
  induction file as [|x file IH]; intros acc; simpl.
  - now rewrite app_nil_r.
  - rewrite IH. rewrite (IH (rjust _ _ _)). now rewrite app_assoc.
Qed.

Lemma read_bits_cons (x : byte) (file : bytes) :
  HuffmanDecoder.read_bits (x :: file) []
  = bits_of_byte x ++ HuffmanDecoder.read_bits file [].
Proof. simpl. now rewrite read_bits_acc. Qed.

Lemma read_bits_snoc (file : bytes) (x : byte) :
  HuffmanDecoder.read_bits (file ++ [x]) []
  = HuffmanDecoder.read_bits file [] ++ bits_of_byte x.
Proof.
  induction file as [|y file IH].
  - simpl. reflexivity.
  - change ((y :: file) ++ [x]) with (y :: (file ++ [x])).
    rewrite !read_bits_cons, IH. now rewrite app_assoc.
Qed.

Lemma read_bits_length (file : bytes) :
  length (HuffmanDecoder.read_bits file []) = 8 * length file.
Proof.
  induction file as [|x file IH]; [reflexivity|].
  rewrite read_bits_cons, length_app, bits_of_byte_length, IH. simpl. lia.
Qed.

Lemma range_step_8 (n : nat) : range_step (8 * n) 8 = range_from n 0 8.
Proof.
  unfold range_step. f_equal.
  replace (8 * n + 8 - 1) with (7 + n * 8) by lia.
  rewrite Nat.div_add by lia. reflexivity.
Qed.

(** The grouping loop of [get_byte_array], started after a part already
    grouped *)
Lemma pack_loop (n : nat) :
  forall (pre s : str) (acc : bytes),
    length s = 8 * n -> bit_string s ->
    exists bs,
      for_each
        (fun b i =>
           v <- int2 (slice (pre ++ s) i (i + 8)) ;;
           x <- byte_of_N v ;;
           Ok (b ++ [x]))
        (range_from n (length pre) 8) acc = Ok (acc ++ bs) /\
      HuffmanDecoder.read_bits bs [] = s.
Proof.
  induction n as [|n IH]; intros pre s acc Hl Hb.
  - destruct s; [|discriminate]. exists []. simpl. now rewrite app_nil_r.
  - assert (Hs : s = firstn 8 s ++ skipn 8 s) by (symmetry; apply firstn_skipn).
    set (chunk := firstn 8 s) in *. set (rest := skipn 8 s) in *.
    assert (Hc : length chunk = 8)
      by (subst chunk; rewrite firstn_length_le; lia).
    assert (Hr : length rest = 8 * n)
      by (subst rest; rewrite length_skipn; lia).
    assert (Hbs : bit_string chunk /\ bit_string rest).
    { unfold bit_string in *. rewrite Hs in Hb. now apply Forall_app in Hb. }
    destruct Hbs as [Hbc Hbr].
    destruct (byte_of_chunk Hc Hbc) as [x [Hx Hbits]].
    cbn [range_from for_each].
    assert (Hslice : slice (pre ++ s) (length pre) (length pre + 8) = chunk).
    { unfold slice. rewrite skipn_app_exact.
      replace (length pre + 8 - length pre) with 8 by lia. reflexivity. }
    rewrite Hslice.
    apply bind_Ok in Hx. destruct Hx as [v [Hv Hx]].
    rewrite Hv. cbn [bind]. rewrite Hx. cbn [bind].
    destruct (IH (pre ++ chunk) rest (acc ++ [x]) Hr Hbr) as [bs [Hloop Hread]].
    rewrite length_app, Hc in Hloop.
    rewrite <- app_assoc, <- Hs in Hloop.
    exists (x :: bs). split.
    + rewrite Hloop, <- app_assoc. reflexivity.
    + rewrite read_bits_cons, Hbits, Hread. symmetry. exact Hs.
Qed.

(** Grouping a whole number of bytes of binary digits succeeds, and
    expanding the bytes gives the digits back. *)
Lemma get_byte_array_spec (s : str) :
  length s mod 8 = 0 -> bit_string s ->
  exists bs,
    HuffmanEncoder.get_byte_array s = Ok bs /\
    HuffmanDecoder.read_bits bs [] = s.
Proof.
  intros Hm Hb. unfold HuffmanEncoder.get_byte_array.
  rewrite Hm. cbn [Nat.eqb negb].
  assert (Hl : length s = 8 * (length s / 8)).
  { pose proof (Nat.div_mod_eq (length s) 8). lia. }
  rewrite (f_equal (fun n => range_step n 8) Hl), range_step_8.
  destruct (@pack_loop (length s / 8) [] s [] Hl Hb) as [bs [Hloop Hread]].
  exists bs. split; [exact Hloop | exact Hread].
Qed.

(** ** Integers as bytes *)

Lemma byte_of_N_mod (n : N) :
  exists x, byte_of_N (n mod 256) = Ok x /\ Byte.to_N x = (n mod 256)%N.
Proof.
  unfold byte_of_N. destruct (Byte.of_N (n mod 256)) as [x|] eqn:E.
  - exists x. split; [reflexivity | now apply Byte.to_of_N].
  - apply Byte.of_N_None_iff in E.
    pose proof (N.mod_upper_bound n 256). lia.
Qed.

Lemma to_bytes_loop_spec (len : nat) :
  forall n acc,
    exists bs,
      to_bytes_loop len n acc = Ok (bs ++ acc) /\ length bs = len /\
      forall z,
        fold_left (fun a x => (a * 256 + Byte.to_N x)%N) bs z
        = (z * 256 ^ N.of_nat len + n mod 256 ^ N.of_nat len)%N.
Proof.
  induction len as [|len IH]; intros n acc.
  - exists []. repeat split. intros z. simpl.
    rewrite N.mod_1_r. lia.
  - cbn [to_bytes_loop].
    destruct (byte_of_N_mod n) as [x [-> Hx]]. cbn [bind].
    destruct (IH (n / 256)%N (x :: acc)) as [bs [-> [Hl Hf]]].
    exists (bs ++ [x]). split; [now rewrite <- app_assoc|].
    split; [rewrite length_app; simpl; lia|].
    intros z. rewrite fold_left_app, Hf. cbn [fold_left].
    rewrite Nat2N.inj_succ, N.pow_succ_r', Hx.
    rewrite (N.Div0.mod_mul_r n 256). lia.
Qed.

Lemma to_bytes_Ok (n : N) (len : nat) (bs : bytes) :
  to_bytes n len = Ok bs ->
  length bs = len /\ from_bytes bs = n /\ (n < 256 ^ N.of_nat len)%N.
Proof.
  unfold to_bytes. destruct (256 ^ N.of_nat len <=? n)%N eqn:E; [discriminate|].
  apply N.leb_gt in E. intros H.
  destruct (to_bytes_loop_spec len n []) as [bs' [Hr [Hl Hf]]].
  rewrite Hr, app_nil_r in H. injection H as <-.
  repeat split; auto. unfold from_bytes. rewrite Hf.
  rewrite N.mod_small by assumption. lia.
Qed.

Lemma to_bytes_small (n : N) (len : nat) :
  (n < 256 ^ N.of_nat len)%N -> exists bs, to_bytes n len = Ok bs.
Proof.
  intros H. unfold to_bytes. apply N.leb_gt in H. rewrite H.
  destruct (to_bytes_loop_spec len n []) as [bs [Hr _]].
  rewrite app_nil_r in Hr. eauto.
Qed.

Lemma to_bytes_big (n : N) (len : nat) :
  (256 ^ N.of_nat len <= n)%N -> to_bytes n len = Err OverflowError.
Proof.
  intros H. unfold to_bytes. apply N.leb_le in H. now rewrite H.
Qed.

(** ** The frequency table in the container *)

(** The record loop of [compress] appends one record per item. *)
Lemma write_records (frequency : dict byte N) :
  forall output output',
    for_each
      (fun output '(c, f) => fb <- to_bytes f 4 ;; Ok (output ++ [c] ++ fb))
      frequency output = Ok output' ->
    exists recs,
      output' = output ++ concat recs /\ Forall2 is_record frequency recs.
Proof.
  induction frequency as [|[c f] d IH]; intros output output' H; simpl in H.
  - injection H as <-. exists []. simpl. now rewrite app_nil_r.
  - apply bind_Ok in H. destruct H as [out1 [H1 H]].
    apply bind_Ok in H1. destruct H1 as [fb [Hfb H1]]. injection H1 as <-.
    destruct (IH _ _ H) as [recs [-> Hrecs]].
    apply to_bytes_Ok in Hfb. destruct Hfb as [Hl [Hv _]].
    exists ((c :: fb) :: recs). split.
    + simpl. now rewrite <- !app_assoc.
    + constructor; [|assumption]. exists fb. auto.
Qed.

(** The record loop of [decompress] stores the items in the same order. *)
Lemma read_records (frequency : dict byte N) (recs : list bytes) :
  Forall2 is_record frequency recs ->
  forall rest d,
    HuffmanDecoder.read_frequency (length frequency) (concat recs ++ rest) d
    = Ok (fold_left (fun d kv => dict_set Byte.eqb d (fst kv) (snd kv))
            frequency d, rest).
Proof.
  induction 1 as [|[c f] rec items recs [fb [-> [Hl Hv]]] _ IH];
    intros rest d; [reflexivity|].
  simpl in Hv. subst f.
  do 4 (destruct fb as [|? fb]; [discriminate|]).
  destruct fb; [|discriminate].
  cbn [length HuffmanDecoder.read_frequency concat app HuffmanDecoder.read
         firstn skipn getitem nth_error bind fst].
  apply IH.
Qed.

(** ** Counting the symbols *)

Lemma count_of_set (d : dict byte N) (c c' : byte) (v : N) :
  count_of (dict_set Byte.eqb d c v) c' = if Byte.eqb c c' then v else count_of d c'.
Proof.
  unfold count_of. destruct (Byte.eqb c c') eqn:E.
  - apply byte_eqb_eq in E; subst.
    now rewrite (dict_get_set_eq Byte.eqb byte_eqb_eq).
  - rewrite (dict_get_set_neq Byte.eqb byte_eqb_eq); [reflexivity|].
    intros ->. rewrite (eqb_refl Byte.eqb byte_eqb_eq) in E. discriminate.
Qed.

Lemma fold_count_char (data : bytes) :
  forall d,
    NoDup (keys d) ->
    let d' := fold_left HuffmanEncoder.count_char data d in
    NoDup (keys d') /\
    (forall c, In c (keys d') <-> In c (keys d) \/ In c data) /\
    (forall c, count_of d' c
               = (count_of d c + N.of_nat (count_occ Byte.byte_eq_dec data c))%N).
Proof.
  induction data as [|x data IH]; intros d Hnd; simpl.
  - repeat split; auto; try tauto. intros c. lia.
  - destruct (IH (HuffmanEncoder.count_char d x)) as [H1 [H2 H3]].
    { now apply (NoDup_dict_set Byte.eqb byte_eqb_eq). }
    split; [exact H1|]. split.
    + intros c. rewrite H2. unfold HuffmanEncoder.count_char.
      rewrite keys_dict_set.
      destruct (existsb (Byte.eqb x) (keys d)) eqn:E.
      * apply (existsb_eqb_In Byte.eqb byte_eqb_eq) in E.
        intuition (subst; auto).
      * rewrite in_app_iff. simpl. intuition (subst; auto).
    + intros c. rewrite H3. unfold HuffmanEncoder.count_char.
      rewrite count_of_set. fold (count_of d x).
      destruct (Byte.byte_eq_dec x c) as [->|Hne].
      * rewrite (eqb_refl Byte.eqb byte_eqb_eq). lia.
      * rewrite (eqb_neq Byte.eqb byte_eqb_eq) by assumption. lia.
Qed.

(** The frequency table holds each byte value of the data once, with the
    number of its occurrences. *)
Lemma build_frequency_dict_spec (data : bytes) :
  NoDup (keys (HuffmanEncoder.build_frequency_dict data)) /\
  (forall c, In c (keys (HuffmanEncoder.build_frequency_dict data)) <-> In c data) /\
  (forall c, count_of (HuffmanEncoder.build_frequency_dict data) c
             = N.of_nat (count_occ Byte.byte_eq_dec data c)).
Proof.
  destruct (@fold_count_char data []) as [H1 [H2 H3]]; [constructor|].
  unfold HuffmanEncoder.build_frequency_dict.
  split; [exact H1|]. split.
  - intros c. rewrite (H2 c). simpl. tauto.
  - intros c. rewrite (H3 c). reflexivity.
Qed.

(** ** Decoding *)

Section Decode.
Variable root : HuffmanNode.

Local Abbreviation table := (code_list root []).
Local Abbreviation self := (HuffmanDecoder.mk (map swap_item table)).

Lemma reverse_keys : keys (map swap_item table) = map snd table.
Proof. unfold keys. rewrite map_map. reflexivity. Qed.

Lemma reverse_NoDup : NoDup (keys (map swap_item table)).
Proof.
  rewrite reverse_keys. apply incomparable_NoDup, code_list_incomparable.
Qed.

Lemma reverse_get_code (c : byte) (s : str) :
  In (c, s) table -> dict_get str_eqb (map swap_item table) s = Some c.
Proof.
  intros H. apply (In_dict_get str_eqb str_eqb_eq); [apply reverse_NoDup|].
  apply in_map_iff. exists (c, s). split; [reflexivity | exact H].
Qed.

(** A string that a code properly extends is not a code. *)
Lemma reverse_get_prefix (c : byte) (s q t : str) :
  In (c, s) table -> s = q ++ t -> t <> [] ->
  dict_get str_eqb (map swap_item table) q = None.
Proof.
  intros Hin Hs Ht.
  destruct (dict_get str_eqb (map swap_item table) q) as [c'|] eqn:E;
    [|reflexivity].
  apply (dict_get_In str_eqb str_eqb_eq) in E.
  apply in_map_iff in E. destruct E as [[c0 s0] [[= -> ->] E]].
  exfalso.
  assert (Hq : q = s).
  { apply (@code_list_prefix_eq root [] q s).
    - apply in_map_iff. exists (c', q). auto.
    - apply in_map_iff. exists (c, s). auto.
    - exists t. exact Hs. }
  subst q. rewrite <- (app_nil_r s) in Hs at 1.
  apply app_inv_head in Hs. congruence.
Qed.

(** Reading the rest of a code, bit by bit, emits its symbol at the
    last bit and nothing before. *)
Lemma decode_code_from (c : byte) (s : str) :
  In (c, s) table ->
  forall t q out rest,
    s = q ++ t -> t <> [] ->
    fold_left (HuffmanDecoder.decode_step self) (t ++ rest) (q, out)
    = fold_left (HuffmanDecoder.decode_step self) rest ([], out ++ [c]).
Proof.
  intros Hin. induction t as [|bit t IH]; intros q out rest Hs Ht;
    [congruence|].
  cbn [app fold_left]. unfold HuffmanDecoder.decode_step at 2.
  cbn [HuffmanDecoder.reverse_mapping].
  assert (Hs' : s = (q ++ [bit]) ++ t) by (now rewrite <- app_assoc).
  destruct t as [|bit' t].
  - rewrite app_nil_r in Hs'. rewrite <- Hs'.
    rewrite (reverse_get_code _ _ Hin). reflexivity.
  - rewrite (@reverse_get_prefix c s (q ++ [bit]) (bit' :: t) Hin Hs')
      by discriminate.
    apply IH; [exact Hs' | discriminate].
Qed.

Lemma decode_code (c : byte) (s : str) (out : bytes) (rest : str) :
  In (c, s) table -> s <> [] ->
  fold_left (HuffmanDecoder.decode_step self) (s ++ rest) ([], out)
  = fold_left (HuffmanDecoder.decode_step self) rest ([], out ++ [c]).
Proof.
  intros Hin Hne. now apply decode_code_from with (s := s).
Qed.

(** Reading a proper prefix of a code emits nothing. *)
Lemma decode_partial_from (c : byte) (s : str) :
  In (c, s) table ->
  forall t q out u,
    s = q ++ t ++ u -> u <> [] ->
    fold_left (HuffmanDecoder.decode_step self) t (q, out) = (q ++ t, out).
Proof.
  intros Hin. induction t as [|bit t IH]; intros q out u Hs Hu.
  - simpl. now rewrite app_nil_r.
  - cbn [app fold_left]. unfold HuffmanDecoder.decode_step at 2.
    cbn [HuffmanDecoder.reverse_mapping].
    assert (Hs' : s = (q ++ [bit]) ++ t ++ u) by (now rewrite <- app_assoc).
    rewrite (@reverse_get_prefix c s (q ++ [bit]) (t ++ u) Hin Hs').
    + rewrite (IH _ _ _ Hs' Hu). now rewrite <- app_assoc.
    + intros H. apply app_eq_nil in H. tauto.
Qed.

Variable encoder : HuffmanEncoder.t.
Hypothesis codes_table : HuffmanEncoder.codes encoder = table.
Hypothesis leaves_NoDup : NoDup (leaves root).

(** The encoding loop succeeds on data over the symbols of the tree,
    and the decoding loop reads the data back from its output. *)
Lemma encode_decode (data : bytes) :
  (forall c, In c data -> In c (leaves root)) ->
  forall acc,
    exists enc,
      for_each
        (fun encoded_text c =>
           match dict_get Byte.eqb (HuffmanEncoder.codes encoder) c with
           | Some code => Ok (encoded_text ++ code)
           | None => Err KeyError
           end) data acc = Ok (acc ++ enc) /\
      bit_string enc /\
      forall out rest,
        char root = None ->
        fold_left (HuffmanDecoder.decode_step self) (enc ++ rest) ([], out)
        = fold_left (HuffmanDecoder.decode_step self) rest ([], out ++ data).
Proof.
  induction data as [|c data IH]; intros Hdata acc.
  - exists []. simpl. rewrite !app_nil_r. repeat split; [constructor|].
    intros out rest _. now rewrite app_nil_r.
  - assert (Hc : exists s, In (c, s) table).
    { assert (H : In c (map fst table)).
      { unfold table. rewrite code_list_leaves. apply Hdata. now left. }
      apply in_map_iff in H. destruct H as [[c' s] [[= ->] H]]. eauto. }
    destruct Hc as [s Hs].
    assert (Hget : dict_get Byte.eqb (HuffmanEncoder.codes encoder) c = Some s).
    { rewrite codes_table.
      apply (In_dict_get Byte.eqb byte_eqb_eq); [|exact Hs].
      unfold keys, table. now rewrite code_list_leaves. }
    cbn [for_each]. rewrite Hget. cbn [bind].
    destruct (IH (fun c' H => Hdata c' (or_intror H)) (acc ++ s))
      as [enc [Hr [Hb Hd]]].
    exists (s ++ enc). rewrite Hr, <- app_assoc.
    split; [reflexivity|]. split.
    + apply Forall_app. split; [|exact Hb].
      apply (@code_list_bits root [] c s); [constructor | exact Hs].
    + intros out rest root_internal. rewrite <- app_assoc.
      rewrite (@decode_code c s); [| exact Hs |].
      * rewrite Hd, <- app_assoc by assumption. reflexivity.
      * destruct (@code_list_internal root [] c s root_internal Hs)
          as [bit [t [_ ->]]]. discriminate.
Qed.
End Decode.

(** ** The stages of [compress] and [decompress] *)

Lemma compress_inv (data : bytes) (self : HuffmanEncoder.t) (output : bytes) :
  HuffmanEncoder.compress HuffmanEncoder.init data = Ok (self, output) ->
  exists heap root encoded_text byte_array size recs,
    HuffmanEncoder.build_heap (HuffmanEncoder.build_frequency_dict data)
      = Ok heap /\
    HuffmanEncoder.build_huffman_tree heap = Ok root /\
    self = HuffmanEncoder.build_codes HuffmanEncoder.init root /\
    HuffmanEncoder.get_encoded_text self data = Ok encoded_text /\
    HuffmanEncoder.get_byte_array
      (HuffmanEncoder.pad_encoded_text encoded_text) = Ok byte_array /\
    to_bytes
      (N.of_nat (length (HuffmanEncoder.build_frequency_dict data))) 2
      = Ok size /\
    Forall2 is_record (HuffmanEncoder.build_frequency_dict data) recs /\
    output = size ++ concat recs ++ byte_array.
Proof.
  unfold HuffmanEncoder.compress. intros H.
  apply bind_Ok in H. destruct H as [heap [Hheap H]].
  apply bind_Ok in H. destruct H as [root [Hroot H]].
  apply bind_Ok in H. destruct H as [enc [Henc H]].
  apply bind_Ok in H. destruct H as [bs [Hbs H]].
  apply bind_Ok in H. destruct H as [size [Hsize H]].
  apply bind_Ok in H. destruct H as [out [Hout H]].
  injection H as <- <-.
  apply write_records in Hout. destruct Hout as [recs [-> Hrecs]].
  exists heap, root, enc, bs, size, recs.
  repeat split; auto. now rewrite <- app_assoc.
Qed.

Lemma compress_Ok_inv (data output : bytes) :
  compress data = Ok output ->
  exists self, HuffmanEncoder.compress HuffmanEncoder.init data = Ok (self, output).
Proof.
  unfold compress. intros H.
  apply bind_Ok in H. destruct H as [[self out] [H1 H]].
  injection H as <-. eauto.
Qed.

(** [decompress] reads the table that [compress] wrote, item for item. *)
Lemma read_header_written (frequency : dict byte N) (size : bytes)
    (recs : list bytes) (rest : bytes) :
  NoDup (keys frequency) ->
  to_bytes (N.of_nat (length frequency)) 2 = Ok size ->
  Forall2 is_record frequency recs ->
  HuffmanDecoder.read_header (size ++ concat recs ++ rest)
  = Ok (frequency, rest).
Proof.
  intros Hnd Hsize Hrecs.
  apply to_bytes_Ok in Hsize. destruct Hsize as [Hl [Hv _]].
  unfold HuffmanDecoder.read_header, HuffmanDecoder.read.
  rewrite <- Hl at 1 2.
  rewrite firstn_app_exact, skipn_app_exact, Hv, Nat2N.id.
  rewrite (read_records Hrecs).
  now rewrite (fold_dict_set_new Byte.eqb byte_eqb_eq).
Qed.

Lemma pad_bit_string (s : str) :
  bit_string s -> bit_string (HuffmanEncoder.pad_encoded_text s).
Proof.
  intros Hs. rewrite pad_encoded_text_eq.
  destruct (format_08b_small (k := extra_padding s)) as [_ [Hb _]];
    [apply extra_padding_range|].
  apply Forall_app. split; [exact Hb|].
  apply Forall_app. split; [exact Hs|].
  apply Forall_forall. intros c Hc. apply repeat_spec in Hc. now left.
Qed.

(** The packed bytes expand to the padded bit string. *)
Lemma read_bits_packed (s : str) (byte_array : bytes) :
  bit_string s ->
  HuffmanEncoder.get_byte_array (HuffmanEncoder.pad_encoded_text s)
    = Ok byte_array ->
  HuffmanDecoder.read_bits byte_array [] = HuffmanEncoder.pad_encoded_text s.
Proof.
  intros Hs Hbs.
  destruct (get_byte_array_spec (padded_length_mod s) (pad_bit_string Hs))
    as [bs [Hbs' Hread]].
  congruence.
Qed.

Lemma two_distinct_length (data : bytes) :
  two_distinct data ->
  2 <= length (HuffmanEncoder.build_frequency_dict data).
Proof.
  intros [x [y [Hx [Hy Hne]]]].
  destruct (build_frequency_dict_spec data) as [_ [Hk _]].
  apply Hk in Hx, Hy. unfold keys in *.
  rewrite <- (length_map fst).
  destruct (map fst (HuffmanEncoder.build_frequency_dict data)) as [|a [|b l]];
    simpl in *; [tauto | | lia].
  destruct Hx as [<-|[]], Hy as [<-|[]]. congruence.
Qed.

(** What [decompress] returns for a container of [compress], in terms
    of the tree. *)
Lemma decompress_written (data output : bytes) (self : HuffmanEncoder.t) :
  HuffmanEncoder.compress HuffmanEncoder.init data = Ok (self, output) ->
  exists heap root encoded_text byte_array,
    HuffmanEncoder.build_heap (HuffmanEncoder.build_frequency_dict data)
      = Ok heap /\
    HuffmanEncoder.build_huffman_tree heap = Ok root /\
    self = HuffmanEncoder.build_codes HuffmanEncoder.init root /\
    Permutation (leaves root) (keys (HuffmanEncoder.build_frequency_dict data)) /\
    HuffmanEncoder.get_encoded_text self data = Ok encoded_text /\
    bit_string encoded_text /\
    HuffmanDecoder.read_header output
      = Ok (HuffmanEncoder.build_frequency_dict data, byte_array) /\
    HuffmanDecoder.read_bits byte_array []
      = HuffmanEncoder.pad_encoded_text encoded_text /\
    HuffmanDecoder.decompress HuffmanDecoder.init output
      = Ok (HuffmanDecoder.mk (map swap_item (code_list root [])),
            HuffmanDecoder.decode_text
              (HuffmanDecoder.mk (map swap_item (code_list root [])))
              encoded_text) /\
    (char root = None ->
     HuffmanDecoder.decode_text
       (HuffmanDecoder.mk (map swap_item (code_list root []))) encoded_text
     = data).
Proof.
  intros H. apply compress_inv in H.
  destruct H as [heap [root [enc [bs [size [recs
    [Hheap [Hroot [Hself [Henc [Hbs [Hsize [Hrecs ->]]]]]]]]]]]]].
  destruct (build_frequency_dict_spec data) as [Hnd [Hkeys _]].
  set (frequency := HuffmanEncoder.build_frequency_dict data) in *.
  assert (Hne : frequency <> []).
  { intros E. rewrite E in Hheap. injection Hheap as <-. discriminate. }
  destruct (tree_of_table Hne) as [heap' [root' [Hh' [Hr' [Hperm _]]]]].
  assert (heap' = heap) by congruence. subst heap'.
  assert (root' = root) by congruence. subst root'.
  assert (Hleaves : NoDup (leaves root)).
  { eapply Permutation_NoDup; [apply Permutation_sym, Hperm | exact Hnd]. }
  assert (Hcodes : HuffmanEncoder.codes self = code_list root []).
  { subst self. now apply build_codes_codes. }
  assert (Hdata : forall c, In c data -> In c (leaves root)).
  { intros c Hc. eapply Permutation_in; [apply Permutation_sym, Hperm|].
    now apply Hkeys. }
  destruct (@encode_decode root self Hcodes Hleaves data Hdata [])
    as [enc' [Hr [Hbits Hdec]]].
  unfold HuffmanEncoder.get_encoded_text in Henc.
  rewrite Hr in Henc. injection Henc as Henc. simpl in Henc. subst enc'.
  pose proof (read_header_written bs Hnd Hsize Hrecs) as Hhead.
  pose proof (read_bits_packed Hbits Hbs) as Hread.
  exists heap, root, enc, bs.
  repeat split; auto.
  - unfold HuffmanDecoder.decompress. rewrite Hhead. cbn [bind].
    unfold HuffmanDecoder.rebuild. fold frequency.
    rewrite Hheap. cbn [bind]. rewrite Hroot. cbn [bind].
    rewrite build_codes_reverse, Hread, remove_padding_pad. reflexivity.
  - intros Hint. unfold HuffmanDecoder.decode_text, HuffmanDecoder.decode_loop.
    specialize (Hdec [] [] Hint). rewrite app_nil_r in Hdec.
    exact (f_equal snd Hdec).
Qed.

(** ** When [compress] produces a container *)

Lemma NoDup_map_injective (A B : Type) (f : A -> B) (l : list A) :
  (forall x y, f x = f y -> x = y) -> NoDup l -> NoDup (map f l).
Proof.
  intros Hf. induction 1 as [|x l Hx Hl IH]; simpl; constructor; auto.
  intros Hin. apply in_map_iff in Hin. destruct Hin as [y [Hy Hin]].
  apply Hf in Hy. now subst.
Qed.

(** There are 256 byte values. *)
Lemma NoDup_bytes_length (l : list byte) : NoDup l -> length l <= 256.
Proof.
  intros H.
  assert (Hl : length (map Byte.to_nat l) <= length (seq 0 256));
    [|now rewrite length_map, length_seq in Hl].
  apply NoDup_incl_length.
  - apply NoDup_map_injective; [|exact H].
    intros x y E. apply (f_equal Byte.of_nat) in E.
    rewrite !Byte.of_to_nat in E. now injection E.
  - intros n Hn. apply in_map_iff in Hn. destruct Hn as [x [<- _]].
    apply in_seq. pose proof (Byte.to_nat_bounded x). lia.
Qed.

Lemma write_records_Ok (frequency : dict byte N) :
  Forall (fun item => (snd item < 2 ^ 32)%N) frequency ->
  forall output,
    exists output',
      for_each
        (fun output '(c, f) => fb <- to_bytes f 4 ;; Ok (output ++ [c] ++ fb))
        frequency output = Ok output'.
Proof.
  induction 1 as [|[c f] d Hf _ IH]; intros output; simpl; [eauto|].
  destruct (@to_bytes_small f 4) as [fb ->]; [exact Hf|]. cbn [bind].
  apply IH.
Qed.

Lemma write_records_bound (frequency : dict byte N) :
  forall output output',
    for_each
      (fun output '(c, f) => fb <- to_bytes f 4 ;; Ok (output ++ [c] ++ fb))
      frequency output = Ok output' ->
    Forall (fun item => (snd item < 2 ^ 32)%N) frequency.
Proof.
  induction frequency as [|[c f] d IH]; intros output output' H; simpl in H;
    [constructor|].
  apply bind_Ok in H. destruct H as [out1 [H1 H]].
  apply bind_Ok in H1. destruct H1 as [fb [Hfb _]].
  apply to_bytes_Ok in Hfb. destruct Hfb as [_ [_ Hf]].
  constructor; [exact Hf | eapply IH; eassumption].
Qed.

Lemma frequency_items (data : bytes) (c : byte) (f : N) :
  In (c, f) (HuffmanEncoder.build_frequency_dict data) ->
  f = N.of_nat (count_occ Byte.byte_eq_dec data c).
Proof.
  intros Hin. destruct (build_frequency_dict_spec data) as [Hnd [_ Hcount]].
  rewrite <- Hcount. unfold count_of.
  now rewrite (In_dict_get Byte.eqb byte_eqb_eq _ _ _ Hnd Hin).
Qed.

(** [compress] writes a container for every non-empty input in which no
    byte value occurs 2^32 times or more. *)
Lemma compress_Ok (data : bytes) :
  data <> [] ->
  (forall c, (N.of_nat (count_occ Byte.byte_eq_dec data c) < 2 ^ 32)%N) ->
  exists container, compress data = Ok container.
Proof.
  intros Hne Hcount.
  destruct (build_frequency_dict_spec data) as [Hnd [Hkeys _]].
  pose proof (@frequency_items data) as Hitems.
  set (frequency := HuffmanEncoder.build_frequency_dict data) in *.
  assert (Hfne : frequency <> []).
  { intros E. destruct data as [|x data]; [congruence|].
    assert (Hx : In x (keys frequency)) by (apply Hkeys; now left).
    rewrite E in Hx. contradiction. }
  destruct (tree_of_table Hfne) as [heap [root [Hheap [Hroot [Hperm _]]]]].
  assert (Hleaves : NoDup (leaves root)).
  { eapply Permutation_NoDup; [apply Permutation_sym, Hperm | exact Hnd]. }
  assert (Hdata : forall c, In c data -> In c (leaves root)).
  { intros c Hc. eapply Permutation_in; [apply Permutation_sym, Hperm|].
    now apply Hkeys. }
  destruct (@encode_decode root
              (HuffmanEncoder.build_codes HuffmanEncoder.init root)
              (@build_codes_codes root Hleaves) Hleaves data Hdata [])
    as [enc [Henc [Hbits _]]].
  destruct (get_byte_array_spec (padded_length_mod enc) (pad_bit_string Hbits))
    as [bs [Hbs _]].
  destruct (@to_bytes_small (N.of_nat (length frequency)) 2) as [size Hsize].
  { pose proof (NoDup_bytes_length Hnd) as Hl. unfold keys in Hl.
    rewrite length_map in Hl. change (2 ^ N.of_nat 2)%N with 4%N.
    change (256 ^ 4)%N with 4294967296%N. lia. }
  destruct (@write_records_Ok frequency) with (output := size) as [out Hout].
  { apply Forall_forall. intros [c f] Hin. simpl.
    rewrite (Hitems c f Hin). apply Hcount. }
  exists (out ++ bs). unfold compress, HuffmanEncoder.compress.
  fold frequency. rewrite Hheap. cbn [bind]. rewrite Hroot. cbn [bind].
  change ([] ++ enc) with enc in Henc.
  unfold HuffmanEncoder.get_encoded_text. rewrite Henc. cbn [bind].
  rewrite Hbs. cbn [bind]. rewrite Hsize. cbn [bind].
  rewrite Hout. reflexivity.
Qed.

(** It writes none for the empty input, where the heap is empty, ... *)
Lemma compress_empty : compress [] = Err IndexError.
Proof. reflexivity. Qed.

(** ... and none when a count does not fit the four bytes of a record. *)
Lemma compress_Ok_bound (data container : bytes) :
  compress data = Ok container ->
  data <> [] /\
  forall c, (N.of_nat (count_occ Byte.byte_eq_dec data c) < 2 ^ 32)%N.
Proof.
  intros Hc. split; [intros ->; discriminate|].
  intros c. unfold compress, HuffmanEncoder.compress in Hc.
  apply bind_Ok in Hc. destruct Hc as [[self out] [H _]].
  apply bind_Ok in H. destruct H as [heap [_ H]].
  apply bind_Ok in H. destruct H as [root [_ H]].
  apply bind_Ok in H. destruct H as [enc [_ H]].
  apply bind_Ok in H. destruct H as [bs [_ H]].
  apply bind_Ok in H. destruct H as [size [_ H]].
  apply bind_Ok in H. destruct H as [recs [H _]].
  apply write_records_bound in H. rewrite Forall_forall in H.
  destruct (build_frequency_dict_spec data) as [_ [Hkeys Hcount]].
  rewrite <- Hcount. unfold count_of.
  destruct (dict_get Byte.eqb (HuffmanEncoder.build_frequency_dict data) c)
    as [f|] eqn:E; [|reflexivity].
  apply (dict_get_In Byte.eqb byte_eqb_eq) in E. exact (H _ E).
Qed.

Lemma two_distinct_internal (data : bytes) (heap : list HuffmanNode)
    (root : HuffmanNode) :
  two_distinct data ->
  HuffmanEncoder.build_heap (HuffmanEncoder.build_frequency_dict data)
    = Ok heap ->
  HuffmanEncoder.build_huffman_tree heap = Ok root ->
  char root = None.
Proof.
  intros Htwo Hheap Hroot. apply two_distinct_length in Htwo.
  set (frequency := HuffmanEncoder.build_frequency_dict data) in *.
  assert (Hne : frequency <> [])
    by (intros E; rewrite E in Htwo; simpl in Htwo; lia).
  destruct (tree_of_table Hne) as [heap' [root' [Hh' [Hr' [_ Hint]]]]].
  assert (heap' = heap) by congruence. subst heap'.
  assert (root' = root) by congruence. subst root'.
  assert (Hlt : (1 <? length frequency) = true) by (apply Nat.ltb_lt; lia).
  now rewrite Hlt in Hint.
Qed.

(** C9: for every byte sequence with at least two distinct byte values,
    decompressing the container that [compress] produced returns the
    sequence; on the way the decoder stores the frequency records in the
    order the encoder wrote them, so that it reads back the encoder's own
    table and rebuilds the same tree from it.  [compress] produces the
    container whenever every count fits the four bytes of its record. *)
Theorem roundtrip_two_symbols (data : bytes) :
  two_distinct data ->
  (forall container,
     compress data = Ok container ->
     (exists packed,
        HuffmanDecoder.read_header container
        = Ok (HuffmanEncoder.build_frequency_dict data, packed)) /\
     decompress container = Ok data) /\
  ((forall c, (N.of_nat (count_occ Byte.byte_eq_dec data c) < 2 ^ 32)%N) ->
   exists container, compress data = Ok container).
Proof.
  intros Htwo. split.
  - intros container Hc.
    apply compress_Ok_inv in Hc. destruct Hc as [self Hc].
    destruct (@decompress_written data container self Hc)
      as [heap [root [enc [bs
           [Hheap [Hroot [_ [_ [_ [_ [Hhead [_ [Hdec Hdata]]]]]]]]]]]]].
    split; [eauto|].
    unfold decompress. rewrite Hdec. cbn [bind]. f_equal. apply Hdata.
    exact (two_distinct_internal Htwo Hheap Hroot).
  - apply compress_Ok. destruct Htwo as [x [_ [Hx _]]].
    intros ->. contradiction.
Qed.

(** ** The single-symbol table *)

(** C2: the claim asks for a code of length at least 1 for every symbol,
    also with one distinct symbol.  For a table with one item the merge
    loop of [build_huffman_tree] does not run, the root is the bare leaf,
    and [build_codes] gives the symbol the empty code. *)
Theorem single_symbol_code_empty (c : byte) (f : N) :
  code_table [(c, f)]
  = Ok (HuffmanEncoder.mk [(c, [])] [([], c)]) /\
  (forall self,
     code_table [(c, f)] = Ok self ->
     exists code,
       dict_get Byte.eqb (HuffmanEncoder.codes self) c = Some code /\
       length code = 0).
Proof.
  split; [reflexivity|].
  intros self H. injection H as <-. exists []. simpl.
  rewrite (eqb_refl Byte.eqb byte_eqb_eq). split; reflexivity.
Qed.

(** With two or more symbols the root is an internal node and every code
    has at least one bit. *)
Lemma codes_nonempty (frequency : dict byte N) :
  2 <= length frequency ->
  exists self,
    code_table frequency = Ok self /\
    forall c code,
      dict_get Byte.eqb (HuffmanEncoder.codes self) c = Some code ->
      1 <= length code.
Proof.
  intros Hlen.
  assert (Hne : frequency <> []) by (intros ->; simpl in Hlen; lia).
  destruct (tree_of_table Hne) as [heap [root [Hheap [Hroot [_ Hint]]]]].
  assert (Hlt : (1 <? length frequency) = true) by (apply Nat.ltb_lt; lia).
  rewrite Hlt in Hint.
  exists (HuffmanEncoder.build_codes HuffmanEncoder.init root). split.
  - unfold code_table. rewrite Hheap. cbn [bind]. now rewrite Hroot.
  - intros c code H. unfold HuffmanEncoder.build_codes in H.
    rewrite build_codes_helper_fold, fold_assign_codes in H.
    apply (dict_get_fold_set Byte.eqb byte_eqb_eq) in H.
    destruct H as [H|H]; [|discriminate].
    destruct (@code_list_internal root [] c code Hint H) as [bit [t [_ ->]]].
    simpl. lia.
Qed.

(** ** Prefix freedom *)

(** C6: for every non-empty frequency table the tree and the code table
    are built, and no symbol's code is a proper prefix of another
    symbol's code. *)
Theorem codes_prefix_free (frequency : dict byte N) :
  frequency <> [] ->
  exists self,
    code_table frequency = Ok self /\
    forall c1 c2 code1 code2,
      dict_get Byte.eqb (HuffmanEncoder.codes self) c1 = Some code1 ->
      dict_get Byte.eqb (HuffmanEncoder.codes self) c2 = Some code2 ->
      ~ proper_prefix code1 code2.
Proof.
  intros Hne.
  destruct (tree_of_table Hne) as [heap [root [Hheap [Hroot _]]]].
  exists (HuffmanEncoder.build_codes HuffmanEncoder.init root). split.
  - unfold code_table. rewrite Hheap. cbn [bind]. now rewrite Hroot.
  - intros c1 c2 code1 code2 H1 H2 [Hp Hneq].
    unfold HuffmanEncoder.build_codes in H1, H2.
    rewrite build_codes_helper_fold, fold_assign_codes in H1, H2.
    apply (dict_get_fold_set Byte.eqb byte_eqb_eq) in H1, H2.
    destruct H1 as [H1|H1]; [|discriminate].
    destruct H2 as [H2|H2]; [|discriminate].
    apply Hneq, (@code_list_prefix_eq root [] code1 code2); [| |exact Hp].
    + apply in_map_iff. exists (c1, code1). auto.
    + apply in_map_iff. exists (c2, code2). auto.
Qed.

Lemma codes_prefix_free_witness :
  exists self,
    code_table [("a"%byte, 3%N); ("b"%byte, 2%N); ("c"%byte, 1%N)] = Ok self /\
    forall c1 c2 code1 code2,
      dict_get Byte.eqb (HuffmanEncoder.codes self) c1 = Some code1 ->
      dict_get Byte.eqb (HuffmanEncoder.codes self) c2 = Some code2 ->
      ~ proper_prefix code1 code2.
Proof.
  apply (@codes_prefix_free [("a"%byte, 3%N); ("b"%byte, 2%N); ("c"%byte, 1%N)]).
  discriminate.
Defined.

(** ** The padding count *)

(** The padding-count field, read back, is the number of filler bits. *)
Lemma padding_field_value (s : str) :
  int2 (firstn 8 (HuffmanEncoder.pad_encoded_text s))
  = Ok (N.of_nat (extra_padding s)).
Proof.
  rewrite pad_encoded_text_eq.
  destruct (format_08b_small (k := extra_padding s)) as [Hl [_ Hi]];
    [apply extra_padding_range|].
  rewrite <- Hl at 1. now rewrite firstn_app_exact.
Qed.

(** C4, as the code has it: the padding step appends
    [8 - len mod 8] zero bits, a number between 1 and 8: the least
    positive number of bits that makes the length a multiple of 8.  The
    padding-count field holds that number, so a value from 1 to 8. *)
Theorem padding_count_positive (encoded_text : str) :
  1 <= extra_padding encoded_text <= 8 /\
  HuffmanEncoder.pad_encoded_text encoded_text
  = format_08b (N.of_nat (extra_padding encoded_text))
    ++ encoded_text ++ repeat zero (extra_padding encoded_text) /\
  (length encoded_text + extra_padding encoded_text) mod 8 = 0 /\
  (forall k, 1 <= k -> (length encoded_text + k) mod 8 = 0 ->
             extra_padding encoded_text <= k) /\
  int2 (firstn 8 (HuffmanEncoder.pad_encoded_text encoded_text))
  = Ok (N.of_nat (extra_padding encoded_text)).
Proof.
  pose proof (extra_padding_range encoded_text) as Hk.
  pose proof (Nat.div_mod_eq (length encoded_text) 8) as Hd.
  pose proof (Nat.mod_upper_bound (length encoded_text) 8) as Hm.
  split; [exact Hk|]. split; [apply pad_encoded_text_eq|]. split; [|split].
  - unfold extra_padding in *.
    replace (length encoded_text + (8 - length encoded_text mod 8))
      with ((1 + length encoded_text / 8) * 8) by lia.
    apply Nat.Div0.mod_mul.
  - intros k Hk1 Hk0. unfold extra_padding in *.
    pose proof (Nat.div_mod_eq (length encoded_text + k) 8) as Hd'.
    rewrite Hk0 in Hd'. nia.
  - apply padding_field_value.
Qed.

(** C4 as stated fails on the empty bit string (and on every bit string
    whose length is a multiple of 8): no count from 0 to 7 describes the
    output, which carries eight filler bits. *)
Lemma padding_count_not_below_8 :
  ~ exists k,
      k <= 7 /\
      HuffmanEncoder.pad_encoded_text []
      = format_08b (N.of_nat k) ++ [] ++ repeat zero k.
Proof.
  intros [k [Hk H]].
  do 8 (destruct k as [|k]; [discriminate H|]). lia.
Qed.

(** The only error of the grouping loop is that of [int] or of
    [bytearray.append]. *)
Lemma for_each_Err (A S : Type) (body : S -> A -> result S) (P : exn -> Prop)
    (xs : list A) :
  (forall s x e, body s x = Err e -> P e) ->
  forall s e, for_each body xs s = Err e -> P e.
Proof.
  intros Hbody. induction xs as [|x xs IH]; intros s e H; simpl in H;
    [discriminate|].
  destruct (body s x) as [s'|e'] eqn:E; simpl in H.
  - eapply IH; eassumption.
  - injection H as <-. eapply Hbody; eassumption.
Qed.

(** C5: the padded bit string has a length divisible by 8, so
    [get_byte_array] never takes its "not padded properly" exit on it
    (and packs it when it holds binary digits only), and the padding-count
    field, read back by [int(..., 2)], is the number of zero bits that
    were appended. *)
Theorem padding_exact (encoded_text : str) :
  length (HuffmanEncoder.pad_encoded_text encoded_text) mod 8 = 0 /\
  HuffmanEncoder.get_byte_array (HuffmanEncoder.pad_encoded_text encoded_text)
  <> Err SystemExit /\
  (bit_string encoded_text ->
   exists byte_array,
     HuffmanEncoder.get_byte_array
       (HuffmanEncoder.pad_encoded_text encoded_text) = Ok byte_array) /\
  exists k,
    HuffmanEncoder.pad_encoded_text encoded_text
    = format_08b (N.of_nat k) ++ encoded_text ++ repeat zero k /\
    int2 (firstn 8 (HuffmanEncoder.pad_encoded_text encoded_text))
    = Ok (N.of_nat k).
Proof.
  split; [apply padded_length_mod|]. split; [|split].
  - unfold HuffmanEncoder.get_byte_array.
    rewrite padded_length_mod. cbn [Nat.eqb negb].
    intros H.
    eapply (@for_each_Err _ _ _ (fun e => e <> SystemExit)) in H;
      [now apply H|].
    clear H. intros s i e H. unfold bind in H.
    destruct (int2 _) as [v|e1] eqn:E1.
    + unfold byte_of_N in H. destruct (Byte.of_N v); [discriminate|].
      injection H as <-. discriminate.
    + injection H as <-. revert E1. unfold int2.
      destruct (slice _ _ _) as [|c t]; [intros [= <-]; discriminate|].
      generalize 0%N. generalize (c :: t). clear.
      intros l. induction l as [|c l IH]; intros acc H; simpl in H;
        [discriminate|].
      destruct (Ascii.eqb c zero); [eauto|].
      destruct (Ascii.eqb c one); [eauto|].
      injection H as <-. discriminate.
  - intros Hb.
    destruct (get_byte_array_spec (padded_length_mod encoded_text)
                (pad_bit_string Hb)) as [bs [Hbs _]].
    eauto.
  - exists (extra_padding encoded_text).
    split; [apply pad_encoded_text_eq | apply padding_field_value].
Qed.

(** ** The layout of the container *)

Lemma records_length (frequency : dict byte N) (recs : list bytes) :
  Forall2 is_record frequency recs ->
  length (concat recs) = 5 * length frequency.
Proof.
  induction 1 as [|item rec items recs [fb [-> [Hl _]]] _ IH]; [reflexivity|].
  cbn [concat length]. rewrite length_app, IH. simpl. lia.
Qed.

(** The first packed byte is the padding count; the bytes after it hold
    the code bits and the filler. *)
Lemma packed_first_byte (s : str) (byte_array : bytes) :
  bit_string s ->
  HuffmanEncoder.get_byte_array (HuffmanEncoder.pad_encoded_text s)
    = Ok byte_array ->
  exists padding rest,
    byte_array = padding :: rest /\
    Byte.to_N padding = N.of_nat (extra_padding s) /\
    HuffmanDecoder.read_bits rest [] = s ++ repeat zero (extra_padding s).
Proof.
  intros Hs Hbs. pose proof (read_bits_packed Hs Hbs) as Hread.
  destruct (format_08b_small (k := extra_padding s)) as [Hl [_ Hi]];
    [apply extra_padding_range|].
  destruct byte_array as [|padding rest].
  - apply (f_equal (@length ascii)) in Hread.
    rewrite padded_length in Hread. simpl in Hread. lia.
  - exists padding, rest. split; [reflexivity|].
    rewrite read_bits_cons, pad_encoded_text_eq in Hread.
    pose proof (f_equal (firstn 8) Hread) as H1.
    pose proof (f_equal (skipn 8) Hread) as H2.
    rewrite <- (bits_of_byte_length padding) in H1 at 1.
    rewrite <- (bits_of_byte_length padding) in H2 at 1.
    rewrite <- Hl in H1 at 1. rewrite <- Hl in H2 at 1.
    rewrite !firstn_app_exact in H1. rewrite !skipn_app_exact in H2.
    split; [|exact H2].
    pose proof (int2_bits_of_byte padding) as Hp.
    rewrite H1, Hi in Hp. now injection Hp.
Qed.


(** C10: in every container of [compress] the padding-count byte, which
    follows the 2 + 5N bytes of the frequency table, holds a value from 1
    to 8, never 0; [remove_padding] then removes exactly that many bits,
    so at least one.  With a count of 0 the slice [[:-0]] would drop the
    whole bit sequence. *)
Theorem padding_byte_positive (data container : bytes) :
  compress data = Ok container ->
  (exists (table : bytes) (padding : byte) (packed : bytes) (encoded_text : str),
     container = table ++ padding :: packed /\
     length table
     = 2 + 5 * length (HuffmanEncoder.build_frequency_dict data) /\
     (1 <= Byte.to_N padding <= 8)%N /\
     HuffmanDecoder.remove_padding
       (HuffmanDecoder.read_bits (padding :: packed) []) = Ok encoded_text /\
     length encoded_text + N.to_nat (Byte.to_N padding) = 8 * length packed) /\
  (forall bits,
     HuffmanDecoder.remove_padding (format_08b 0 ++ bits) = Ok []).
Proof.
  intros Hc. split; [|reflexivity].
  apply compress_Ok_inv in Hc. destruct Hc as [self Hc].
  destruct (@decompress_written data container self Hc)
    as [heap [root [enc [bs [_ [_ [_ [_ [Henc [Hbits [_ [Hread _]]]]]]]]]]]].
  apply compress_inv in Hc.
  destruct Hc as [heap' [root' [enc' [bs' [size [recs
    [_ [_ [_ [Henc' [Hbs [Hsize [Hrecs ->]]]]]]]]]]]]].
  assert (enc' = enc) by congruence. subst enc'.
  destruct (packed_first_byte Hbits Hbs) as [padding [packed [-> [Hp Hrest]]]].
  apply to_bytes_Ok in Hsize. destruct Hsize as [Hl _].
  pose proof (extra_padding_range enc) as Hk.
  exists (size ++ concat recs), padding, packed, enc.
  split; [now rewrite <- app_assoc|]. split.
  { rewrite length_app, Hl, (records_length Hrecs). reflexivity. }
  split; [rewrite Hp; lia|]. split.
  - rewrite (read_bits_packed Hbits Hbs). apply remove_padding_pad.
  - rewrite Hp, Nat2N.id, <- read_bits_length, Hrest, length_app, repeat_length.
    reflexivity.
Qed.

(** C8: for every container of [compress], the decoder reads the stored
    frequency table back and rebuilds from it the code table the encoder
    used: the same symbol-to-code pairs, and the same inverse. *)
Theorem code_table_fidelity (data container : bytes) (self : HuffmanEncoder.t) :
  HuffmanEncoder.compress HuffmanEncoder.init data = Ok (self, container) ->
  exists (frequency : dict byte N) (packed : bytes) (encoder : HuffmanEncoder.t),
    HuffmanDecoder.read_header container = Ok (frequency, packed) /\
    HuffmanDecoder.rebuild frequency = Ok encoder /\
    HuffmanEncoder.codes encoder = HuffmanEncoder.codes self /\
    HuffmanEncoder.reverse_mapping encoder
    = HuffmanEncoder.reverse_mapping self /\
    (forall c code,
       In (c, code) (HuffmanEncoder.codes encoder) <->
       In (c, code) (HuffmanEncoder.codes self)).
Proof.
  intros Hc.
  destruct (@decompress_written data container self Hc)
    as [heap [root [enc [bs [Hheap [Hroot [Hself [_ [_ [_ [Hhead _]]]]]]]]]]].
  exists (HuffmanEncoder.build_frequency_dict data), bs, self.
  split; [exact Hhead|]. split.
  - unfold HuffmanDecoder.rebuild. rewrite Hheap. cbn [bind].
    rewrite Hroot. cbn [bind]. now rewrite Hself.
  - repeat split; auto.
Qed.

(** ** A stream that ends inside a code *)

(** The encoding loop returns only when every byte of the data has a
    code. *)
Lemma encoded_symbols (self : HuffmanEncoder.t) (data : bytes) :
  forall acc encoded_text,
    for_each
      (fun encoded_text c =>
         match dict_get Byte.eqb (HuffmanEncoder.codes self) c with
         | Some code => Ok (encoded_text ++ code)
         | None => Err KeyError
         end) data acc = Ok encoded_text ->
    forall c, In c data -> In c (keys (HuffmanEncoder.codes self)).
Proof.
  induction data as [|x data IH]; intros acc enc H c Hc; [contradiction|].
  cbn [for_each] in H.
  destruct (dict_get Byte.eqb (HuffmanEncoder.codes self) x) as [code|] eqn:E;
    [|discriminate].
  cbn [bind] in H. destruct Hc as [<-|Hc].
  - apply (dict_get_In Byte.eqb byte_eqb_eq) in E.
    apply in_map_iff. exists (x, code). split; [reflexivity | exact E].
  - exact (IH _ _ H c Hc).
Qed.

(** C3, as the code has it: for the code table of any frequency table,
    when the bits run out inside a code, that is after the code bits of
    some data over the symbols of the table and a proper prefix of one
    more code, [decode_text] returns the data decoded so far and drops
    the unfinished bits, which are no code; no error is raised, and
    [decompress] of a file that holds this table and these bits returns
    the data. *)
Theorem truncated_stream_silent (frequency : dict byte N)
    (encoder : HuffmanEncoder.t) (data : bytes)
    (encoded_text partial code : str) (c : byte) :
  NoDup (keys frequency) ->
  HuffmanDecoder.rebuild frequency = Ok encoder ->
  HuffmanEncoder.get_encoded_text encoder data = Ok encoded_text ->
  dict_get Byte.eqb (HuffmanEncoder.codes encoder) c = Some code ->
  proper_prefix partial code ->
  HuffmanDecoder.decode_loop
    (HuffmanDecoder.mk (HuffmanEncoder.reverse_mapping encoder))
    (encoded_text ++ partial) = (partial, data) /\
  HuffmanDecoder.decode_text
    (HuffmanDecoder.mk (HuffmanEncoder.reverse_mapping encoder))
    (encoded_text ++ partial) = data /\
  dict_get str_eqb (HuffmanEncoder.reverse_mapping encoder) partial = None /\
  forall file packed : bytes,
    HuffmanDecoder.read_header file = Ok (frequency, packed) ->
    HuffmanDecoder.remove_padding (HuffmanDecoder.read_bits packed [])
    = Ok (encoded_text ++ partial) ->
    decompress file = Ok data.
Proof.
  intros Hnd Hre Henc Hcode [[u Hu] Hneq].
  assert (Hu' : u <> []).
  { intros ->. apply Hneq. now rewrite app_nil_r in Hu. }
  unfold HuffmanDecoder.rebuild in Hre.
  apply bind_Ok in Hre. destruct Hre as [heap [Hheap Hre]].
  apply bind_Ok in Hre. destruct Hre as [root [Hroot Hre]].
  assert (Hself : encoder = HuffmanEncoder.build_codes HuffmanEncoder.init root)
    by congruence.
  clear Hre.
  assert (Hne : frequency <> []).
  { intros E. rewrite E in Hheap. injection Hheap as <-. discriminate. }
  destruct (tree_of_table Hne) as [heap' [root' [Hh' [Hr' [Hperm _]]]]].
  assert (heap' = heap) by congruence. subst heap'.
  assert (root' = root) by congruence. subst root'.
  assert (Hleaves : NoDup (leaves root)).
  { eapply Permutation_NoDup; [apply Permutation_sym, Hperm | exact Hnd]. }
  assert (Hcodes : HuffmanEncoder.codes encoder = code_list root []).
  { subst encoder. now apply build_codes_codes. }
  assert (Hrev : HuffmanEncoder.reverse_mapping encoder
                 = map swap_item (code_list root [])).
  { subst encoder. apply build_codes_reverse. }
  assert (Hdata : forall x, In x data -> In x (leaves root)).
  { intros x Hx. unfold HuffmanEncoder.get_encoded_text in Henc.
    pose proof (encoded_symbols _ _ _ Henc x Hx) as Hk.
    rewrite Hcodes in Hk. unfold keys in Hk.
    now rewrite code_list_leaves in Hk. }
  rewrite Hcodes in Hcode. apply (dict_get_In Byte.eqb byte_eqb_eq) in Hcode.
  assert (Hint : char root = None).
  { destruct root as [[c0|] f l r]; [|reflexivity]. exfalso.
    cbn [code_list] in Hcode. destruct Hcode as [E|[]].
    injection E as _ E. subst code.
    symmetry in Hu. apply app_eq_nil in Hu. tauto. }
  destruct (@encode_decode root encoder Hcodes Hleaves data Hdata [])
    as [enc'' [Hr [_ Hdec]]].
  unfold HuffmanEncoder.get_encoded_text in Henc.
  rewrite Hr in Henc. injection Henc as Henc. simpl in Henc. subst enc''.
  assert (Hloop :
    HuffmanDecoder.decode_loop
      (HuffmanDecoder.mk (HuffmanEncoder.reverse_mapping encoder))
      (encoded_text ++ partial) = (partial, data)).
  { rewrite Hrev. unfold HuffmanDecoder.decode_loop.
    etransitivity; [exact (Hdec [] partial Hint)|].
    exact (@decode_partial_from root c code Hcode partial [] ([] ++ data) u
             Hu Hu'). }
  assert (Htext :
    HuffmanDecoder.decode_text
      (HuffmanDecoder.mk (HuffmanEncoder.reverse_mapping encoder))
      (encoded_text ++ partial) = data).
  { unfold HuffmanDecoder.decode_text. now rewrite Hloop. }
  split; [exact Hloop|]. split; [exact Htext|]. split.
  - rewrite Hrev.
    exact (@reverse_get_prefix root c code partial u Hcode Hu Hu').
  - intros file packed Hhead Hbits.
    unfold decompress, HuffmanDecoder.decompress.
    rewrite Hhead. cbn [bind].
    unfold HuffmanDecoder.rebuild. rewrite Hheap. cbn [bind].
    rewrite Hroot. cbn [bind]. rewrite <- Hself.
    rewrite Hbits. cbn [bind]. now rewrite Htext.
Qed.

(** The container of [b"aaabbcccb"] without its last byte: the table
    holds three symbols, the bits left after the padding count are
    ["1010101"], the codes of [b"aaa"] and the first bit of one more. *)
Lemma truncated_stream_silent_witness :
  let truncated :=
    ["000"%byte; "003"%byte;
     "a"%byte; "000"%byte; "000"%byte; "000"%byte; "003"%byte;
     "b"%byte; "000"%byte; "000"%byte; "000"%byte; "003"%byte;
     "c"%byte; "000"%byte; "000"%byte; "000"%byte; "003"%byte;
     "001"%byte; "171"%byte] in
  let self :=
    HuffmanDecoder.mk
      [([zero], "c"%byte); ([one; zero], "a"%byte); ([one; one], "b"%byte)] in
  HuffmanDecoder.decode_loop self
    ([one; zero; one; zero; one; zero] ++ [one])
  = ([one], ["a"%byte; "a"%byte; "a"%byte]) /\
  HuffmanDecoder.decode_text self
    ([one; zero; one; zero; one; zero] ++ [one])
  = ["a"%byte; "a"%byte; "a"%byte] /\
  dict_get str_eqb (HuffmanDecoder.reverse_mapping self) [one] = None /\
  decompress truncated = Ok ["a"%byte; "a"%byte; "a"%byte].
Proof.
  cbv zeta.
  destruct (@truncated_stream_silent
              [("a"%byte, 3%N); ("b"%byte, 3%N); ("c"%byte, 3%N)]
              (HuffmanEncoder.mk
                 [("c"%byte, [zero]); ("a"%byte, [one; zero]);
                  ("b"%byte, [one; one])]
                 [([zero], "c"%byte); ([one; zero], "a"%byte);
                  ([one; one], "b"%byte)])
              ["a"%byte; "a"%byte; "a"%byte]
              [one; zero; one; zero; one; zero]
              [one] [one; zero] "a"%byte) as [Hloop [Htext [Hnone Hfile]]].
  - repeat constructor; simpl; intuition discriminate.
  - vm_compute. reflexivity.
  - vm_compute. reflexivity.
  - vm_compute. reflexivity.
  - split; [exists [zero]; reflexivity | discriminate].
  - split; [exact Hloop|]. split; [exact Htext|]. split; [exact Hnone|].
    apply (Hfile
             ["000"%byte; "003"%byte;
              "a"%byte; "000"%byte; "000"%byte; "000"%byte; "003"%byte;
              "b"%byte; "000"%byte; "000"%byte; "000"%byte; "003"%byte;
              "c"%byte; "000"%byte; "000"%byte; "000"%byte; "003"%byte;
              "001"%byte; "171"%byte]
             ["001"%byte; "171"%byte]).
    + vm_compute. reflexivity.
    + vm_compute. reflexivity.
Defined.

(** C3 as stated fails on the container of [b"aaabbcccb"] with its last
    byte cut off: the bits run out with ["1"] accumulated, which is no
    code, and [decompress] returns [b"aaa"] instead of raising. *)
Lemma truncated_container_decodes :
  let container :=
    ["000"%byte; "003"%byte;
     "a"%byte; "000"%byte; "000"%byte; "000"%byte; "003"%byte;
     "b"%byte; "000"%byte; "000"%byte; "000"%byte; "003"%byte;
     "c"%byte; "000"%byte; "000"%byte; "000"%byte; "003"%byte;
     "001"%byte; "171"%byte; "198"%byte] in
  let truncated := removelast container in
  compress ["a"%byte; "a"%byte; "a"%byte; "b"%byte; "b"%byte; "c"%byte;
            "c"%byte; "c"%byte; "b"%byte] = Ok container /\
  (exists frequency packed encoder encoded_text,
     HuffmanDecoder.read_header truncated = Ok (frequency, packed) /\
     HuffmanDecoder.rebuild frequency = Ok encoder /\
     HuffmanDecoder.remove_padding (HuffmanDecoder.read_bits packed [])
       = Ok encoded_text /\
     HuffmanDecoder.decode_loop
       (HuffmanDecoder.mk (HuffmanEncoder.reverse_mapping encoder))
       encoded_text
     = ([one], ["a"%byte; "a"%byte; "a"%byte]) /\
     dict_get str_eqb (HuffmanEncoder.reverse_mapping encoder) [one] = None) /\
  decompress truncated = Ok ["a"%byte; "a"%byte; "a"%byte].
Proof.
  cbv zeta. split; [vm_compute; reflexivity|]. split; [|vm_compute; reflexivity].
  do 4 eexists. repeat split; vm_compute; reflexivity.
Qed.

(** ** Inputs with one distinct byte value, and the empty input *)

(** C1: the claim asks for [decompress(compress(B)) == B] for every [B],
    the empty sequence and a run of one byte value included.  For
    [B = b"a"] the container holds the table, the padding count 8 and one
    byte of filler; the only code is the empty string, so no bit stands
    for the data and [decompress] returns the empty sequence.  For the
    empty [B], [compress] raises [IndexError] at [heap[0]]. *)
Theorem single_byte_roundtrip_lost :
  compress ["a"%byte]
  = Ok ["000"%byte; "001"%byte;
        "a"%byte; "000"%byte; "000"%byte; "000"%byte; "001"%byte;
        "008"%byte; "000"%byte] /\
  decompress
    ["000"%byte; "001"%byte;
     "a"%byte; "000"%byte; "000"%byte; "000"%byte; "001"%byte;
     "008"%byte; "000"%byte] = Ok [] /\
  compress [] = Err IndexError.
Proof. repeat split; vm_compute; reflexivity. Qed.

Lemma encode_single (c : byte) (data : bytes) :
  forall acc encoded_text,
    for_each
      (fun (encoded_text : str) (x : byte) =>
         match dict_get Byte.eqb [(c, ([] : str))] x with
         | Some code => Ok (encoded_text ++ code)
         | None => Err KeyError
         end) data acc = Ok encoded_text ->
    encoded_text = acc.
Proof.
  induction data as [|x data IH]; intros acc enc H; simpl in H.
  - now injection H.
  - destruct (Byte.eqb x c); [|discriminate].
    simpl in H. rewrite app_nil_r in H. now apply IH.
Qed.

(** Every input with one distinct byte value decompresses to nothing. *)
Lemma single_symbol_lost (data container : bytes) :
  length (HuffmanEncoder.build_frequency_dict data) = 1 ->
  compress data = Ok container ->
  decompress container = Ok [].
Proof.
  intros Hone Hc. apply compress_Ok_inv in Hc. destruct Hc as [self Hc].
  destruct (@decompress_written data container self Hc)
    as [heap [root [enc [bs [Hheap [Hroot [Hself [_ [Henc [_ [_ [_ [Hdec _]]]]]]]]]]]]].
  set (frequency := HuffmanEncoder.build_frequency_dict data) in *.
  assert (Hne : frequency <> []) by (intros E; rewrite E in Hone; discriminate).
  destruct (tree_of_table Hne) as [heap' [root' [Hh' [Hr' [_ Hleaf]]]]].
  assert (heap' = heap) by congruence. subst heap'.
  assert (root' = root) by congruence. subst root'.
  rewrite Hone in Hleaf. simpl in Hleaf.
  destruct Hleaf as [[c f] [_ ->]].
  unfold HuffmanEncoder.get_encoded_text in Henc. subst self.
  apply encode_single in Henc. subst enc.
  unfold decompress. rewrite Hdec. reflexivity.
Qed.

(** ** Instances *)

Lemma roundtrip_two_symbols_witness :
  (forall container,
     compress ["a"%byte; "a"%byte; "a"%byte; "b"%byte; "b"%byte; "c"%byte]
     = Ok container ->
     (exists packed,
        HuffmanDecoder.read_header container
        = Ok (HuffmanEncoder.build_frequency_dict
                ["a"%byte; "a"%byte; "a"%byte; "b"%byte; "b"%byte; "c"%byte],
              packed)) /\
     decompress container
     = Ok ["a"%byte; "a"%byte; "a"%byte; "b"%byte; "b"%byte; "c"%byte]) /\
  ((forall c,
      (N.of_nat
         (count_occ Byte.byte_eq_dec
            ["a"%byte; "a"%byte; "a"%byte; "b"%byte; "b"%byte; "c"%byte] c)
       < 2 ^ 32)%N) ->
   exists container,
     compress ["a"%byte; "a"%byte; "a"%byte; "b"%byte; "b"%byte; "c"%byte]
     = Ok container).
Proof.
  apply (@roundtrip_two_symbols
           ["a"%byte; "a"%byte; "a"%byte; "b"%byte; "b"%byte; "c"%byte]).
  exists "a"%byte, "b"%byte. simpl. repeat split; auto. discriminate.
Defined.


Lemma padding_byte_positive_witness :
  (exists (table : bytes) (padding : byte) (packed : bytes) (encoded_text : str),
     ["000"%byte; "001"%byte;
      "a"%byte; "000"%byte; "000"%byte; "000"%byte; "001"%byte;
      "008"%byte; "000"%byte]
     = table ++ padding :: packed /\
     length table
     = 2 + 5 * length (HuffmanEncoder.build_frequency_dict ["a"%byte]) /\
     (1 <= Byte.to_N padding <= 8)%N /\
     HuffmanDecoder.remove_padding
       (HuffmanDecoder.read_bits (padding :: packed) []) = Ok encoded_text /\
     length encoded_text + N.to_nat (Byte.to_N padding) = 8 * length packed) /\
  (forall bits,
     HuffmanDecoder.remove_padding (format_08b 0 ++ bits) = Ok []).
Proof.
  apply (@padding_byte_positive ["a"%byte]). vm_compute. reflexivity.
Defined.

Lemma code_table_fidelity_witness :
  exists (frequency : dict byte N) (packed : bytes) (encoder : HuffmanEncoder.t),
    HuffmanDecoder.read_header
      ["000"%byte; "003"%byte;
       "a"%byte; "000"%byte; "000"%byte; "000"%byte; "003"%byte;
       "b"%byte; "000"%byte; "000"%byte; "000"%byte; "002"%byte;
       "c"%byte; "000"%byte; "000"%byte; "000"%byte; "001"%byte;
       "007"%byte; "031"%byte; "000"%byte]
    = Ok (frequency, packed) /\
    HuffmanDecoder.rebuild frequency = Ok encoder /\
    HuffmanEncoder.codes encoder
    = [("a"%byte, [zero]); ("c"%byte, [one; zero]); ("b"%byte, [one; one])] /\
    HuffmanEncoder.reverse_mapping encoder
    = [([zero], "a"%byte); ([one; zero], "c"%byte); ([one; one], "b"%byte)] /\
    (forall c code,
       In (c, code) (HuffmanEncoder.codes encoder) <->
       In (c, code)
         [("a"%byte, [zero]); ("c"%byte, [one; zero]); ("b"%byte, [one; one])]).
Proof.
  apply (@code_table_fidelity
           ["a"%byte; "a"%byte; "a"%byte; "b"%byte; "b"%byte; "c"%byte]
           ["000"%byte; "003"%byte;
            "a"%byte; "000"%byte; "000"%byte; "000"%byte; "003"%byte;
            "b"%byte; "000"%byte; "000"%byte; "000"%byte; "002"%byte;
            "c"%byte; "000"%byte; "000"%byte; "000"%byte; "001"%byte;
            "007"%byte; "031"%byte; "000"%byte]
           (HuffmanEncoder.mk
              [("a"%byte, [zero]); ("c"%byte, [one; zero]);
               ("b"%byte, [one; one])]
              [([zero], "a"%byte); ([one; zero], "c"%byte);
               ([one; one], "b"%byte)])).
  vm_compute. reflexivity.
Defined.

(** * Properties of the single functions *)

(** ** The order of the heap *)

Lemma parent_child (i : nat) : 0 < i -> is_child i (Nat.shiftr (i - 1) 1).
Proof.
  intros H. rewrite Nat.shiftr_div_pow2, Nat.pow_1_r.
  pose proof (Nat.div_mod_eq (i - 1) 2) as Hd.
  pose proof (Nat.mod_upper_bound (i - 1) 2) as Hm.
  unfold is_child. lia.
Qed.

Lemma child_parent (c p : nat) : is_child c p -> Nat.shiftr (c - 1) 1 = p.
Proof.
  intros H. rewrite Nat.shiftr_div_pow2, Nat.pow_1_r.
  destruct H as [-> | ->].
  - replace (2 * p + 1 - 1) with (p * 2) by lia. apply Nat.div_mul. lia.
  - replace (2 * p + 2 - 1) with (1 + p * 2) by lia.
    rewrite Nat.div_add by lia. reflexivity.
Qed.

Section HeapOrderFacts.
Variable A : Type.
Variable key : A -> N.
Variable lt : A -> A -> bool.
Hypothesis lt_key : forall a b, lt a b = (key a <? key b)%N.

Lemma nth_error_update (heap : list A) (i j : nat) (x y : A) :
  nth_error (update heap i x) j = Some y ->
  (i = j /\ y = x) \/ (i <> j /\ nth_error heap j = Some y).
Proof.
  intros H. destruct (Nat.eq_dec i j) as [->|Hne].
  - left. split; [reflexivity|].
    assert (Hl : j < length heap).
    { rewrite <- (update_length heap j x). apply nth_error_Some. congruence. }
    rewrite nth_error_update_eq in H by assumption. congruence.
  - right. split; [assumption|].
    now rewrite nth_error_update_neq in H.
Qed.

(** [_siftdown] from the root: once everything but the place of the new
    item is in order, the loop puts the item where the whole heap is. *)
Lemma siftdown_loop_ordered (fuel : nat) :
  forall (heap heap' : list A) (pos : nat) (newitem : A),
    heapq.siftdown_loop lt fuel heap 0 pos newitem = Ok heap' ->
    ordered_except key heap pos ->
    below_children key heap pos (key newitem) ->
    grandchildren_ordered key heap pos ->
    heap_ordered key heap'.
Proof.
  assert (Hplace : forall (heap heap' : list A) pos newitem,
    setitem heap pos newitem = Ok heap' ->
    ordered_except key heap pos ->
    below_children key heap pos (key newitem) ->
    (forall p x, is_child pos p -> nth_error heap p = Some x ->
                 (key x <= key newitem)%N) ->
    heap_ordered key heap').
  { intros heap heap' pos newitem Hset Hord Hbelow Habove.
    unfold setitem in Hset. destruct (pos <? length heap); [|discriminate].
    injection Hset as <-. intros p c Hc x y Hx Hy.
    apply nth_error_update in Hx, Hy.
    destruct Hx as [[<- ->]|[Hpx Hx]], Hy as [[<- ->]|[Hcy Hy]].
    - lia.
    - eapply Hbelow; eassumption.
    - eapply Habove; eassumption.
    - exact (Hord p c Hc (not_eq_sym Hpx) (not_eq_sym Hcy) x y Hx Hy). }
  induction fuel as [|fuel IH];
    intros heap heap' pos newitem Hloop Hord Hbelow Hgrand;
    cbn [heapq.siftdown_loop] in Hloop;
    destruct (0 <? pos) eqn:Hpos;
    try (apply Hplace with (1 := Hloop); auto;
         apply Nat.ltb_ge in Hpos; intros p x [Hp|Hp]; lia).
  - discriminate.
  - apply Nat.ltb_lt in Hpos.
    pose proof (parent_child Hpos) as Hchild.
    assert (Hlt : Nat.shiftr (pos - 1) 1 < pos) by (apply shiftr1_lt; lia).
    set (parentpos := Nat.shiftr (pos - 1) 1) in *.
    apply bind_Ok in Hloop. destruct Hloop as [parent [Hpar Hloop]].
    unfold getitem in Hpar.
    destruct (nth_error heap parentpos) as [parent'|] eqn:Hp; [|discriminate].
    injection Hpar as ->. rewrite lt_key in Hloop.
    destruct (key newitem <? key parent)%N eqn:Hcmp.
    + apply N.ltb_lt in Hcmp.
      apply bind_Ok in Hloop. destruct Hloop as [heap1 [Hset Hloop]].
      unfold setitem in Hset. destruct (pos <? length heap); [|discriminate].
      injection Hset as <-.
      apply (IH _ _ _ _ Hloop).
      * intros p c Hc Hpp Hcp x y Hx Hy.
        apply nth_error_update in Hx, Hy.
        destruct Hx as [[<- ->]|[Hpx Hx]], Hy as [[<- ->]|[Hcy Hy]].
        -- lia.
        -- exact (Hgrand parentpos c Hchild Hc parent y Hp Hy).
        -- apply child_parent in Hc. fold parentpos in Hc. congruence.
        -- exact (Hord p c Hc (not_eq_sym Hpx) (not_eq_sym Hcy) x y Hx Hy).
      * intros c y Hc Hy. apply nth_error_update in Hy.
        destruct Hy as [[<- ->]|[Hcy Hy]]; [lia|].
        assert (Hle : (key parent <= key y)%N).
        { apply (Hord parentpos c Hc); auto; lia. }
        lia.
      * intros g c Hg Hc x y Hx Hy.
        apply nth_error_update in Hx, Hy.
        assert (Hgp : g < parentpos) by (destruct Hg; lia).
        destruct Hx as [[Hx _]|[_ Hx]]; [lia|].
        assert (Hgpar : (key x <= key parent)%N).
        { apply (Hord g parentpos Hg); auto; lia. }
        destruct Hy as [[<- ->]|[Hcy Hy]]; [exact Hgpar|].
        assert (Hle : (key parent <= key y)%N).
        { apply (Hord parentpos c Hc); auto; lia. }
        lia.
    + apply N.ltb_ge in Hcmp.
      apply Hplace with (1 := Hloop); auto.
      intros p x Hp' Hx. apply child_parent in Hp'. fold parentpos in Hp'.
      subst p. congruence.
Qed.

(** The loop of [_siftup]: the hole sinks to a leaf, the smaller child
    moving up each turn, and the order holds but at the hole. *)
Lemma siftup_loop_ordered (fuel : nat) :
  forall (heap heap' : list A) (endpos pos pos' : nat) (newitem : A),
    endpos = length heap ->
    heapq.siftup_loop lt fuel heap endpos pos newitem = Ok (heap', pos') ->
    ordered_except key heap pos ->
    grandchildren_ordered key heap pos ->
    ordered_except key heap' pos' /\
    length heap' = length heap /\
    nth_error heap' pos' = Some newitem /\
    (forall c, is_child c pos' -> length heap' <= c).
Proof.
  induction fuel as [|fuel IH];
    intros heap heap' endpos pos pos' newitem Hend Hloop Hord Hgrand;
    cbn [heapq.siftup_loop] in Hloop;
    destruct (2 * pos + 1 <? endpos) eqn:Hc;
    try discriminate;
    try (apply Nat.ltb_ge in Hc;
         apply bind_Ok in Hloop; destruct Hloop as [heap1 [Hset Hloop]];
         injection Hloop as <- <-;
         unfold setitem in Hset;
         destruct (pos <? length heap) eqn:Hpl; [|discriminate];
         apply Nat.ltb_lt in Hpl; injection Hset as <-;
         rewrite update_length; repeat split;
         [ intros p c Hpc Hp Hcp x y Hx Hy;
           rewrite nth_error_update_neq in Hx, Hy by congruence;
           exact (Hord p c Hpc Hp Hcp x y Hx Hy)
         | now apply nth_error_update_eq
         | intros c [-> | ->]; lia ]).
  apply Nat.ltb_lt in Hc.
  apply bind_Ok in Hloop. destruct Hloop as [c [Hchoice Hloop]].
  apply bind_Ok in Hloop. destruct Hloop as [child [Hchild Hloop]].
  apply bind_Ok in Hloop. destruct Hloop as [heap1 [Hset Hloop]].
  unfold getitem in Hchild.
  destruct (nth_error heap c) as [child'|] eqn:Hnc; [|discriminate].
  injection Hchild as ->.
  unfold setitem in Hset. destruct (pos <? length heap); [|discriminate].
  injection Hset as <-.
  (* the child chosen is a child of [pos], not above its sibling *)
  assert (Hsel : is_child c pos /\
                 forall d y, is_child d pos -> nth_error heap d = Some y ->
                             (key child <= key y)%N).
  { assert (Hsame : forall i j a b,
              i = j -> nth_error heap i = Some a -> nth_error heap j = Some b ->
              a = b) by (intros; subst; congruence).
    destruct (2 * pos + 1 + 1 <? endpos) eqn:Hr.
    - apply bind_Ok in Hchoice. destruct Hchoice as [l [Hl Hchoice]].
      apply bind_Ok in Hchoice. destruct Hchoice as [r [Hr' Hchoice]].
      unfold getitem in Hl, Hr'.
      destruct (nth_error heap (2 * pos + 1)) as [l'|] eqn:Hnl; [|discriminate].
      destruct (nth_error heap (2 * pos + 1 + 1)) as [r''|] eqn:Hnr;
        [|discriminate].
      injection Hl as ->. injection Hr' as ->.
      rewrite lt_key in Hchoice.
      destruct (key l <? key r)%N eqn:Hcmp; cbn [negb] in Hchoice;
        injection Hchoice as Hcc.
      + apply N.ltb_lt in Hcmp. split; [left; lia|].
        assert (child = l) by (eapply Hsame; [|exact Hnc|exact Hnl]; lia).
        subst child. intros d y Hd Hy. destruct Hd as [Hd|Hd].
        * assert (y = l) by (eapply Hsame; [|exact Hy|exact Hnl]; lia). subst y. lia.
        * assert (y = r) by (eapply Hsame; [|exact Hy|exact Hnr]; lia). subst y. lia.
      + apply N.ltb_ge in Hcmp. split; [right; lia|].
        assert (child = r) by (eapply Hsame; [|exact Hnc|exact Hnr]; lia).
        subst child. intros d y Hd Hy. destruct Hd as [Hd|Hd].
        * assert (y = l) by (eapply Hsame; [|exact Hy|exact Hnl]; lia). subst y. lia.
        * assert (y = r) by (eapply Hsame; [|exact Hy|exact Hnr]; lia). subst y. lia.
    - injection Hchoice as Hcc. apply Nat.ltb_ge in Hr. split; [left; lia|].
      intros d y Hd Hy.
      assert (Hdl : d < length heap) by (apply nth_error_Some; congruence).
      destruct Hd as [Hd|Hd]; [|lia].
      assert (y = child) by (eapply Hsame; [|exact Hy|exact Hnc]; lia).
      subst y. lia. }
  destruct Hsel as [Hcp Hmin].
  assert (Hcpos : pos < c) by (destruct Hcp; lia).
  destruct (IH (update heap pos child) heap' endpos c pos' newitem)
    as [H1 [H2 [H3 H4]]].
  - now rewrite update_length.
  - exact Hloop.
  - intros p d Hpd Hp Hd x y Hx Hy.
    apply nth_error_update in Hx, Hy.
    destruct Hx as [[<- ->]|[Hpx Hx]], Hy as [[<- ->]|[Hdy Hy]].
    + lia.
    + exact (Hmin d y Hpd Hy).
    + exact (Hgrand p c Hpd Hcp x child Hx Hnc).
    + exact (Hord p d Hpd (not_eq_sym Hpx) (not_eq_sym Hdy) x y Hx Hy).
  - intros g d Hg Hd x y Hx Hy.
    apply child_parent in Hg. apply child_parent in Hcp as Hcp'.
    assert (g = pos) by congruence. subst g.
    apply nth_error_update in Hx, Hy.
    destruct Hx as [[_ ->]|[Hx _]]; [|congruence].
    assert (Hdc : c < d) by (destruct Hd; lia).
    destruct Hy as [[Hy _]|[_ Hy]]; [lia|].
    apply (Hord c d Hd); auto; lia.
  - rewrite update_length in H2. auto.
Qed.

Lemma siftup_ordered (heap heap' : list A) :
  heapq._siftup lt heap 0 = Ok heap' ->
  ordered_except key heap 0 ->
  heap_ordered key heap'.
Proof.
  unfold heapq._siftup. intros H Hord.
  apply bind_Ok in H. destruct H as [newitem [_ H]].
  apply bind_Ok in H. destruct H as [[heap1 pos1] [Hloop H]].
  apply siftup_loop_ordered in Hloop; [|reflexivity|exact Hord|].
  2:{ intros g c [Hg|Hg]; lia. }
  destruct Hloop as [H1 [H2 [H3 H4]]].
  unfold heapq._siftdown in H. unfold getitem in H. rewrite H3 in H.
  cbn [bind] in H.
  eapply siftdown_loop_ordered; [exact H | exact H1 | |].
  - intros c y Hc Hy. apply H4 in Hc.
    assert (c < length heap1) by (apply nth_error_Some; congruence). lia.
  - intros g c _ Hc x y _ Hy. apply H4 in Hc.
    assert (c < length heap1) by (apply nth_error_Some; congruence). lia.
Qed.

(** In an ordered heap no element is below the first. *)
Lemma heap_root_least (heap : list A) (x : A) :
  heap_ordered key heap -> nth_error heap 0 = Some x ->
  forall i y, nth_error heap i = Some y -> (key x <= key y)%N.
Proof.
  intros Hord Hx i. induction i as [i IH] using (well_founded_induction lt_wf).
  intros y Hy. destruct i as [|i].
  - rewrite Hx in Hy. injection Hy as <-. lia.
  - assert (Hpos : 0 < S i) by lia.
    pose proof (parent_child Hpos) as Hc.
    pose proof (shiftr1_lt Hpos) as Hlt.
    set (p := Nat.shiftr (S i - 1) 1) in *.
    assert (Hl : S i < length heap) by (apply nth_error_Some; congruence).
    destruct (@getitem_lt _ heap p) as [z Hz]; [lia|].
    pose proof (IH p Hlt z Hz). pose proof (Hord p (S i) Hc z y Hz Hy). lia.
Qed.

Lemma heappush_ordered (heap heap' : list A) (item : A) :
  heap_ordered key heap ->
  heapq.heappush lt heap item = Ok heap' ->
  heap_ordered key heap'.
Proof.
  unfold heapq.heappush, heapq._siftdown. intros Hord H.
  rewrite length_app in H. cbn [length] in H.
  replace (length heap + 1 - 1) with (length heap) in H by lia.
  unfold getitem in H. rewrite nth_error_app2 in H by lia.
  rewrite Nat.sub_diag in H. cbn [nth_error bind] in H.
  eapply siftdown_loop_ordered; [exact H | | |].
  - intros p c Hc Hp Hcp x y Hx Hy.
    assert (p < length (heap ++ [item])) by (apply nth_error_Some; congruence).
    assert (c < length (heap ++ [item])) by (apply nth_error_Some; congruence).
    rewrite length_app in *. cbn [length] in *.
    rewrite nth_error_app1 in Hx, Hy by lia.
    exact (Hord p c Hc x y Hx Hy).
  - intros c y Hc Hy.
    assert (c < length (heap ++ [item])) by (apply nth_error_Some; congruence).
    rewrite length_app in *. cbn [length] in *. destruct Hc; lia.
  - intros g c _ Hc x y _ Hy.
    assert (c < length (heap ++ [item])) by (apply nth_error_Some; congruence).
    rewrite length_app in *. cbn [length] in *. destruct Hc; lia.
Qed.

Lemma heappop_ordered (heap heap' : list A) (item : A) :
  heap_ordered key heap ->
  heapq.heappop lt heap = Ok (item, heap') ->
  heap_ordered key heap' /\
  nth_error heap 0 = Some item /\
  forall y, In y heap -> (key item <= key y)%N.
Proof.
  intros Hord H.
  assert (Hfirst : nth_error heap 0 = Some item /\ heap_ordered key heap').
  { unfold heapq.heappop in H.
    apply bind_Ok in H. destruct H as [[lastelt rest] [Hpop H]].
    assert (Hheap : heap = rest ++ [lastelt]).
    { unfold pop in Hpop. destruct (rev heap) as [|x r] eqn:E; [discriminate|].
      injection Hpop as <- <-.
      rewrite <- (rev_involutive heap), E. reflexivity. }
    subst heap. destruct rest as [|top rest]; cbv beta iota in H.
    - assert (Hi : item = lastelt /\ heap' = []) by (split; congruence).
      destruct Hi as [-> ->]. split; [reflexivity|].
      intros p c _ x y Hx _. destruct p; discriminate.
    - apply bind_Ok in H. destruct H as [returnitem [Hret H]].
      apply bind_Ok in H. destruct H as [heap2 [Hset H]].
      apply bind_Ok in H. destruct H as [heap1 [Hsift H]].
      unfold getitem in Hret. simpl in Hret.
      unfold setitem in Hset. simpl in Hset.
      assert (Hi : item = top /\ heap' = heap1 /\ heap2 = lastelt :: rest)
        by (repeat split; congruence).
      destruct Hi as [-> [-> ->]]. split; [reflexivity|].
      eapply siftup_ordered; [exact Hsift|].
      intros p c Hc Hp Hcp x y Hx Hy.
      assert (Hpl : p < length (lastelt :: rest))
        by (apply nth_error_Some; congruence).
      assert (Hcl : c < length (lastelt :: rest))
        by (apply nth_error_Some; congruence).
      cbn [length] in Hpl, Hcl.
      apply (Hord p c Hc x y).
      + destruct p as [|p]; [congruence|]. cbn [app nth_error] in *.
        rewrite nth_error_app1 by lia. exact Hx.
      + destruct c as [|c]; [congruence|]. cbn [app nth_error] in *.
        rewrite nth_error_app1 by lia. exact Hy. }
  destruct Hfirst as [Hx Hord']. repeat split; auto.
  intros y Hy. apply In_nth_error in Hy. destruct Hy as [i Hy].
  exact (heap_root_least Hord Hx _ Hy).
Qed.
End HeapOrderFacts.

(** ** The heap of [build_heap] and the turns of [build_huffman_tree] *)

Lemma node_lt_freq (a b : HuffmanNode) : node_lt a b = (freq a <? freq b)%N.
Proof. reflexivity. Qed.

Lemma build_heap_ordered_from (frequency : dict byte N) :
  forall heap heap',
    heap_ordered freq heap ->
    for_each
      (fun heap '(c, f) =>
         heapq.heappush node_lt heap (mkNode (Some c) f None None))
      frequency heap = Ok heap' ->
    heap_ordered freq heap'.
Proof.
  induction frequency as [|[c f] d IH]; intros heap heap' Hord H; simpl in H.
  - now injection H as <-.
  - apply bind_Ok in H. destruct H as [heap1 [Hpush H]].
    apply (IH heap1 heap'); [|exact H].
    eapply heappush_ordered; [exact node_lt_freq | exact Hord | exact Hpush].
Qed.

(** X1: [build_heap] returns a min-heap of the leaves of the table: one
    leaf per item, no node below its parent in the implicit tree of the
    list, and so a node of least frequency first. *)
Theorem build_heap_min_heap (frequency : dict byte N) :
  exists heap,
    HuffmanEncoder.build_heap frequency = Ok heap /\
    Permutation heap (map leaf_of frequency) /\
    heap_ordered freq heap /\
    forall first,
      nth_error heap 0 = Some first ->
      forall item, In item frequency -> (freq first <= snd item)%N.
Proof.
  destruct (build_heap_spec frequency) as [heap [Hheap Hperm]].
  assert (Hord : heap_ordered freq heap).
  { apply (@build_heap_ordered_from frequency [] heap); [|exact Hheap].
    intros p c _ x y Hx _. destruct p; discriminate. }
  exists heap. repeat split; auto.
  intros first Hfirst item Hin.
  assert (Hnode : In (leaf_of item) heap).
  { eapply Permutation_in; [apply Permutation_sym, Hperm|].
    now apply in_map. }
  apply In_nth_error in Hnode. destruct Hnode as [i Hi].
  exact (@heap_root_least _ freq heap first Hord Hfirst _ _ Hi).
Qed.

(** X2: a turn of the loop of [build_huffman_tree] on a min-heap of two
    or more nodes: the first [heappop] returns a node of least frequency
    of the heap, the second a node of least frequency of what is left,
    [heappush] puts back one node that holds them as its left and right
    child with their frequencies added, and the heap it returns is a
    min-heap again.  The loop goes on with that heap, whatever the
    number of turns still to come, and [build_huffman_tree] returns for
    the heap before the turn the root it returns for the heap after. *)
Theorem merge_turn_least (heap : list HuffmanNode) :
  heap_ordered freq heap ->
  2 <= length heap ->
  exists node1 heap1 node2 rest heap' root,
    heapq.heappop node_lt heap = Ok (node1, heap1) /\
    heapq.heappop node_lt heap1 = Ok (node2, rest) /\
    heapq.heappush node_lt rest
      (mkNode None (freq node1 + freq node2)%N (Some node1) (Some node2))
    = Ok heap' /\
    Permutation heap (node1 :: node2 :: rest) /\
    (forall n, In n heap -> (freq node1 <= freq n)%N) /\
    (forall n, In n heap1 -> (freq node2 <= freq n)%N) /\
    (freq node1 <= freq node2)%N /\
    (forall n, In n rest -> (freq node2 <= freq n)%N) /\
    Permutation heap'
      (mkNode None (freq node1 + freq node2)%N (Some node1) (Some node2)
       :: rest) /\
    heap_ordered freq heap' /\
    (forall fuel,
       HuffmanEncoder.merge_loop (S fuel) heap
       = HuffmanEncoder.merge_loop fuel heap') /\
    HuffmanEncoder.build_huffman_tree heap = Ok root /\
    HuffmanEncoder.build_huffman_tree heap' = Ok root.
Proof.
  intros Hord Hlen.
  assert (Hne : heap <> []) by (intros ->; simpl in Hlen; lia).
  destruct (heappop_spec node_lt Hne) as [node1 [h1 [Hpop1 Hp1]]].
  destruct (@heappop_ordered _ freq node_lt node_lt_freq _ _ _ Hord Hpop1)
    as [Hord1 [_ Hmin1]].
  assert (Hl1 : S (length h1) = length heap)
    by (apply Permutation_length in Hp1; exact Hp1).
  assert (Hne1 : h1 <> []) by (intros ->; simpl in Hl1; lia).
  destruct (heappop_spec node_lt Hne1) as [node2 [h2 [Hpop2 Hp2]]].
  destruct (@heappop_ordered _ freq node_lt node_lt_freq _ _ _ Hord1 Hpop2)
    as [Hord2 [_ Hmin2]].
  assert (Hl2 : S (length h2) = length h1)
    by (apply Permutation_length in Hp2; exact Hp2).
  set (merged := mkNode None (freq node1 + freq node2)%N
                   (Some node1) (Some node2)).
  destruct (heappush_spec node_lt h2 merged) as [h3 [Hpush Hp3]].
  assert (Hl3 : length h3 = S (length h2))
    by (apply Permutation_length in Hp3; exact Hp3).
  assert (Hne3 : h3 <> []) by (intros ->; simpl in Hl3; lia).
  assert (Hturn : forall fuel,
            HuffmanEncoder.merge_loop (S fuel) heap
            = HuffmanEncoder.merge_loop fuel h3).
  { intros fuel. cbn [HuffmanEncoder.merge_loop].
    assert (Hlt : (1 <? length heap) = true) by (apply Nat.ltb_lt; lia).
    rewrite Hlt, Hpop1. cbn [bind]. rewrite Hpop2. cbn [bind].
    fold merged. rewrite Hpush. reflexivity. }
  destruct (build_huffman_tree_spec Hne3) as [root [Hroot _]].
  exists node1, h1, node2, h2, h3, root.
  split; [exact Hpop1|]. split; [exact Hpop2|]. split; [exact Hpush|].
  split.
  { eapply perm_trans; [apply Permutation_sym, Hp1|].
    apply perm_skip, Permutation_sym, Hp2. }
  split; [exact Hmin1|]. split; [exact Hmin2|]. split.
  { apply Hmin1. eapply Permutation_in; [exact Hp1|]. right.
    eapply Permutation_in; [exact Hp2|]. now left. }
  split.
  { intros n Hn. apply Hmin2.
    eapply Permutation_in; [exact Hp2|]. now right. }
  split; [exact Hp3|]. split.
  { eapply heappush_ordered; [exact node_lt_freq | exact Hord2 | exact Hpush]. }
  split; [exact Hturn|]. split; [|exact Hroot].
  unfold HuffmanEncoder.build_huffman_tree in *.
  replace (length heap) with (S (length h3)) by lia.
  rewrite Hturn. exact Hroot.
Qed.

(** The heap of the leaves [a:1], [b:2], [c:3]: the turn takes out [a]
    and [b] and puts back their parent of frequency 3. *)
Lemma merge_turn_least_witness :
  let a := mkNode (Some "a"%byte) 1 None None in
  let b := mkNode (Some "b"%byte) 2 None None in
  let c := mkNode (Some "c"%byte) 3 None None in
  exists node1 heap1 node2 rest heap' root,
    heapq.heappop node_lt [a; b; c] = Ok (node1, heap1) /\
    heapq.heappop node_lt heap1 = Ok (node2, rest) /\
    heapq.heappush node_lt rest
      (mkNode None (freq node1 + freq node2)%N (Some node1) (Some node2))
    = Ok heap' /\
    Permutation [a; b; c] (node1 :: node2 :: rest) /\
    (forall n, In n [a; b; c] -> (freq node1 <= freq n)%N) /\
    (forall n, In n heap1 -> (freq node2 <= freq n)%N) /\
    (freq node1 <= freq node2)%N /\
    (forall n, In n rest -> (freq node2 <= freq n)%N) /\
    Permutation heap'
      (mkNode None (freq node1 + freq node2)%N (Some node1) (Some node2)
       :: rest) /\
    heap_ordered freq heap' /\
    (forall fuel,
       HuffmanEncoder.merge_loop (S fuel) [a; b; c]
       = HuffmanEncoder.merge_loop fuel heap') /\
    HuffmanEncoder.build_huffman_tree [a; b; c] = Ok root /\
    HuffmanEncoder.build_huffman_tree heap' = Ok root.
Proof.
  cbv zeta.
  apply (@merge_turn_least
           [mkNode (Some "a"%byte) 1 None None;
            mkNode (Some "b"%byte) 2 None None;
            mkNode (Some "c"%byte) 3 None None]).
  - intros p c Hc x y Hx Hy.
    assert (Hcl : c < 3).
    { change 3 with
        (length [mkNode (Some "a"%byte) 1 None None;
                 mkNode (Some "b"%byte) 2 None None;
                 mkNode (Some "c"%byte) 3 None None]).
      apply nth_error_Some. congruence. }
    assert (Hp : p = 0) by (destruct Hc; lia). subst p.
    injection Hx as <-.
    destruct Hc as [-> | ->]; injection Hy as <-; simpl; lia.
  - simpl. lia.
Defined.

(** ** The shape and the frequencies of the tree *)

Lemma total_app (a b : list (byte * N)) :
  total (a ++ b) = (total a + total b)%N.
Proof.
  unfold total. induction a as [|x a IH]; simpl; [reflexivity|].
  rewrite IH. lia.
Qed.

Lemma total_perm (a b : list (byte * N)) :
  Permutation a b -> total a = total b.
Proof.
  unfold total. induction 1; simpl; lia.
Qed.

Lemma huffman_tree_total (t : HuffmanNode) :
  huffman_tree t -> freq t = total (leaf_items t).
Proof.
  induction 1 as [c f | l r Hl IHl Hr IHr]; simpl.
  - unfold total. simpl. lia.
  - rewrite total_app. congruence.
Qed.

Lemma huffman_tree_leaves (t : HuffmanNode) :
  map fst (leaf_items t) = leaves t.
Proof.
  induction t as [[c|] f l r IHl IHr] using HuffmanNode_ind; simpl;
    [reflexivity|].
  rewrite map_app. f_equal.
  - destruct l; [apply IHl | reflexivity].
  - destruct r; [apply IHr | reflexivity].
Qed.

Lemma leaf_items_leaf_of (frequency : dict byte N) :
  flat_map leaf_items (map leaf_of frequency) = frequency.
Proof.
  induction frequency as [|[c f] d IH]; simpl; [reflexivity|].
  now rewrite IH.
Qed.

(** The merge loop keeps the trees well formed and their leaves. *)
Lemma merge_loop_tree (fuel : nat) :
  forall heap,
    heap <> [] -> length heap <= S fuel -> Forall huffman_tree heap ->
    exists root,
      HuffmanEncoder.merge_loop fuel heap = Ok [root] /\
      huffman_tree root /\
      Permutation (leaf_items root) (flat_map leaf_items heap).
Proof.
  induction fuel as [|fuel IH]; intros heap Hne Hlen Htrees;
    cbn [HuffmanEncoder.merge_loop]; destruct (1 <? length heap) eqn:H1;
    try (apply Nat.ltb_ge in H1; destruct heap as [|x [|y heap]];
         [congruence | | simpl in H1; lia];
         exists x; simpl; rewrite app_nil_r; repeat split; auto;
         now inversion Htrees).
  - apply Nat.ltb_lt in H1. lia.
  - apply Nat.ltb_lt in H1.
    destruct (heappop_spec node_lt Hne) as [node1 [h1 [-> Hp1]]].
    cbn [bind].
    assert (Hl1 : S (length h1) = length heap)
      by (apply Permutation_length in Hp1; exact Hp1).
    assert (Hne1 : h1 <> []) by (intros ->; simpl in Hl1; lia).
    destruct (heappop_spec node_lt Hne1) as [node2 [h2 [-> Hp2]]].
    cbn [bind].
    assert (Hl2 : S (length h2) = length h1)
      by (apply Permutation_length in Hp2; exact Hp2).
    set (merged := mkNode None (freq node1 + freq node2)%N
                     (Some node1) (Some node2)).
    destruct (heappush_spec node_lt h2 merged) as [h3 [-> Hp3]].
    cbn [bind].
    assert (Hl3 : length h3 = S (length h2))
      by (apply Permutation_length in Hp3; exact Hp3).
    assert (Hne3 : h3 <> []) by (intros ->; simpl in Hl3; lia).
    assert (Ht1 : Forall huffman_tree (node1 :: h1)).
    { eapply Permutation_Forall; [apply Permutation_sym, Hp1 | exact Htrees]. }
    inversion Ht1 as [|? ? Hn1 Hh1]; subst.
    assert (Ht2 : Forall huffman_tree (node2 :: h2)).
    { eapply Permutation_Forall; [apply Permutation_sym, Hp2 | exact Hh1]. }
    inversion Ht2 as [|? ? Hn2 Hh2]; subst.
    assert (Ht3 : Forall huffman_tree h3).
    { eapply Permutation_Forall; [apply Permutation_sym, Hp3|].
      constructor; [now constructor | exact Hh2]. }
    destruct (IH h3 Hne3) as [root [Hr [Htree Hperm]]]; [lia | exact Ht3 |].
    exists root. split; [exact Hr|]. split; [exact Htree|].
    eapply perm_trans; [exact Hperm|].
    eapply perm_trans; [apply Permutation_flat_map, Hp3|].
    eapply perm_trans; [|apply Permutation_flat_map, Hp1].
    simpl. rewrite <- app_assoc. apply Permutation_app_head.
    change (Permutation (flat_map leaf_items (node2 :: h2))
              (flat_map leaf_items h1)).
    apply Permutation_flat_map, Hp2.
Qed.

(** The tree of a table is well formed and holds the items of the table. *)
Lemma table_tree (frequency : dict byte N) :
  frequency <> [] ->
  exists heap root,
    HuffmanEncoder.build_heap frequency = Ok heap /\
    HuffmanEncoder.build_huffman_tree heap = Ok root /\
    huffman_tree root /\
    Permutation (leaf_items root) frequency /\
    freq root = total frequency.
Proof.
  intros Hne. destruct (build_heap_spec frequency) as [heap [Hheap Hp]].
  assert (Hl : length heap = length frequency)
    by (apply Permutation_length in Hp; now rewrite length_map in Hp).
  assert (Hne' : heap <> []).
  { intros ->. destruct frequency; [congruence | discriminate]. }
  assert (Htrees : Forall huffman_tree heap).
  { eapply Permutation_Forall; [apply Permutation_sym, Hp|].
    apply Forall_forall. intros n Hn. apply in_map_iff in Hn.
    destruct Hn as [[c f] [<- _]]. constructor. }
  destruct (@merge_loop_tree (length heap) heap Hne') as [root [Hr [Ht Hperm]]];
    [lia | exact Htrees |].
  assert (Hitems : Permutation (leaf_items root) frequency).
  { eapply perm_trans; [exact Hperm|].
    eapply perm_trans; [apply Permutation_flat_map, Hp|].
    now rewrite leaf_items_leaf_of. }
  exists heap, root. split; [exact Hheap|]. split.
  - unfold HuffmanEncoder.build_huffman_tree. rewrite Hr. reflexivity.
  - split; [exact Ht|]. split; [exact Hitems|].
    rewrite (huffman_tree_total Ht). now apply total_perm.
Qed.

(** X3: for every non-empty frequency table [build_huffman_tree] returns
    a tree in which a node is either a leaf with a symbol and no children
    or a node without symbol, with two children and the sum of their
    frequencies; its leaves are the items of the table, each once, and the
    frequency of the root is the sum of all counts. *)
Theorem tree_well_formed (frequency : dict byte N) :
  frequency <> [] ->
  exists heap root,
    HuffmanEncoder.build_heap frequency = Ok heap /\
    HuffmanEncoder.build_huffman_tree heap = Ok root /\
    huffman_tree root /\
    Permutation (leaf_items root) frequency /\
    length (leaves root) = length frequency /\
    freq root = total frequency.
Proof.
  intros Hne.
  destruct (table_tree Hne) as [heap [root [Hh [Hr [Ht [Hp Hf]]]]]].
  exists heap, root. repeat split; auto.
  rewrite <- huffman_tree_leaves, length_map.
  now apply Permutation_length.
Qed.

Lemma tree_well_formed_witness :
  exists heap root,
    HuffmanEncoder.build_heap [("a"%byte, 3%N); ("b"%byte, 2%N)] = Ok heap /\
    HuffmanEncoder.build_huffman_tree heap = Ok root /\
    huffman_tree root /\
    Permutation (leaf_items root) [("a"%byte, 3%N); ("b"%byte, 2%N)] /\
    length (leaves root) = length [("a"%byte, 3%N); ("b"%byte, 2%N)] /\
    freq root = total [("a"%byte, 3%N); ("b"%byte, 2%N)].
Proof.
  apply (@tree_well_formed [("a"%byte, 3%N); ("b"%byte, 2%N)]). discriminate.
Defined.

Lemma total_count_char (d : dict byte N) (c : byte) :
  total (HuffmanEncoder.count_char d c) = (total d + 1)%N.
Proof.
  unfold HuffmanEncoder.count_char, total.
  induction d as [|[k v] d IH]; simpl; [reflexivity|].
  destruct (Byte.eqb c k); simpl; [lia|].
  rewrite IH. lia.
Qed.

Lemma total_frequency (data : bytes) :
  total (HuffmanEncoder.build_frequency_dict data) = N.of_nat (length data).
Proof.
  unfold HuffmanEncoder.build_frequency_dict.
  assert (H : forall d,
    total (fold_left HuffmanEncoder.count_char data d)
    = (total d + N.of_nat (length data))%N).
  { induction data as [|x data IH]; intros d.
    - simpl. lia.
    - cbn [fold_left length]. rewrite IH, total_count_char. lia. }
  rewrite H. reflexivity.
Qed.

(** Under a well-formed tree with [n] leaves no code is longer than the
    code of the root by more than [n - 1] bits. *)
Lemma code_list_depth (t : HuffmanNode) :
  huffman_tree t ->
  1 <= length (leaves t) /\
  forall p c s,
    In (c, s) (code_list t p) ->
    length s + 1 <= length p + length (leaves t).
Proof.
  induction 1 as [c0 f | l r Hl [IHl1 IHl2] Hr [IHr1 IHr2]].
  - split; [simpl; lia|]. intros p c s [[= <- <-]|[]]. simpl. lia.
  - cbn [leaves code_list]. rewrite length_app. split; [lia|].
    intros p c s H. apply in_app_or in H. destruct H as [H|H].
    + apply IHl2 in H. rewrite length_app in H. simpl in H. lia.
    + apply IHr2 in H. rewrite length_app in H. simpl in H. lia.
Qed.

(** ** The frequency table *)

(** X4: [build_frequency_dict] holds every byte value of the data once,
    with the number of its occurrences; a value that does not occur has no
    entry; the counts add up to the length of the data, and the table is
    empty for the empty input only. *)
Theorem frequency_table_counts (data : bytes) :
  NoDup (keys (HuffmanEncoder.build_frequency_dict data)) /\
  (forall c,
     dict_get Byte.eqb (HuffmanEncoder.build_frequency_dict data) c
     = match count_occ Byte.byte_eq_dec data c with
       | O => None
       | S n => Some (N.of_nat (S n))
       end) /\
  total (HuffmanEncoder.build_frequency_dict data) = N.of_nat (length data) /\
  (HuffmanEncoder.build_frequency_dict data = [] <-> data = []).
Proof.
  destruct (build_frequency_dict_spec data) as [Hnd [Hkeys Hcount]].
  split; [exact Hnd|]. split; [|split; [apply total_frequency|]].
  - intros c. specialize (Hcount c). unfold count_of in Hcount.
    destruct (dict_get Byte.eqb (HuffmanEncoder.build_frequency_dict data) c)
      as [f|] eqn:E.
    + apply (dict_get_In Byte.eqb byte_eqb_eq) in E as Hin.
      assert (Hc : In c data).
      { apply Hkeys. unfold keys. apply in_map_iff. exists (c, f). auto. }
      apply (count_occ_In Byte.byte_eq_dec) in Hc.
      destruct (count_occ Byte.byte_eq_dec data c); [lia | congruence].
    + destruct (count_occ Byte.byte_eq_dec data c) eqn:Ec; [reflexivity|].
      assert (Hc : In c data) by (apply (count_occ_In Byte.byte_eq_dec); lia).
      apply Hkeys in Hc.
      rewrite (dict_get_None Byte.eqb byte_eqb_eq) in E; [|discriminate].
      lia.
  - split; [|intros ->; reflexivity].
    intros E. destruct data as [|x data]; [reflexivity|].
    assert (Hx : In x (keys (HuffmanEncoder.build_frequency_dict (x :: data))))
      by (apply Hkeys; now left).
    rewrite E in Hx. contradiction.
Qed.

(** ** The code table *)

(** X5: in the code table of a frequency table with [n] entries no code
    is longer than [n - 1] bits, and so none is longer than 255. *)
Theorem code_length_bound (frequency : dict byte N) :
  frequency <> [] ->
  NoDup (keys frequency) ->
  exists self,
    code_table frequency = Ok self /\
    forall c code,
      dict_get Byte.eqb (HuffmanEncoder.codes self) c = Some code ->
      length code + 1 <= length frequency /\ length code <= 255.
Proof.
  intros Hne Hnd.
  destruct (table_tree Hne) as [heap [root [Hh [Hr [Ht [Hp _]]]]]].
  exists (HuffmanEncoder.build_codes HuffmanEncoder.init root). split.
  - unfold code_table. rewrite Hh. cbn [bind]. now rewrite Hr.
  - intros c code H. unfold HuffmanEncoder.build_codes in H.
    rewrite build_codes_helper_fold, fold_assign_codes in H.
    apply (dict_get_fold_set Byte.eqb byte_eqb_eq) in H.
    destruct H as [H|H]; [|discriminate].
    destruct (code_list_depth Ht) as [_ Hdepth].
    apply Hdepth in H. simpl in H.
    assert (Hl : length (leaves root) = length frequency).
    { rewrite <- huffman_tree_leaves, length_map.
      now apply Permutation_length. }
    pose proof (NoDup_bytes_length Hnd) as Hb.
    unfold keys in Hb. rewrite length_map in Hb. lia.
Qed.

Lemma code_length_bound_witness :
  exists self,
    code_table [("a"%byte, 3%N); ("b"%byte, 2%N); ("c"%byte, 1%N)] = Ok self /\
    forall c code,
      dict_get Byte.eqb (HuffmanEncoder.codes self) c = Some code ->
      length code + 1
      <= length [("a"%byte, 3%N); ("b"%byte, 2%N); ("c"%byte, 1%N)] /\
      length code <= 255.
Proof.
  apply (@code_length_bound
           [("a"%byte, 3%N); ("b"%byte, 2%N); ("c"%byte, 1%N)]).
  - discriminate.
  - repeat constructor; simpl; intuition discriminate.
Defined.

(** X6: for a frequency table with distinct symbols, [build_codes] gives a
    code to exactly the symbols of the table, and [reverse_mapping] is the
    inverse of [codes]: a code leads back to its symbol and to no other. *)
Theorem codes_reverse_inverse (frequency : dict byte N) :
  frequency <> [] ->
  NoDup (keys frequency) ->
  exists self,
    code_table frequency = Ok self /\
    (forall c,
       In c (keys frequency) <->
       exists code,
         dict_get Byte.eqb (HuffmanEncoder.codes self) c = Some code) /\
    (forall c code,
       dict_get Byte.eqb (HuffmanEncoder.codes self) c = Some code <->
       dict_get str_eqb (HuffmanEncoder.reverse_mapping self) code = Some c).
Proof.
  intros Hne Hnd.
  destruct (tree_of_table Hne) as [heap [root [Hh [Hr [Hperm _]]]]].
  assert (Hleaves : NoDup (leaves root)).
  { eapply Permutation_NoDup; [apply Permutation_sym, Hperm | exact Hnd]. }
  exists (HuffmanEncoder.build_codes HuffmanEncoder.init root). split.
  { unfold code_table. rewrite Hh. cbn [bind]. now rewrite Hr. }
  rewrite (@build_codes_codes root Hleaves), build_codes_reverse.
  assert (Hk1 : NoDup (keys (code_list root [])))
    by (unfold keys; now rewrite code_list_leaves).
  pose proof (reverse_NoDup root) as Hk2.
  split.
  - intros c. split.
    + intros Hc.
      assert (H : In c (map fst (code_list root []))).
      { rewrite code_list_leaves.
        eapply Permutation_in; [apply Permutation_sym, Hperm | exact Hc]. }
      apply in_map_iff in H. destruct H as [[c' s] [[= ->] H]].
      exists s. now apply (In_dict_get Byte.eqb byte_eqb_eq).
    + intros [s H]. apply (dict_get_In Byte.eqb byte_eqb_eq) in H.
      eapply Permutation_in; [exact Hperm|].
      rewrite <- (code_list_leaves root []). apply in_map_iff.
      exists (c, s). auto.
  - intros c s. split; intros H.
    + apply (dict_get_In Byte.eqb byte_eqb_eq) in H.
      now apply reverse_get_code.
    + apply (dict_get_In str_eqb str_eqb_eq) in H.
      apply in_map_iff in H. destruct H as [[c' s'] [[= -> ->] H]].
      now apply (In_dict_get Byte.eqb byte_eqb_eq).
Qed.

Lemma codes_reverse_inverse_witness :
  exists self,
    code_table [("a"%byte, 3%N); ("b"%byte, 2%N); ("c"%byte, 1%N)] = Ok self /\
    (forall c,
       In c (keys [("a"%byte, 3%N); ("b"%byte, 2%N); ("c"%byte, 1%N)]) <->
       exists code,
         dict_get Byte.eqb (HuffmanEncoder.codes self) c = Some code) /\
    (forall c code,
       dict_get Byte.eqb (HuffmanEncoder.codes self) c = Some code <->
       dict_get str_eqb (HuffmanEncoder.reverse_mapping self) code = Some c).
Proof.
  apply (@codes_reverse_inverse
           [("a"%byte, 3%N); ("b"%byte, 2%N); ("c"%byte, 1%N)]).
  - discriminate.
  - repeat constructor; simpl; intuition discriminate.
Defined.

(** ** Encoding the data *)

Lemma encode_loop (self : HuffmanEncoder.t) (data : bytes) :
  forall acc,
    for_each
      (fun encoded_text c =>
         match dict_get Byte.eqb (HuffmanEncoder.codes self) c with
         | Some code => Ok (encoded_text ++ code)
         | None => Err KeyError
         end) data acc
    = if forallb (has_code self) data
      then Ok (acc ++ flat_map (code_of self) data)
      else Err KeyError.
Proof.
  induction data as [|c data IH]; intros acc; simpl.
  - now rewrite app_nil_r.
  - unfold has_code at 1, code_of at 1.
    destruct (dict_get Byte.eqb (HuffmanEncoder.codes self) c) as [code|];
      simpl; [|reflexivity].
    rewrite IH. destruct (forallb (has_code self) data); [|reflexivity].
    now rewrite app_assoc.
Qed.

(** X7: [get_encoded_text] returns the codes of the bytes of the data,
    joined in the order of the data, when every byte has a code, and
    raises [KeyError] when one has none. *)
Theorem get_encoded_text_outcome (self : HuffmanEncoder.t) (data : bytes) :
  HuffmanEncoder.get_encoded_text self data
  = if forallb (has_code self) data
    then Ok (flat_map (code_of self) data)
    else Err KeyError.
Proof.
  unfold HuffmanEncoder.get_encoded_text. now rewrite encode_loop.
Qed.

(** ** Bytes and bits *)

Lemma bits_of_byte_inj (x y : byte) : bits_of_byte x = bits_of_byte y -> x = y.
Proof.
  intros H. apply (f_equal int2) in H. rewrite !int2_bits_of_byte in H.
  injection H as H. apply (f_equal Byte.of_N) in H.
  rewrite !Byte.of_to_N in H. now injection H.
Qed.

Lemma read_bits_inj (a : bytes) :
  forall b,
    HuffmanDecoder.read_bits a [] = HuffmanDecoder.read_bits b [] -> a = b.
Proof.
  induction a as [|x a IH]; intros [|y b] H.
  - reflexivity.
  - apply (f_equal (@length ascii)) in H.
    rewrite !read_bits_length in H. simpl in H. lia.
  - apply (f_equal (@length ascii)) in H.
    rewrite !read_bits_length in H. simpl in H. lia.
  - rewrite !read_bits_cons in H.
    pose proof (f_equal (firstn 8) H) as H1.
    pose proof (f_equal (skipn 8) H) as H2.
    rewrite <- (bits_of_byte_length x) in H1 at 1.
    rewrite <- (bits_of_byte_length y) in H1 at 1.
    rewrite <- (bits_of_byte_length x) in H2 at 1.
    rewrite <- (bits_of_byte_length y) in H2 at 1.
    rewrite !firstn_app_exact in H1. rewrite !skipn_app_exact in H2.
    f_equal; [now apply bits_of_byte_inj | now apply IH].
Qed.

Lemma read_bits_bit_string (file : bytes) :
  bit_string (HuffmanDecoder.read_bits file []).
Proof.
  induction file as [|x file IH]; [constructor|].
  rewrite read_bits_cons. apply Forall_app. split; [|exact IH].
  apply bits_of_byte_bits.
Qed.

Lemma read_bits_length_mod (file : bytes) :
  length (HuffmanDecoder.read_bits file []) mod 8 = 0.
Proof.
  rewrite read_bits_length, Nat.mul_comm. apply Nat.Div0.mod_mul.
Qed.

(** X8: [get_byte_array] and the expansion of bytes to bits in
    [decompress] are inverse to each other: the eight digits of every byte
    pack to the byte again, and a string of binary digits of a length
    divisible by 8 packs to one byte per eight digits, which expand to
    the string.  On any other length [get_byte_array] leaves by
    [exit(0)]. *)
Theorem pack_unpack_inverse :
  (forall file : bytes,
     HuffmanEncoder.get_byte_array (HuffmanDecoder.read_bits file [])
     = Ok file) /\
  (forall s : str,
     bit_string s -> length s mod 8 = 0 ->
     exists byte_array,
       HuffmanEncoder.get_byte_array s = Ok byte_array /\
       HuffmanDecoder.read_bits byte_array [] = s /\
       8 * length byte_array = length s) /\
  (forall s : str,
     length s mod 8 <> 0 ->
     HuffmanEncoder.get_byte_array s = Err SystemExit).
Proof.
  split; [|split].
  - intros file.
    destruct (get_byte_array_spec (read_bits_length_mod file)
                (read_bits_bit_string file)) as [bs [Hbs Hread]].
    apply read_bits_inj in Hread. congruence.
  - intros s Hb Hm.
    destruct (get_byte_array_spec Hm Hb) as [bs [Hbs Hread]].
    exists bs. repeat split; auto.
    now rewrite <- read_bits_length, Hread.
  - intros s Hm. unfold HuffmanEncoder.get_byte_array.
    apply Nat.eqb_neq in Hm. now rewrite Hm.
Qed.

(** ** Removing the padding *)

Lemma remove_padding_bytes (padding : byte) (packed : bytes) :
  HuffmanDecoder.remove_padding (HuffmanDecoder.read_bits (padding :: packed) [])
  = Ok (HuffmanDecoder.drop_last (HuffmanDecoder.read_bits packed [])
          (N.to_nat (Byte.to_N padding))).
Proof.
  unfold HuffmanDecoder.remove_padding. rewrite read_bits_cons.
  rewrite <- (bits_of_byte_length padding) at 1.
  rewrite firstn_app_exact, int2_bits_of_byte. cbn [bind].
  rewrite <- (bits_of_byte_length padding) at 1.
  now rewrite skipn_app_exact.
Qed.

(** X9: on the bits of a packed region [remove_padding] takes the first
    byte as the count and returns the bits of the other bytes without
    their last count bits: none of them when the count is 0 (the slice
    [[:-0]]) or is not less than their number.  On an empty region it
    raises [ValueError]. *)
Theorem remove_padding_outcome :
  HuffmanDecoder.remove_padding (HuffmanDecoder.read_bits [] [])
  = Err ValueError /\
  forall (padding : byte) (packed : bytes),
    exists encoded_text,
      HuffmanDecoder.remove_padding
        (HuffmanDecoder.read_bits (padding :: packed) []) = Ok encoded_text /\
      prefix encoded_text (HuffmanDecoder.read_bits packed []) /\
      length encoded_text
      = match N.to_nat (Byte.to_N padding) with
        | O => 0
        | S k => 8 * length packed - S k
        end.
Proof.
  split; [reflexivity|]. intros padding packed.
  rewrite remove_padding_bytes. eexists. split; [reflexivity|].
  unfold HuffmanDecoder.drop_last.
  destruct (N.to_nat (Byte.to_N padding)) as [|k].
  - split; [|reflexivity]. now exists (HuffmanDecoder.read_bits packed []).
  - split.
    + exists (skipn (length (HuffmanDecoder.read_bits packed []) - S k)
                (HuffmanDecoder.read_bits packed [])).
      symmetry. apply firstn_skipn.
    + rewrite length_firstn, read_bits_length. lia.
Qed.

(** ** Reading a container *)

Lemma dict_set_nonempty (d : dict byte N) (c : byte) (f : N) :
  dict_set Byte.eqb d c f <> [].
Proof.
  destruct d as [|[k v] d]; simpl; [discriminate|].
  destruct (Byte.eqb c k); discriminate.
Qed.

Lemma dict_set_length (d : dict byte N) (c : byte) (f : N) :
  length d <= length (dict_set Byte.eqb d c f) <= S (length d).
Proof.
  induction d as [|[k v] d IH]; simpl; [lia|].
  destruct (Byte.eqb c k); simpl; lia.
Qed.

(** The record loop of [decompress] needs the symbol byte of every record
    and nothing more. *)
Lemma read_frequency_spec (count : nat) :
  forall (file : bytes) (d : dict byte N),
    NoDup (keys d) ->
    (5 * count <= length file + 4 ->
     exists d',
       HuffmanDecoder.read_frequency count file d
       = Ok (d', skipn (5 * count) file) /\
       NoDup (keys d') /\
       length d' <= length d + count /\
       (0 < count -> d' <> [])) /\
    (length file + 4 < 5 * count ->
     HuffmanDecoder.read_frequency count file d = Err IndexError).
Proof.
  induction count as [|count IH]; intros file d Hnd.
  - split; [|lia]. intros _. exists d. simpl. repeat split; auto; lia.
  - cbn [HuffmanDecoder.read_frequency HuffmanDecoder.read].
    destruct file as [|c file].
    + split; [simpl; lia|]. intros _. reflexivity.
    + cbn [firstn skipn getitem nth_error bind].
      set (d1 := dict_set Byte.eqb d c (from_bytes (firstn 4 file))).
      assert (Hnd1 : NoDup (keys d1))
        by (apply (NoDup_dict_set Byte.eqb byte_eqb_eq); exact Hnd).
      destruct (IH (skipn 4 file) d1 Hnd1) as [Hok Herr].
      pose proof (dict_set_length d c (from_bytes (firstn 4 file))) as Hl.
      fold d1 in Hl.
      assert (Hskip : skipn (5 * S count) (c :: file)
                      = skipn (5 * count) (skipn 4 file)).
      { rewrite skipn_skipn.
        replace (5 * S count) with (S (5 * count + 4)) by lia.
        reflexivity. }
      rewrite length_skipn in Hok, Herr. cbn [length]. split.
      * intros Hlen.
        destruct count as [|count].
        -- exists d1. cbn [HuffmanDecoder.read_frequency]. rewrite Hskip.
           repeat split; auto; [lia|]. intros _. apply dict_set_nonempty.
        -- destruct Hok as [d' [Hr [Hnd' [Hl' Hne']]]]; [lia|].
           exists d'. rewrite Hskip. repeat split; auto; [lia|].
           intros _. apply Hne'. lia.
      * intros Hlen. apply Herr. lia.
Qed.

(** X10: [decompress] can read the frequency table of a file exactly when
    the file holds the symbol byte of every record its first two bytes
    announce; it raises [IndexError] otherwise.  The table read has
    distinct symbols, at most one per record, at least one when a record
    is announced, and the packed bytes start after [2 + 5 n] bytes. *)
Theorem read_header_outcome (file : bytes) :
  (5 * announced file <= length file - 2 + 4 ->
   exists frequency,
     HuffmanDecoder.read_header file
     = Ok (frequency, skipn (2 + 5 * announced file) file) /\
     NoDup (keys frequency) /\
     length frequency <= announced file /\
     (0 < announced file -> frequency <> [])) /\
  (length file - 2 + 4 < 5 * announced file ->
   HuffmanDecoder.read_header file = Err IndexError).
Proof.
  unfold HuffmanDecoder.read_header, HuffmanDecoder.read. fold (announced file).
  destruct (@read_frequency_spec (announced file) (skipn 2 file) [])
    as [Hok Herr]; [constructor|].
  rewrite length_skipn in Hok, Herr. split.
  - intros Hlen. destruct (Hok Hlen) as [d [Hr H]].
    exists d. rewrite Hr, skipn_skipn.
    replace (5 * announced file + 2) with (2 + 5 * announced file) by lia.
    split; [reflexivity | exact H].
  - exact Herr.
Qed.

Lemma rebuild_Ok (frequency : dict byte N) :
  frequency <> [] -> exists encoder, HuffmanDecoder.rebuild frequency = Ok encoder.
Proof.
  intros Hne. destruct (tree_of_table Hne) as [heap [root [Hh [Hr _]]]].
  unfold HuffmanDecoder.rebuild. rewrite Hh. cbn [bind]. rewrite Hr.
  cbn [bind]. eauto.
Qed.

Lemma read_header_error (file : bytes) (e : exn) :
  HuffmanDecoder.read_header file = Err e -> e = IndexError.
Proof.
  unfold HuffmanDecoder.read_header, HuffmanDecoder.read. fold (announced file).
  destruct (@read_frequency_spec (announced file) (skipn 2 file) [])
    as [Hok Herr]; [constructor|].
  intros H.
  destruct (Nat.le_gt_cases (5 * announced file) (length (skipn 2 file) + 4))
    as [Hle|Hgt].
  - destruct (Hok Hle) as [d [Hr _]]. congruence.
  - rewrite (Herr Hgt) in H. congruence.
Qed.

(** X11: what [decompress] does with any file.  It raises [IndexError]
    when the table cannot be read or is empty, [ValueError] when no byte
    follows the table, and on every other file, whatever the bytes after
    the table are, it returns the bytes [decode_text] makes of them. *)
Theorem decompress_outcome (file : bytes) :
  match HuffmanDecoder.read_header file with
  | Err e => e = IndexError /\ decompress file = Err IndexError
  | Ok ([], _) => decompress file = Err IndexError
  | Ok (_ :: _, []) => decompress file = Err ValueError
  | Ok (frequency, padding :: packed) =>
      exists encoder,
        HuffmanDecoder.rebuild frequency = Ok encoder /\
        decompress file
        = Ok (HuffmanDecoder.decode_text
                (HuffmanDecoder.mk (HuffmanEncoder.reverse_mapping encoder))
                (HuffmanDecoder.drop_last
                   (HuffmanDecoder.read_bits packed [])
                   (N.to_nat (Byte.to_N padding))))
  end.
Proof.
  unfold decompress, HuffmanDecoder.decompress.
  destruct (HuffmanDecoder.read_header file) as [[frequency rest]|e] eqn:Hh.
  - destruct frequency as [|item frequency].
    + reflexivity.
    + destruct (@rebuild_Ok (item :: frequency)) as [encoder He];
        [discriminate|].
      cbn [bind]. rewrite He. cbn [bind].
      destruct rest as [|padding packed]; [reflexivity|].
      exists encoder. split; [reflexivity|].
      now rewrite remove_padding_bytes.
  - cbn [bind]. split; [|f_equal]; exact (read_header_error file Hh).
Qed.

(** ** The size of the container *)

(** X12: a container of [compress] has 2 bytes for the count, 5 for each
    distinct byte value of the data, 1 for the padding count, and one for
    every 8 code bits begun or, when the code bits fill their bytes, one
    more for the 8 filler bits. *)
Theorem container_length (data container : bytes) (self : HuffmanEncoder.t) :
  HuffmanEncoder.compress HuffmanEncoder.init data = Ok (self, container) ->
  exists encoded_text,
    HuffmanEncoder.get_encoded_text self data = Ok encoded_text /\
    length container
    = 2 + 5 * length (HuffmanEncoder.build_frequency_dict data)
      + 1 + (length encoded_text / 8 + 1).
Proof.
  intros Hc.
  destruct (@decompress_written data container self Hc)
    as [heap [root [enc [bs [_ [_ [_ [_ [Henc [Hbits [_ [Hread _]]]]]]]]]]]].
  apply compress_inv in Hc.
  destruct Hc as [heap' [root' [enc' [bs' [size [recs
    [_ [_ [_ [Henc' [Hbs [Hsize [Hrecs ->]]]]]]]]]]]]].
  assert (enc' = enc) by congruence. subst enc'.
  assert (bs' = bs).
  { apply read_bits_inj. rewrite Hread. now apply read_bits_packed. }
  subst bs'.
  exists enc. split; [exact Henc|].
  apply to_bytes_Ok in Hsize. destruct Hsize as [Hl _].
  rewrite !length_app, Hl, (records_length Hrecs).
  assert (Hb : 8 * length bs = 8 + length enc + extra_padding enc)
    by (rewrite <- read_bits_length, Hread; apply padded_length).
  unfold extra_padding in Hb.
  pose proof (Nat.div_mod_eq (length enc) 8) as Hd.
  pose proof (Nat.mod_upper_bound (length enc) 8) as Hm.
  lia.
Qed.

Lemma container_length_witness :
  exists encoded_text,
    HuffmanEncoder.get_encoded_text
      (HuffmanEncoder.mk
         [("a"%byte, [zero]); ("c"%byte, [one; zero]); ("b"%byte, [one; one])]
         [([zero], "a"%byte); ([one; zero], "c"%byte); ([one; one], "b"%byte)])
      ["a"%byte; "a"%byte; "a"%byte; "b"%byte; "b"%byte; "c"%byte]
    = Ok encoded_text /\
    length
      ["000"%byte; "003"%byte;
       "a"%byte; "000"%byte; "000"%byte; "000"%byte; "003"%byte;
       "b"%byte; "000"%byte; "000"%byte; "000"%byte; "002"%byte;
       "c"%byte; "000"%byte; "000"%byte; "000"%byte; "001"%byte;
       "007"%byte; "031"%byte; "000"%byte]
    = 2 + 5 * length
            (HuffmanEncoder.build_frequency_dict
               ["a"%byte; "a"%byte; "a"%byte; "b"%byte; "b"%byte; "c"%byte])
      + 1 + (length encoded_text / 8 + 1).
Proof.
  apply (@container_length
           ["a"%byte; "a"%byte; "a"%byte; "b"%byte; "b"%byte; "c"%byte]).
  vm_compute. reflexivity.
Defined.

(** ** An encoder used before *)

Section DictFoldLast.
Variables K V : Type.
Variable eqb : K -> K -> bool.
Hypothesis eqb_eq : forall a b, eqb a b = true <-> a = b.

Lemma dict_get_fold_other (l : list (K * V)) :
  forall (d : dict K V) k,
    ~ In k (map fst l) ->
    dict_get eqb
      (fold_left (fun d kv => dict_set eqb d (fst kv) (snd kv)) l d) k
    = dict_get eqb d k.
Proof.
  induction l as [|[k0 v0] l IH]; intros d k Hk; simpl in *; [reflexivity|].
  rewrite IH by tauto.
  apply (dict_get_set_neq eqb eqb_eq). intros ->. tauto.
Qed.

(** What a run of stores leaves for a key it stores does not depend on
    the dictionary it started from. *)
Lemma dict_get_fold_stored (l : list (K * V)) :
  forall (d1 d2 : dict K V) k,
    In k (map fst l) ->
    dict_get eqb
      (fold_left (fun d kv => dict_set eqb d (fst kv) (snd kv)) l d1) k
    = dict_get eqb
        (fold_left (fun d kv => dict_set eqb d (fst kv) (snd kv)) l d2) k.
Proof.
  induction l as [|[k0 v0] l IH]; intros d1 d2 k Hk; simpl in *; [tauto|].
  assert (Hdec : In k (map fst l) \/ ~ In k (map fst l)).
  { destruct (existsb (eqb k) (map fst l)) eqn:E.
    - left. now apply (existsb_eqb_In eqb eqb_eq).
    - right. intros Hin. apply (existsb_eqb_In eqb eqb_eq) in Hin. congruence. }
  destruct Hdec as [Hin|Hnin].
  - now apply IH.
  - destruct Hk as [->|Hk]; [|contradiction].
    rewrite !dict_get_fold_other by assumption.
    now rewrite !(dict_get_set_eq eqb eqb_eq).
Qed.
End DictFoldLast.

Lemma for_each_ext_in (A S : Type) (f g : S -> A -> result S) (xs : list A) :
  (forall s x, In x xs -> f s x = g s x) ->
  forall s, for_each f xs s = for_each g xs s.
Proof.
  induction xs as [|x xs IH]; intros H s; simpl; [reflexivity|].
  rewrite (H s x) by now left.
  destruct (g s x) as [s'|e]; simpl; [|reflexivity].
  apply IH. intros s0 x0 Hx. apply H. now right.
Qed.

(** X13: [compress] writes the same container whatever the encoder holds
    from an earlier call, and fails in the same way: the codes of the
    bytes of the data are all stored anew. *)
Theorem compress_any_encoder (self : HuffmanEncoder.t) (data : bytes) :
  ('(_, output) <- HuffmanEncoder.compress self data ;; Ok output)
  = compress data.
Proof.
  unfold compress, HuffmanEncoder.compress.
  destruct (HuffmanEncoder.build_heap (HuffmanEncoder.build_frequency_dict data))
    as [heap|e] eqn:Hheap; [|reflexivity].
  cbn [bind].
  destruct (HuffmanEncoder.build_huffman_tree heap) as [root|e] eqn:Hroot;
    [|reflexivity].
  cbn [bind].
  assert (Henc :
    HuffmanEncoder.get_encoded_text (HuffmanEncoder.build_codes self root) data
    = HuffmanEncoder.get_encoded_text
        (HuffmanEncoder.build_codes HuffmanEncoder.init root) data).
  { unfold HuffmanEncoder.get_encoded_text. apply for_each_ext_in.
    intros s c Hc.
    destruct (build_frequency_dict_spec data) as [_ [Hkeys _]].
    assert (Hne : HuffmanEncoder.build_frequency_dict data <> []).
    { intros E. apply Hkeys in Hc. rewrite E in Hc. contradiction. }
    destruct (tree_of_table Hne) as [heap' [root' [Hh' [Hr' [Hperm _]]]]].
    assert (heap' = heap) by congruence. subst heap'.
    assert (root' = root) by congruence. subst root'.
    assert (Hin : In c (map fst (code_list root []))).
    { rewrite code_list_leaves.
      eapply Permutation_in; [apply Permutation_sym, Hperm|].
      now apply Hkeys. }
    unfold HuffmanEncoder.build_codes.
    rewrite !build_codes_helper_fold, !fold_assign_codes.
    rewrite (dict_get_fold_stored Byte.eqb byte_eqb_eq _
               (HuffmanEncoder.codes self)
               (HuffmanEncoder.codes HuffmanEncoder.init) _ Hin).
    reflexivity. }
  rewrite Henc.
  destruct (HuffmanEncoder.get_encoded_text
              (HuffmanEncoder.build_codes HuffmanEncoder.init root) data)
    as [enc|e]; [|reflexivity].
  cbn [bind].
  destruct (HuffmanEncoder.get_byte_array (HuffmanEncoder.pad_encoded_text enc))
    as [bs|e]; [|reflexivity].
  cbn [bind].
  destruct (to_bytes _ 2) as [size|e]; [|reflexivity].
  cbn [bind].
  match goal with
  | |- context [for_each ?f ?l size] => destruct (for_each f l size)
  end; reflexivity.
Qed.

(** ** What the decoder emits *)

Lemma decode_fold_bound (self : HuffmanDecoder.t) (text : str) :
  forall (cur : str) (out : bytes),
    let st := fold_left (HuffmanDecoder.decode_step self) text (cur, out) in
    length (fst st) + length (snd st) <= length cur + length out + length text /\
    length out <= length (snd st) /\
    forall c,
      In c (snd st) ->
      In c out \/
      exists code,
        code <> [] /\
        dict_get str_eqb (HuffmanDecoder.reverse_mapping self) code = Some c.
Proof.
  induction text as [|bit text IH]; intros cur out; cbn zeta.
  - simpl. split; [lia|]. split; [lia|]. intros c Hc. now left.
  - cbn [fold_left].
    destruct (HuffmanDecoder.decode_step self (cur, out) bit)
      as [cur' out'] eqn:Hstep.
    destruct (IH cur' out') as [H1 [H2 H3]]. cbn zeta in *.
    unfold HuffmanDecoder.decode_step in Hstep.
    destruct (dict_get str_eqb (HuffmanDecoder.reverse_mapping self)
                (cur ++ [bit])) as [c0|] eqn:E;
      injection Hstep as <- <-.
    + rewrite length_app in H1, H2. simpl in H1, H2.
      split; [simpl; lia|]. split; [lia|].
      intros c Hc. apply H3 in Hc. destruct Hc as [Hc|Hc]; [|now right].
      apply in_app_or in Hc. destruct Hc as [Hc|[<-|[]]]; [now left|].
      right. exists (cur ++ [bit]). split; [|exact E].
      intros H. apply app_eq_nil in H. destruct H; discriminate.
    + rewrite length_app in H1. simpl in H1.
      split; [simpl; lia|]. split; [lia|]. exact H3.
Qed.

(** X14: whatever the bits and the mapping, [decode_text] emits at most
    one byte per bit read, and every byte it emits is the value
    [reverse_mapping] holds for a code that is not empty: an entry for the
    empty code is never used. *)
Theorem decode_text_bound (self : HuffmanDecoder.t) (encoded_text : str) :
  length (HuffmanDecoder.decode_text self encoded_text)
  <= length encoded_text /\
  forall c,
    In c (HuffmanDecoder.decode_text self encoded_text) ->
    exists code,
      code <> [] /\
      dict_get str_eqb (HuffmanDecoder.reverse_mapping self) code = Some c.
Proof.
  unfold HuffmanDecoder.decode_text, HuffmanDecoder.decode_loop.
  destruct (decode_fold_bound self encoded_text [] []) as [H1 [_ H3]].
  cbn zeta in *. cbn [length] in H1. unfold str, bytes in *. split; [lia|].
  intros c Hc. apply H3 in Hc. destruct Hc as [[]|Hc]. exact Hc.
Qed.

(** ** The outcomes of [compress] *)

Lemma write_records_overflow (frequency : dict byte N) :
  Exists (fun item => (2 ^ 32 <= snd item)%N) frequency ->
  forall output,
    for_each
      (fun output '(c, f) => fb <- to_bytes f 4 ;; Ok (output ++ [c] ++ fb))
      frequency output = Err OverflowError.
Proof.
  induction frequency as [|[c f] d IH]; intros H output.
  - inversion H.
  - cbn [for_each].
    destruct (N.le_gt_cases (2 ^ 32) f) as [Hbig|Hsmall].
    + rewrite to_bytes_big; [reflexivity | exact Hbig].
    + destruct (@to_bytes_small f 4) as [fb ->]; [exact Hsmall|].
      cbn [bind]. apply IH.
      inversion H as [? ? Hf|? ? Hd]; subst; [simpl in Hf; lia | exact Hd].
Qed.

Lemma compress_overflow (data : bytes) :
  (exists c, (2 ^ 32 <= N.of_nat (count_occ Byte.byte_eq_dec data c))%N) ->
  compress data = Err OverflowError.
Proof.
  intros [c0 Hbig].
  destruct (build_frequency_dict_spec data) as [Hnd [Hkeys Hcount]].
  assert (Hc0 : In c0 data).
  { apply (count_occ_In Byte.byte_eq_dec).
    destruct (count_occ Byte.byte_eq_dec data c0); [simpl in Hbig; lia | lia]. }
  set (frequency := HuffmanEncoder.build_frequency_dict data) in *.
  assert (Hfne : frequency <> []).
  { intros E. apply Hkeys in Hc0. rewrite E in Hc0. contradiction. }
  destruct (tree_of_table Hfne) as [heap [root [Hheap [Hroot [Hperm _]]]]].
  assert (Hleaves : NoDup (leaves root)).
  { eapply Permutation_NoDup; [apply Permutation_sym, Hperm | exact Hnd]. }
  assert (Hdata : forall c, In c data -> In c (leaves root)).
  { intros c Hc. eapply Permutation_in; [apply Permutation_sym, Hperm|].
    now apply Hkeys. }
  destruct (@encode_decode root
              (HuffmanEncoder.build_codes HuffmanEncoder.init root)
              (@build_codes_codes root Hleaves) Hleaves data Hdata [])
    as [enc [Henc [Hbits _]]].
  destruct (get_byte_array_spec (padded_length_mod enc) (pad_bit_string Hbits))
    as [bs [Hbs _]].
  destruct (@to_bytes_small (N.of_nat (length frequency)) 2) as [size Hsize].
  { pose proof (NoDup_bytes_length Hnd) as Hl. unfold keys in Hl.
    rewrite length_map in Hl. change (2 ^ N.of_nat 2)%N with 4%N.
    change (256 ^ 4)%N with 4294967296%N. lia. }
  assert (Hex : Exists (fun item => (2 ^ 32 <= snd item)%N) frequency).
  { apply Exists_exists. apply Hkeys in Hc0. unfold keys in Hc0.
    apply in_map_iff in Hc0. destruct Hc0 as [[c f] [Hcf Hin]].
    simpl in Hcf. subst c. exists (c0, f). split; [exact Hin|]. simpl.
    now rewrite (frequency_items data c0 f Hin). }
  unfold compress, HuffmanEncoder.compress.
  fold frequency. rewrite Hheap. cbn [bind]. rewrite Hroot. cbn [bind].
  change ([] ++ enc) with enc in Henc.
  unfold HuffmanEncoder.get_encoded_text. rewrite Henc. cbn [bind].
  rewrite Hbs. cbn [bind]. rewrite Hsize. cbn [bind].
  now rewrite (write_records_overflow Hex).
Qed.

(** X15: the three outcomes of [compress].  On the empty input it raises
    [IndexError] (the heap is empty at [heap[0]]); on an input in which
    some byte value occurs 2^32 times or more it raises [OverflowError]
    (the count does not fit [to_bytes(4)]); on every other input it
    writes a container. *)
Theorem compress_outcome (data : bytes) :
  (data = [] -> compress data = Err IndexError) /\
  ((exists c, (2 ^ 32 <= N.of_nat (count_occ Byte.byte_eq_dec data c))%N) ->
   compress data = Err OverflowError) /\
  (data <> [] ->
   (forall c, (N.of_nat (count_occ Byte.byte_eq_dec data c) < 2 ^ 32)%N) ->
   exists container, compress data = Ok container).
Proof.
  split; [intros ->; reflexivity|].
  split; [apply compress_overflow | apply compress_Ok].
Qed.

(** ** The bits the decoder leaves *)

Lemma prefix_snoc (a c : str) (bit : ascii) :
  prefix a (c ++ [bit]) -> a = c ++ [bit] \/ prefix a c.
Proof.
  intros [t Ht]. destruct t as [|x t] using rev_ind.
  - left. now rewrite app_nil_r in Ht.
  - right. rewrite app_assoc in Ht. apply app_inj_tail in Ht.
    destruct Ht as [Ht _]. now exists t.
Qed.

(** Under a well-formed tree every string of binary digits starts with a
    code or can be continued to one. *)
Lemma code_complete (t : HuffmanNode) :
  huffman_tree t ->
  forall p s,
    bit_string s ->
    (exists c code, In (c, code) (code_list t p) /\ prefix code (p ++ s)) \/
    (exists c code u,
       In (c, code) (code_list t p) /\ u <> [] /\ code = (p ++ s) ++ u).
Proof.
  induction 1 as [c0 f | l r Hl IHl Hr IHr]; intros p s Hs.
  - left. exists c0, p. split; [now left | apply prefix_app].
  - cbn [code_list]. destruct s as [|bit s].
    + right.
      assert (Hsome : exists c code, In (c, code) (code_list l (p ++ [zero]))).
      { destruct (IHl (p ++ [zero]) [] Hs)
          as [[c [code [Hin _]]]|[c [code [u [Hin _]]]]]; eauto. }
      destruct Hsome as [c [code Hin]].
      pose proof (code_list_prefix _ _ _ _ Hin) as [v Hv].
      exists c, code, (zero :: v).
      split; [apply in_or_app; now left|]. split; [discriminate|].
      rewrite Hv, app_nil_r, <- app_assoc. reflexivity.
    + inversion Hs as [|? ? Hbit Hs']; subst.
      assert (Hstep : forall sub,
        sub = l \/ sub = r ->
        ((exists c code, In (c, code) (code_list sub (p ++ [bit])) /\
                         prefix code ((p ++ [bit]) ++ s)) \/
         (exists c code u, In (c, code) (code_list sub (p ++ [bit])) /\
                           u <> [] /\ code = ((p ++ [bit]) ++ s) ++ u))).
      { intros sub [-> | ->]; [apply IHl | apply IHr]; exact Hs'. }
      replace (p ++ bit :: s) with ((p ++ [bit]) ++ s)
        by (now rewrite <- app_assoc).
      destruct Hbit as [-> | ->].
      * destruct (Hstep l (or_introl eq_refl))
          as [[c [code [Hin Hp]]]|[c [code [u [Hin Hu]]]]].
        -- left. exists c, code. split; [apply in_or_app; now left | exact Hp].
        -- right. exists c, code, u. split; [apply in_or_app; now left | exact Hu].
      * destruct (Hstep r (or_intror eq_refl))
          as [[c [code [Hin Hp]]]|[c [code [u [Hin Hu]]]]].
        -- left. exists c, code. split; [apply in_or_app; now right | exact Hp].
        -- right. exists c, code, u. split; [apply in_or_app; now right | exact Hu].
Qed.

Lemma decode_leftover (root : HuffmanNode) :
  huffman_tree root -> char root = None ->
  forall text cur out,
    bit_string text ->
    (exists c code u, In (c, code) (code_list root []) /\ u <> [] /\
                      code = cur ++ u) ->
    exists c code u,
      In (c, code) (code_list root []) /\ u <> [] /\
      code
      = fst (fold_left
               (HuffmanDecoder.decode_step
                  (HuffmanDecoder.mk (map swap_item (code_list root []))))
               text (cur, out)) ++ u.
Proof.
  intros Ht Hint text.
  induction text as [|bit text IH]; intros cur out Hbits Hcur; [exact Hcur|].
  inversion Hbits as [|? ? Hbit Hbits']; subst.
  cbn [fold_left].
  destruct (HuffmanDecoder.decode_step
              (HuffmanDecoder.mk (map swap_item (code_list root [])))
              (cur, out) bit) as [cur' out'] eqn:Hstep.
  apply IH; [exact Hbits'|].
  unfold HuffmanDecoder.decode_step in Hstep.
  cbn [HuffmanDecoder.reverse_mapping] in Hstep.
  destruct Hcur as [c1 [code1 [u1 [Hin1 [Hu1 Hc1]]]]].
  destruct (@code_complete root Ht [] (cur ++ [bit]))
    as [[c [code [Hin Hp]]]|[c [code [u [Hin [Hu Hc]]]]]].
  { apply Forall_app. split; [|constructor; [exact Hbit | constructor]].
    assert (Hb : bit_string code1)
      by (apply (@code_list_bits root [] c1 code1); [constructor | exact Hin1]).
    rewrite Hc1 in Hb. now apply Forall_app in Hb. }
  - cbn [app] in Hp. apply prefix_snoc in Hp. destruct Hp as [-> | Hp].
    + rewrite (reverse_get_code root _ _ Hin) in Hstep.
      injection Hstep as <- <-.
      destruct (@code_list_internal root [] c1 code1 Hint Hin1)
        as [b [t [_ Hcode]]].
      exists c1, code1, code1. split; [exact Hin1|]. split; [|reflexivity].
      rewrite Hcode. discriminate.
    + exfalso.
      assert (Heq : code = code1).
      { apply (@code_list_prefix_eq root [] code code1).
        - apply in_map_iff. exists (c, code). auto.
        - apply in_map_iff. exists (c1, code1). auto.
        - eapply prefix_trans; [exact Hp|]. exists u1. exact Hc1. }
      subst code. destruct Hp as [v Hv].
      rewrite Hv, <- app_assoc in Hc1.
      rewrite <- (app_nil_r code1) in Hc1 at 1.
      apply app_inv_head in Hc1. symmetry in Hc1.
      apply app_eq_nil in Hc1. tauto.
  - cbn [app] in Hc.
    rewrite (@reverse_get_prefix root c code (cur ++ [bit]) u Hin Hc Hu)
      in Hstep.
    injection Hstep as <- <-. exists c, code, u. auto.
Qed.

(** X16: with two or more symbols in the table, whatever binary digits
    [decode_text] is given, the bits it has read but not turned into a
    byte when the digits end are a proper prefix of a code: the decoder
    never piles up bits that lead to no symbol, and it drops fewer bits
    than the table has symbols. *)
Theorem decode_leftover_is_code_prefix (frequency : dict byte N)
    (encoded_text : str) :
  2 <= length frequency ->
  bit_string encoded_text ->
  exists self c code,
    code_table frequency = Ok self /\
    dict_get str_eqb (HuffmanEncoder.reverse_mapping self) code = Some c /\
    proper_prefix
      (fst (HuffmanDecoder.decode_loop
              (HuffmanDecoder.mk (HuffmanEncoder.reverse_mapping self))
              encoded_text))
      code /\
    length (fst (HuffmanDecoder.decode_loop
                   (HuffmanDecoder.mk (HuffmanEncoder.reverse_mapping self))
                   encoded_text)) + 2
    <= length frequency.
Proof.
  intros Hlen Hbits.
  assert (Hne : frequency <> []) by (intros ->; simpl in Hlen; lia).
  destruct (table_tree Hne) as [heap [root [Hh [Hr [Ht [Hp _]]]]]].
  destruct (tree_of_table Hne) as [heap' [root' [Hh' [Hr' [_ Hint]]]]].
  assert (heap' = heap) by congruence. subst heap'.
  assert (root' = root) by congruence. subst root'.
  assert (Hlt : (1 <? length frequency) = true) by (apply Nat.ltb_lt; lia).
  rewrite Hlt in Hint.
  destruct (code_list_depth Ht) as [Hone Hdepth].
  assert (Hsome : exists c code, In (c, code) (code_list root [])).
  { destruct (code_list root []) as [|[c code] l] eqn:E.
    - apply (f_equal (map fst)) in E. rewrite code_list_leaves in E.
      rewrite E in Hone. simpl in Hone. lia.
    - exists c, code. now left. }
  destruct Hsome as [c0 [code0 Hin0]].
  destruct (@decode_leftover root Ht Hint encoded_text [] [] Hbits)
    as [c [code [u [Hin [Hu Hcode]]]]].
  { exists c0, code0, code0. split; [exact Hin0|]. split; [|reflexivity].
    destruct (@code_list_internal root [] c0 code0 Hint Hin0)
      as [b [t [_ ->]]]. discriminate. }
  exists (HuffmanEncoder.build_codes HuffmanEncoder.init root), c, code.
  split; [unfold code_table; rewrite Hh; cbn [bind]; now rewrite Hr|].
  rewrite build_codes_reverse. unfold HuffmanDecoder.decode_loop.
  split; [now apply reverse_get_code|]. split.
  - split; [exists u; exact Hcode|].
    intros E. apply (f_equal (@length ascii)) in Hcode.
    apply (f_equal (@length ascii)) in E.
    rewrite length_app in Hcode. unfold str, bytes in *.
    destruct u; [congruence | simpl in Hcode; lia].
  - apply Hdepth in Hin as Hd. simpl in Hd.
    assert (Hl : length (leaves root) = length frequency).
    { rewrite <- huffman_tree_leaves, length_map.
      now apply Permutation_length. }
    assert (Hul : 1 <= length u) by (destruct u; [congruence | simpl; lia]).
    apply (f_equal (@length ascii)) in Hcode. rewrite length_app in Hcode.
    unfold str, bytes in *. lia.
Qed.

Lemma decode_leftover_is_code_prefix_witness :
  exists self c code,
    code_table [("a"%byte, 3%N); ("b"%byte, 2%N); ("c"%byte, 1%N)] = Ok self /\
    dict_get str_eqb (HuffmanEncoder.reverse_mapping self) code = Some c /\
    proper_prefix
      (fst (HuffmanDecoder.decode_loop
              (HuffmanDecoder.mk (HuffmanEncoder.reverse_mapping self))
              [one; one; zero; one]))
      code /\
    length (fst (HuffmanDecoder.decode_loop
                   (HuffmanDecoder.mk (HuffmanEncoder.reverse_mapping self))
                   [one; one; zero; one])) + 2
    <= length [("a"%byte, 3%N); ("b"%byte, 2%N); ("c"%byte, 1%N)].
Proof.
  apply (@decode_leftover_is_code_prefix
           [("a"%byte, 3%N); ("b"%byte, 2%N); ("c"%byte, 1%N)]
           [one; one; zero; one]).
  - simpl. lia.
  - apply bit_string_forallb. reflexivity.
Defined.

(** ** The order of the table and the number of code bits *)

Lemma build_frequency_dict_snoc (data : bytes) (x : byte) :
  HuffmanEncoder.build_frequency_dict (data ++ [x])
  = HuffmanEncoder.count_char (HuffmanEncoder.build_frequency_dict data) x.
Proof.
  unfold HuffmanEncoder.build_frequency_dict. now rewrite fold_left_app.
Qed.

(** A table with distinct symbols is the list of its symbols, each with
    the count the table holds for it. *)
Lemma dict_items_count_of (frequency : dict byte N) :
  NoDup (keys frequency) ->
  frequency = map (fun c => (c, count_of frequency c)) (keys frequency).
Proof.
  induction frequency as [|[k v] d IH]; intros Hnd; [reflexivity|].
  inversion Hnd as [|? ? Hk Hd]; subst.
  cbn [keys map fst]. f_equal.
  - unfold count_of. cbn [dict_get].
    now rewrite (eqb_refl Byte.eqb byte_eqb_eq).
  - rewrite (IH Hd) at 1. apply map_ext_in. intros c Hc. f_equal.
    unfold count_of. cbn [dict_get].
    rewrite (eqb_neq Byte.eqb byte_eqb_eq); [reflexivity|].
    intros ->. exact (Hk Hc).
Qed.

(** The records of a table lie five bytes apart, each behind its
    symbol. *)
Lemma record_symbol_at (frequency : dict byte N) (recs : list bytes)
    (rest : bytes) :
  Forall2 is_record frequency recs ->
  forall i c,
    nth_error (keys frequency) i = Some c ->
    nth_error (concat recs ++ rest) (5 * i) = Some c.
Proof.
  induction 1 as [|item rec items recs [fb [-> [Hl _]]] _ IH]; intros i c Hi.
  - destruct i; discriminate.
  - destruct fb as [|b0 [|b1 [|b2 [|b3 [|b4 fb]]]]]; try discriminate.
    destruct i as [|i].
    + cbn in Hi. injection Hi as <-. reflexivity.
    + cbn [keys map nth_error] in Hi.
      replace (5 * S i) with (S (S (S (S (S (5 * i)))))) by lia.
      cbn [concat app nth_error]. exact (IH i c Hi).
Qed.

(** X17: the frequency table lists the byte values in the order in which
    they first occur in the data, and this is the order of the records
    in every container that [compress] returns for the data: after the
    two bytes of the count, which is the number of these byte values,
    the record of the [i]-th of them starts at offset [2 + 5 * i] and
    holds the byte value and the number of its occurrences. *)
Theorem frequency_table_order (data : bytes) :
  keys (HuffmanEncoder.build_frequency_dict data)
  = rev (nodup Byte.byte_eq_dec (rev data)) /\
  forall container : bytes,
    compress data = Ok container ->
    exists (size : bytes) (recs : list bytes) (packed : bytes),
      container = size ++ concat recs ++ packed /\
      length size = 2 /\
      from_bytes size
      = N.of_nat (length (rev (nodup Byte.byte_eq_dec (rev data)))) /\
      Forall2
        (fun c rec =>
           is_record (c, N.of_nat (count_occ Byte.byte_eq_dec data c)) rec)
        (rev (nodup Byte.byte_eq_dec (rev data))) recs /\
      forall i c,
        nth_error (rev (nodup Byte.byte_eq_dec (rev data))) i = Some c ->
        nth_error container (2 + 5 * i) = Some c.
Proof.
  assert (Hkeys : keys (HuffmanEncoder.build_frequency_dict data)
                  = rev (nodup Byte.byte_eq_dec (rev data))).
  { induction data as [|x data IH] using rev_ind; [reflexivity|].
    rewrite build_frequency_dict_snoc. unfold HuffmanEncoder.count_char.
    rewrite keys_dict_set, IH, rev_app_distr. cbn [rev app nodup].
    destruct (in_dec Byte.byte_eq_dec x (rev data)) as [Hin|Hnin].
    - assert (E : existsb (Byte.eqb x)
                    (rev (nodup Byte.byte_eq_dec (rev data))) = true).
      { apply (existsb_eqb_In Byte.eqb byte_eqb_eq).
        apply in_rev. rewrite rev_involutive. now apply nodup_In. }
      now rewrite E.
    - assert (E : existsb (Byte.eqb x)
                    (rev (nodup Byte.byte_eq_dec (rev data))) = false).
      { destruct (existsb (Byte.eqb x)
                    (rev (nodup Byte.byte_eq_dec (rev data)))) eqn:E;
          [|reflexivity].
        apply (existsb_eqb_In Byte.eqb byte_eqb_eq) in E.
        apply in_rev in E. apply nodup_In in E. contradiction. }
      now rewrite E. }
  split; [exact Hkeys|].
  intros container Hc.
  apply compress_Ok_inv in Hc. destruct Hc as [self Hc].
  apply compress_inv in Hc.
  destruct Hc as [heap [root [enc [bs [size [recs
    [_ [_ [_ [_ [_ [Hsize [Hrecs ->]]]]]]]]]]]]].
  apply to_bytes_Ok in Hsize. destruct Hsize as [Hl [Hv _]].
  destruct (build_frequency_dict_spec data) as [Hnd [_ Hcount]].
  exists size, recs, bs.
  split; [reflexivity|]. split; [exact Hl|]. split.
  { rewrite Hv, <- Hkeys. unfold keys. now rewrite length_map. }
  split.
  - rewrite (@dict_items_count_of _ Hnd), Hkeys in Hrecs.
    revert Hrecs. generalize (rev (nodup Byte.byte_eq_dec (rev data))).
    intros order. revert recs.
    induction order as [|c order IH]; intros recs Hrecs;
      inversion Hrecs as [|? rec ? recs' Hrec Hrest]; subst; constructor.
    + now rewrite <- Hcount.
    + exact (IH _ Hrest).
  - intros i c Hi. rewrite <- Hkeys in Hi.
    replace (2 + 5 * i) with (length size + 5 * i) by lia.
    rewrite nth_error_app2 by lia.
    replace (length size + 5 * i - length size) with (5 * i) by lia.
    exact (@record_symbol_at _ recs bs Hrecs i c Hi).
Qed.

(** The container of [b"banana"]: the records of [b], [a] and [n], in
    this order, at offsets 2, 7 and 12. *)
Lemma frequency_table_order_witness :
  let data :=
    ["b"%byte; "a"%byte; "n"%byte; "a"%byte; "n"%byte; "a"%byte] in
  let container :=
    ["000"%byte; "003"%byte;
     "b"%byte; "000"%byte; "000"%byte; "000"%byte; "001"%byte;
     "a"%byte; "000"%byte; "000"%byte; "000"%byte; "003"%byte;
     "n"%byte; "000"%byte; "000"%byte; "000"%byte; "002"%byte;
     "007"%byte; "155"%byte; "000"%byte] in
  keys (HuffmanEncoder.build_frequency_dict data)
  = rev (nodup Byte.byte_eq_dec (rev data)) /\
  exists (size : bytes) (recs : list bytes) (packed : bytes),
    container = size ++ concat recs ++ packed /\
    length size = 2 /\
    from_bytes size
    = N.of_nat (length (rev (nodup Byte.byte_eq_dec (rev data)))) /\
    Forall2
      (fun c rec =>
         is_record (c, N.of_nat (count_occ Byte.byte_eq_dec data c)) rec)
      (rev (nodup Byte.byte_eq_dec (rev data))) recs /\
    forall i c,
      nth_error (rev (nodup Byte.byte_eq_dec (rev data))) i = Some c ->
      nth_error container (2 + 5 * i) = Some c.
Proof.
  cbv zeta.
  destruct (@frequency_table_order
              ["b"%byte; "a"%byte; "n"%byte; "a"%byte; "n"%byte; "a"%byte])
    as [Hkeys Hrecords].
  split; [exact Hkeys|].
  apply Hrecords. vm_compute. reflexivity.
Defined.

Lemma weighted_count_char (self : HuffmanEncoder.t) (d : dict byte N) (c : byte) :
  weighted_length (HuffmanEncoder.count_char d c) self
  = (weighted_length d self + N.of_nat (length (code_of self c)))%N.
Proof.
  unfold HuffmanEncoder.count_char, weighted_length.
  induction d as [|[k v] d IH]; cbn [dict_get dict_set fold_right fst snd];
    [lia|].
  destruct (Byte.eqb c k) eqn:E; cbn [dict_get dict_set fold_right fst snd].
  - apply byte_eqb_eq in E. subst k. lia.
  - rewrite IH. lia.
Qed.

Lemma weighted_frequency (self : HuffmanEncoder.t) (data : bytes) :
  weighted_length (HuffmanEncoder.build_frequency_dict data) self
  = N.of_nat (length (flat_map (code_of self) data)).
Proof.
  induction data as [|x data IH] using rev_ind; [reflexivity|].
  rewrite build_frequency_dict_snoc, weighted_count_char, IH.
  rewrite flat_map_app, length_app. simpl. rewrite app_nil_r. lia.
Qed.

(** X18: the encoded text of [get_encoded_text] has, for every symbol of
    the frequency table of the data, as many bits as its count times the
    length of its code. *)
Theorem encoded_length (self : HuffmanEncoder.t) (data : bytes)
    (encoded_text : str) :
  HuffmanEncoder.get_encoded_text self data = Ok encoded_text ->
  N.of_nat (length encoded_text)
  = weighted_length (HuffmanEncoder.build_frequency_dict data) self.
Proof.
  unfold HuffmanEncoder.get_encoded_text. rewrite encode_loop.
  destruct (forallb (has_code self) data); [|discriminate].
  intros [= <-]. symmetry. apply weighted_frequency.
Qed.

Lemma encoded_length_witness :
  N.of_nat (length [zero; zero; zero; one; one; one; one; one; zero])
  = weighted_length
      (HuffmanEncoder.build_frequency_dict
         ["a"%byte; "a"%byte; "a"%byte; "b"%byte; "b"%byte; "c"%byte])
      (HuffmanEncoder.mk
         [("a"%byte, [zero]); ("c"%byte, [one; zero]); ("b"%byte, [one; one])]
         [([zero], "a"%byte); ([one; zero], "c"%byte); ([one; one], "b"%byte)]).
Proof.
  apply (@encoded_length
           (HuffmanEncoder.mk
              [("a"%byte, [zero]); ("c"%byte, [one; zero]);
               ("b"%byte, [one; one])]
              [([zero], "a"%byte); ([one; zero], "c"%byte);
               ([one; one], "b"%byte)])
           ["a"%byte; "a"%byte; "a"%byte; "b"%byte; "b"%byte; "c"%byte]).
  vm_compute. reflexivity.
Defined.
